(** * AMAI voice audit: interview orchestration and guaranteed normalisation

    A shallow embedding of the audit application (App component, constants)
    and the properties of its answer-normalisation engine, tool-call
    dispatcher, submission pipeline and playback scheduler.

    JavaScript strings are sequences of UTF-16 code units; they are modelled
    as [list N].  Objects used as dictionaries ([AuditData], the candidate,
    the payload) are [gmap]s from strings to JavaScript values. *)

From Stdlib Require Import Ascii String NArith ZArith QArith Qminmax Lia.
From Stdlib Require DecimalPos.
From stdpp Require Import base option list gmap countable numbers.
From Equations Require Import Equations.

Local Open Scope N_scope.
Local Open Scope list_scope.

(** ** Strings *)

Abbreviation jsstring := (list N).

Module Utf8.

(** Source literals are written in UTF-8; [units] decodes the bytes of a
    literal to UTF-16 code units (surrogate pairs above U+FFFF). *)

Definition bytes (s : string) : list N :=
  List.map N_of_ascii (list_ascii_of_string s).

Definition cont (b : N) : N := N.land b 63.

Definition surrogates (cp : N) : list N :=
  let v := cp - 65536 in
  [55296 + N.shiftr v 10; 56320 + N.land v 1023].

Fixpoint units (bs : list N) : list N :=
  match bs with
  | [] => []
  | b0 :: r0 =>
    if b0 <? 128 then b0 :: units r0
    else match r0 with
    | [] => [b0]
    | b1 :: r1 =>
      if b0 <? 224 then (N.shiftl (N.land b0 31) 6 + cont b1) :: units r1
      else match r1 with
      | [] => [b0; b1]
      | b2 :: r2 =>
        if b0 <? 240
        then (N.shiftl (N.land b0 15) 12 + N.shiftl (cont b1) 6 + cont b2)
               :: units r2
        else match r2 with
        | [] => [b0; b1; b2]
        | b3 :: r3 =>
          surrogates (N.shiftl (N.land b0 7) 18 + N.shiftl (cont b1) 12
                      + N.shiftl (cont b2) 6 + cont b3) ++ units r3
        end
      end
    end
  end.

End Utf8.

(** [js "..."] is the JavaScript string denoted by a source literal. *)
Definition js (s : string) : jsstring := Utf8.units (Utf8.bytes s).

Definition str_eqb (a b : jsstring) : bool := bool_decide (a = b).

(** [Array.prototype.includes] on an array of strings. *)
Definition includes (l : list jsstring) (x : jsstring) : bool :=
  existsb (str_eqb x) l.

(** *** Character classes *)

Definition in_range (lo hi c : N) : bool := (lo <=? c) && (c <=? hi).

Definition is_digit (c : N) : bool := in_range 48 57 c.                 (* \d *)
Definition is_lower_alnum (c : N) : bool :=                           (* [a-z0-9] *)
  in_range 97 122 c || is_digit c.
Definition is_word (c : N) : bool :=                                  (* \w *)
  in_range 97 122 c || in_range 65 90 c || is_digit c || (c =? 95).
(** WhiteSpace and LineTerminator code units: what [\s] matches and what
    [String.prototype.trim] strips. *)
Definition is_space (c : N) : bool :=                                 (* \s *)
  in_range 9 13 c || (c =? 32) || (c =? 160) || (c =? 5760)
  || in_range 8192 8202 c || (c =? 8232) || (c =? 8233) || (c =? 8239)
  || (c =? 8287) || (c =? 12288) || (c =? 65279).
Definition is_combining (c : N) : bool := in_range 768 879 c. (* U+0300..U+036F *)
Definition is_apostrophe (c : N) : bool := (c =? 39) || (c =? 8217).   (* ' and U+2019 *)
Definition is_list_sep (c : N) : bool :=                              (* [\n,;|] *)
  (c =? 10) || (c =? 44) || (c =? 59) || (c =? 124).
Definition is_item_mark (c : N) : bool :=                             (* [.)-] *)
  (c =? 46) || (c =? 41) || (c =? 45).

(** *** String primitives *)

Fixpoint drop_while (p : N → bool) (s : jsstring) : jsstring :=
  match s with
  | [] => []
  | c :: s' => if p c then drop_while p s' else s
  end.

(** [String.prototype.trim]. *)
Definition trim (s : jsstring) : jsstring :=
  rev (drop_while is_space (rev (drop_while is_space s))).

(** [s.replace(/[class]/g, rep)]: every character of the class is replaced. *)
Definition replace_chars (p : N → bool) (rep : jsstring) (s : jsstring)
  : jsstring :=
  flat_map (λ c, if p c then rep else [c]) s.

(** [s.replace(/[class]+/g, rep)]: every maximal run of the class is
    replaced; [in_run] says that the previous character was in the class. *)
Fixpoint replace_runs_from (p : N → bool) (rep : jsstring) (in_run : bool)
    (s : jsstring) : jsstring :=
  match s with
  | [] => []
  | c :: s' =>
    if p c
    then (if in_run then [] else rep) ++ replace_runs_from p rep true s'
    else c :: replace_runs_from p rep false s'
  end.
Definition replace_runs (p : N → bool) (rep s : jsstring) : jsstring :=
  replace_runs_from p rep false s.

(** [s.split(/[class]+/)]: the pieces between maximal runs of separators,
    empty pieces at both ends included. *)
Fixpoint split_runs_from (p : N → bool) (cur : jsstring) (in_run : bool)
    (s : jsstring) : list jsstring :=
  match s with
  | [] => [cur]
  | c :: s' =>
    if p c
    then (if in_run then split_runs_from p [] true s'
          else cur :: split_runs_from p [] true s')
    else split_runs_from p (cur ++ [c]) false s'
  end.
Definition split_runs (p : N → bool) (s : jsstring) : list jsstring :=
  split_runs_from p [] false s.

(** [s.split(c)] for a one-character separator. *)
Fixpoint split_char_from (sep : N) (cur : jsstring) (s : jsstring)
  : list jsstring :=
  match s with
  | [] => [cur]
  | c :: s' =>
    if c =? sep then cur :: split_char_from sep [] s'
    else split_char_from sep (cur ++ [c]) s'
  end.
Definition split_char (sep : N) (s : jsstring) : list jsstring :=
  split_char_from sep [] s.

(** [.filter(Boolean)] on strings: the empty string is the only falsy one. *)
Definition nonempty (s : jsstring) : bool :=
  match s with [] => false | _ => true end.

(** [parseInt(s, 10)] on a string of decimal digits. *)
Definition parseInt (s : jsstring) : N :=
  fold_left (λ acc c, 10 * acc + (c - 48)) s 0.

(** The decimal rendering of a natural number (array indices, integers). *)
Definition decimal (n : N) : jsstring :=
  (fix go (d : Decimal.uint) : jsstring :=
     match d with
     | Decimal.Nil => []
     | Decimal.D0 d => 48 :: go d | Decimal.D1 d => 49 :: go d
     | Decimal.D2 d => 50 :: go d | Decimal.D3 d => 51 :: go d
     | Decimal.D4 d => 52 :: go d | Decimal.D5 d => 53 :: go d
     | Decimal.D6 d => 54 :: go d | Decimal.D7 d => 55 :: go d
     | Decimal.D8 d => 56 :: go d | Decimal.D9 d => 57 :: go d
     end) (N.to_uint n).

(** [Array.prototype.join]. *)
Fixpoint join (sep : jsstring) (l : list jsstring) : jsstring :=
  match l with
  | [] => []
  | [x] => x
  | x :: l' => x ++ sep ++ join sep l'
  end.

(** *** Regular expressions

    The fragment of the RegExp language the application uses: literals
    (plain or under the [i] flag), character classes, greedy bounded
    repetition of a class, sequence, alternation, [\b], [^] and [$].  The
    matcher is the usual backtracking one: [k] is the continuation, [prev]
    the character before the current position. *)

Inductive regex : Type :=
| Lit (s : jsstring)
| LitI (s : jsstring)
| Class (p : N → bool)
| Rep (p : N → bool) (lo : nat) (hi : option nat)
| Seq (r1 r2 : regex)
| Alt (r1 r2 : regex)
| WordB
| Bol
| Eol.

Definition is_word_opt (c : option N) : bool :=
  match c with Some c => is_word c | None => false end.

Definition below (n : nat) (hi : option nat) : bool :=
  match hi with Some h => Nat.ltb n h | None => true end.

Section Matcher.
(** [canon] is the canonicalisation of the [i] flag. *)
Variable canon : N → N.
Context {A : Type}.

Fixpoint lit_from (ci : bool) (l : jsstring) (prev : option N)
    (s : jsstring) (k : option N → jsstring → option A) : option A :=
  match l with
  | [] => k prev s
  | a :: l' =>
    match s with
    | [] => None
    | c :: s' =>
      if (if ci then canon a =? canon c else a =? c)
      then lit_from ci l' (Some c) s' k
      else None
    end
  end.

Fixpoint rep_from (p : N → bool) (lo : nat) (hi : option nat) (n : nat)
    (prev : option N) (s : jsstring)
    (k : option N → jsstring → option A) : option A :=
  let stop := if Nat.leb lo n then k prev s else None in
  match s with
  | [] => stop
  | c :: s' =>
    if p c && below n hi
    then match rep_from p lo hi (S n) (Some c) s' k with
         | Some r => Some r
         | None => stop
         end
    else stop
  end.

Fixpoint match_from (r : regex) (prev : option N) (s : jsstring)
    (k : option N → jsstring → option A) : option A :=
  match r with
  | Lit l => lit_from false l prev s k
  | LitI l => lit_from true l prev s k
  | Class p =>
    match s with
    | c :: s' => if p c then k (Some c) s' else None
    | [] => None
    end
  | Rep p lo hi => rep_from p lo hi 0 prev s k
  | Seq r1 r2 => match_from r1 prev s (λ prev' s', match_from r2 prev' s' k)
  | Alt r1 r2 =>
    match match_from r1 prev s k with
    | Some x => Some x
    | None => match_from r2 prev s k
    end
  | WordB =>
    if xorb (is_word_opt prev) (is_word_opt (head s)) then k prev s
    else None
  | Bol => match prev with None => k prev s | Some _ => None end
  | Eol => match s with [] => k prev s | _ => None end
  end.
End Matcher.

(** The remainder of the input after the first match starting at the
    current position. *)
Definition match_here (canon : N → N) (r : regex) (prev : option N)
    (s : jsstring) : option jsstring :=
  match_from canon r prev s (λ _ rest, Some rest).

(** [r.test(s)]: a match starting at some position. *)
Fixpoint search (canon : N → N) (r : regex) (prev : option N) (s : jsstring)
  : bool :=
  match match_here canon r prev s with
  | Some _ => true
  | None =>
    match s with
    | [] => false
    | c :: s' => search canon r (Some c) s'
    end
  end.

Definition test (canon : N → N) (r : regex) (s : jsstring) : bool :=
  search canon r None s.

(** [\b(w1|w2|...)\b] *)
Definition alts (l : list regex) : regex :=
  match l with
  | [] => Lit []
  | r :: l' => fold_left Alt l' r
  end.
Definition seqs (l : list regex) : regex :=
  match l with
  | [] => Lit []
  | r :: l' => fold_left Seq l' r
  end.
Definition words (l : list regex) : regex := Seq (Seq WordB (alts l)) WordB.
Definition w (s : string) : regex := Lit (js s).
Definition ws1 : regex := Rep is_space 1 None.        (* \s+ *)
Definition ws0 : regex := Rep is_space 0 None.        (* \s* *)

(** [r.exec(s)]: the text of the first match, leftmost start first. *)
Fixpoint exec_from (canon : N → N) (r : regex) (prev : option N)
    (s : jsstring) : option jsstring :=
  match match_here canon r prev s with
  | Some rest => Some (take (length s - length rest) s)
  | None =>
    match s with
    | [] => None
    | c :: s' => exec_from canon r (Some c) s'
    end
  end.
Definition exec (canon : N → N) (r : regex) (s : jsstring) : option jsstring :=
  exec_from canon r None s.

(** ** The JavaScript runtime

    What the engine takes from the host: numbers (IEEE doubles) with their
    rendering and truthiness, and the Unicode tables behind
    [String.prototype.toLowerCase], [String.prototype.normalize('NFD')] and
    the canonicalisation of the [i] flag of regular expressions. *)

Class JsRuntime := {
  number : Type;
  number_toString : number → jsstring;
  number_truthy : number → bool;
  toLowerCase : jsstring → jsstring;
  normalizeNFD : jsstring → jsstring;
  canonicalize : N → N;
}.

Section Values.
Context `{RT : JsRuntime}.

(** Values of type [any]: what JSON and the tool-call arguments carry. *)
#[local] Set Warnings "-register-all".
Inductive JsValue : Type :=
| JUndefined
| JNull
| JBool (b : bool)
| JNum (n : number)
| JStr (s : jsstring)
| JArr (l : list JsValue)
| JObj (fields : list (jsstring * JsValue)).

(** [v ?? d] *)
Definition nullish (v : JsValue) : bool :=
  match v with JUndefined | JNull => true | _ => false end.
Definition coalesce (v d : JsValue) : JsValue := if nullish v then d else v.

(** ToBoolean *)
Definition truthy (v : JsValue) : bool :=
  match v with
  | JUndefined | JNull => false
  | JBool b => b
  | JNum n => number_truthy n
  | JStr s => nonempty s
  | JArr _ | JObj _ => true
  end.

(** [a || b] *)
Definition js_or (a b : JsValue) : JsValue := if truthy a then a else b.

(** [String(v)] and [v.toString()], where the conversion returns: an array
    joins its elements with commas, null and undefined elements rendering as
    the empty string.  [raises] below tells when the conversion raises
    instead. *)
Fixpoint toString (v : JsValue) : jsstring :=
  match v with
  | JUndefined => js "undefined"
  | JNull => js "null"
  | JBool true => js "true"
  | JBool false => js "false"
  | JNum n => number_toString n
  | JStr s => s
  | JArr l =>
    join (js ",")
      (List.map (λ x, match x with
                      | JUndefined | JNull => []
                      | _ => toString x
                      end) l)
  | JObj _ => js "[object Object]"
  end.

(** [String(v)] and [v.toString()] raise a TypeError on an object that has
    an own property named [toString]: in data that comes from JSON such a
    property is never callable, and [valueOf] then gives back the object
    itself.  [Array.prototype.join] converts every element that is neither
    undefined nor null, so an array raises when one of these does. *)
Fixpoint raises (v : JsValue) : bool :=
  match v with
  | JObj fields =>
    existsb (λ f : jsstring * JsValue, str_eqb f.1 (js "toString")) fields
  | JArr l =>
    existsb (λ x, match x with
                  | JUndefined | JNull => false
                  | _ => raises x
                  end) l
  | _ => false
  end.

Definition is_string (v : JsValue) : bool :=
  match v with JStr _ => true | _ => false end.

(** [AuditData], [Record<string, any>]: own properties by key. *)
Definition getprop (o : gmap jsstring JsValue) (k : jsstring) : JsValue :=
  default JUndefined (o !! k).
End Values.

(** ** Schema (types and constants) *)

Module Types.
Inductive QuestionType := SELECT | MULTI_SELECT | STRING | BOOL.

Record Question := {
  id : jsstring;
  label : jsstring;
  type : QuestionType;
  notionKey : jsstring;
  options : option (list jsstring);
  maxItems : option nat;
  triggerAutre : option jsstring;
  autreKey : option jsstring;
}.
End Types.
Export Types(QuestionType, SELECT, MULTI_SELECT, STRING, BOOL, Question).

#[global] Instance QuestionType_eq_dec : EqDecision QuestionType.
Proof. solve_decision. Defined.

(** The question catalogue, [QUESTIONS] of constants.ts. *)

Definition q01 : Question := {|
  Types.id := js "q01";
  Types.label :=
    js "Comment décririez-vous la stratégie IA actuelle de votre entreprise ? Votre stratégie actuelle est-elle en phase d'exploration, plutôt en cours de mise en oeuvre ou entièrement intégrée et déployée  ? ";
  Types.type := SELECT;
  Types.notionKey := js "Maturité – Stratégie";
  Types.options := Some [
    js "Pas de stratégie définie nous explorons simplement.";
    js "Nous avons une stratégie de base pour des projets spécifiques mais non étendue à toute l'entreprise";
    js "Nous avons une stratégie IA claire à l'échelle de l'entreprise en cours d'implémentation.";
    js "Notre stratégie IA est entièrement intégrée à notre stratégie commerciale et stimule l'innovation."
  ];
  Types.maxItems := None;
  Types.triggerAutre := None;
  Types.autreKey := None;
|}.

Definition q02 : Question := {|
  Types.id := js "q02";
  Types.label :=
    js "Comment décririez-vous l'état de l'infrastructure des données de votre entreprise ? Vos données sont plutôt bien structurées ou encore dispersées et difficilement exploitables ?";
  Types.type := SELECT;
  Types.notionKey := js "Maturité – Données-Infrastructure";
  Types.options := Some [
    js "Les données sont cloisonnées et inaccessibles";
    js "Nous commençons à centraliser les données mais c'est un travail en cours";
    js "Nous disposons d'une plateforme de données centralisée et bien gérée";
    js "Nos données sont un atout stratégique - disponibles pour modèles IA - gouvernance solide"
  ];
  Types.maxItems := None;
  Types.triggerAutre := None;
  Types.autreKey := None;
|}.

Definition q03 : Question := {|
  Types.id := js "q03";
  Types.label :=
    js "Comment évaluez-vous les compétences en IA, Numérique ou digital au sein de vos équipes ?";
  Types.type := SELECT;
  Types.notionKey := js "Maturité – Compétences";
  Types.options := Some [
    js "Très faibles. Nous avons peu ou pas d'expertise en interne.";
    js "Basiques. Quelques membres de l'équipe ont des connaissances mais ce n'est pas généralisé.";
    js "Modérées. Nous avons des équipes ou individus dédiés avec de solides compétences IA-Numérique";
    js "Élevées. Expertise en IA-Numérique répandue et encouragée activement - culture d'apprentissage"
  ];
  Types.maxItems := None;
  Types.triggerAutre := None;
  Types.autreKey := None;
|}.

Definition q04 : Question := {|
  Types.id := js "q04";
  Types.label :=
    js "Quelle est l'approche de l'entreprise pour adopter de nouvelles technologies comme l'IA ? Vous avez une approche plutôt attentiste, de test à petite échelle ou très proctive ? ";
  Types.type := SELECT;
  Types.notionKey := js "Maturité – Adoption techno";
  Types.options := Some [
    js "Nous sommes très averses au risque et lents à adopter les nouvelles technologies.";
    js "Nous expérimentons les nouvelles technologies à petite échelle et de manière informelle.";
    js "Nous avons un processus formel pour piloter et adopter les nouvelles technologies.";
    js "Notre R&D est très active en technologies de pointe. Objectif: obtenir un avantage concurrentiel"
  ];
  Types.maxItems := None;
  Types.triggerAutre := None;
  Types.autreKey := None;
|}.

Definition q05 : Question := {|
  Types.id := js "q05";
  Types.label :=
    js "Comment les projets d'IA sont-ils gouvernés et priorisés dans votre organisation ?";
  Types.type := SELECT;
  Types.notionKey := js "Maturité – Gouvernance";
  Types.options := Some [
    js "Il n'y a pas de processus formel de gouvernance ou de priorisation.";
    js "Les projets sont menés par des départements individuels avec peu de supervision centrale.";
    js "Nous avons un comité interfonctionnel qui examine et priorise les initiatives d'IA.";
    js "Nous avons une gouvernance IA solide intégrant ROI mesurable éthique et stratégie"
  ];
  Types.maxItems := None;
  Types.triggerAutre := None;
  Types.autreKey := None;
|}.

Definition q06 : Question := {|
  Types.id := js "q06";
  Types.label :=
    js "Quelle est votre position dans l'entreprise ?";
  Types.type := SELECT;
  Types.notionKey := js "Statut Répondant - Position";
  Types.options := Some [
    js "Dirigeant / cadre dirigeant / visionnaire décisionnaire";
    js "Responsable opérationnel (cadre dirigeant opérationnel)";
    js "Collaborateur / expert technique";
    js "Autre"
  ];
  Types.maxItems := None;
  Types.triggerAutre := Some (js "Autre");
  Types.autreKey := Some (js "Statut Répondant – Autre");
|}.

Definition q07 : Question := {|
  Types.id := js "q07";
  Types.label :=
    js "Dans quel service ou département travaillez-vous ?";
  Types.type := SELECT;
  Types.notionKey := js "Service-dépt Rep";
  Types.options := Some [
    js "Direction Générale";
    js "Direction Financière / Comptable";
    js "Direction Commerciale / Ventes";
    js "Direction Marketing / Communication";
    js "Direction Produit / Innovation";
    js "Direction des Opérations / Logistique";
    js "Direction des Ressources Humaines";
    js "Direction Informatique / Systèmes d'Information";
    js "Autre"
  ];
  Types.maxItems := None;
  Types.triggerAutre := Some (js "Autre");
  Types.autreKey := Some (js "Service-dépt Rep Autre");
|}.

Definition q08 : Question := {|
  Types.id := js "q08";
  Types.label :=
    js "Quel est l'intitulé exact de votre poste ?";
  Types.type := SELECT;
  Types.notionKey := js "Intitulé poste Rep";
  Types.options := Some [
    js "Président / CEO / Directeur Général";
    js "Directeur Financier (CFO)";
    js "Directeur des Opérations (COO)";
    js "Directeur Technique / CTO / DSI";
    js "Directeur Marketing / CMO";
    js "Directeur Commercial / Responsable des Ventes";
    js "Responsable Produit / Chef de Produit";
    js "Responsable Logistique / Supply Chain";
    js "Responsable des Ressources Humaines";
    js "Responsable ADV / Administration des Ventes";
    js "Autre"
  ];
  Types.maxItems := None;
  Types.triggerAutre := Some (js "Autre");
  Types.autreKey := Some (js "Intitulé poste Rep-Autre");
|}.

Definition q09 : Question := {|
  Types.id := js "q09";
  Types.label :=
    js "Quel est le secteur d'activité principal de votre entreprise ?";
  Types.type := SELECT;
  Types.notionKey := js "Secteur activité";
  Types.options := Some [
    js "Agriculture-sylviculture-pêche";
    js "Industries extractives";
    js "Industrie manufacturière";
    js "Production-distribution énergie";
    js "Production-distribution eau-gestion déchets";
    js "Construction";
    js "Commerce réparation automobiles-moto";
    js "Transports-entreposage";
    js "Hébergement-restauration";
    js "Information-communication";
    js "Finance-banque-assurance";
    js "Immobilier";
    js "Science-technique";
    js "Service administratif-soutien";
    js "Administration publique";
    js "Enseignement";
    js "Santé-action sociale";
    js "Art-spectacle-activité_récréative";
    js "Autres activités de services";
    js "Autre"
  ];
  Types.maxItems := None;
  Types.triggerAutre := Some (js "Autre");
  Types.autreKey := Some (js "Secteur activité-Autre");
|}.

Definition q10 : Question := {|
  Types.id := js "q10";
  Types.label :=
    js "Quel est le sous-secteur niche principal ?";
  Types.type := SELECT;
  Types.notionKey := js "Sous-secteur niche";
  Types.options := Some [
    js "Agro-alimentaire";
    js "Santé/Biotech";
    js "Industrie Automobile";
    js "Conseil Stratégique";
    js "Aéronautique";
    js "IT/SaaS";
    js "Finance/Assurance";
    js "Énergie";
    js "Éducation";
    js "Retail / E-commerce";
    js "Autre"
  ];
  Types.maxItems := None;
  Types.triggerAutre := Some (js "Autre");
  Types.autreKey := Some (js "Sous-secteur-Autre");
|}.

Definition q11 : Question := {|
  Types.id := js "q11";
  Types.label :=
    js "Quel est l'effectif total de votre entreprise ?";
  Types.type := SELECT;
  Types.notionKey := js "Nbr employés";
  Types.options := Some [
    js "<50";
    js "50-250";
    js "250-500";
    js "500-1000";
    js ">1000"
  ];
  Types.maxItems := None;
  Types.triggerAutre := None;
  Types.autreKey := None;
|}.

Definition q12 : Question := {|
  Types.id := js "q12";
  Types.label :=
    js "Quelle est votre tranche de chiffre d'affaires ?";
  Types.type := SELECT;
  Types.notionKey := js "CA";
  Types.options := Some [
    js "<1 M€";
    js "1-5 M€";
    js "5-20 M€";
    js "20-50 M€";
    js ">50 M€"
  ];
  Types.maxItems := None;
  Types.triggerAutre := None;
  Types.autreKey := None;
|}.

Definition q13 : Question := {|
  Types.id := js "q13";
  Types.label :=
    js "Quel type d'offres proposez-vous ? Plutôt des Produits physiques, des Services ou un mix des deux ?";
  Types.type := SELECT;
  Types.notionKey := js "Type offres";
  Types.options := Some [
    js "Produits physiques";
    js "Services";
    js "Produits + services";
    js "Solutions sur-mesure / projets";
    js "Autre"
  ];
  Types.maxItems := None;
  Types.triggerAutre := Some (js "Autre");
  Types.autreKey := Some (js "Type offres-Autre");
|}.

Definition q14 : Question := {|
  Types.id := js "q14";
  Types.label :=
    js "Pour vos offres, ciblez-vous plutôt le BtoB, les entreprises ou le BtoC, les personnes privées, ou les deux ?";
  Types.type := SELECT;
  Types.notionKey := js "BtoB-BtoC";
  Types.options := Some [
    js "BtoB";
    js "BtoC";
    js "BtoB + BtoC"
  ];
  Types.maxItems := None;
  Types.triggerAutre := None;
  Types.autreKey := None;
|}.

Definition q15 : Question := {|
  Types.id := js "q15";
  Types.label :=
    js "Combien d'entités sont concernées par cet audit ?";
  Types.type := SELECT;
  Types.notionKey := js "Nbr Entités";
  Types.options := Some [
    js "1: entité principale";
    js "2: entité principale + 1 filiale";
    js "3: entité principale + 2 filiales";
    js "4 ou plus";
    js "Autre"
  ];
  Types.maxItems := None;
  Types.triggerAutre := Some (js "Autre");
  Types.autreKey := Some (js "Nbr Entités-Autre");
|}.

Definition q16 : Question := {|
  Types.id := js "q16";
  Types.label :=
    js "Sur quel marché géographique intervenez-vous ?";
  Types.type := SELECT;
  Types.notionKey := js "Marché desservi";
  Types.options := Some [
    js "Local / Régional";
    js "National";
    js "International";
    js "Autre"
  ];
  Types.maxItems := None;
  Types.triggerAutre := Some (js "Autre");
  Types.autreKey := Some (js "Marché desservi – Autre");
|}.

Definition q17 : Question := {|
  Types.id := js "q17";
  Types.label :=
    js "Quels sont vos objectifs principaux en matière d'IA et numérique ?";
  Types.type := MULTI_SELECT;
  Types.notionKey := js "Objectifs IA-Digital";
  Types.options := Some [
    js "Concevoir une application interne d’optimisation du cycle de vente.";
    js "Mettre en place un tableau de bord automatisé pour piloter la performance.";
    js "Créer un assistant IA pour automatiser les tâches administratives.";
    js "Développer une solution de recommandation personnalisée (produits ou contenus).";
    js "Automatiser la détection d’anomalies dans les données ou la production.";
    js "Optimiser la maintenance prédictive des équipements.";
    js "Assistance à la stratégie de l'entreprise : commercial";
    js "Assistance à la stratégie de l'entreprise : innovation";
    js "Assistance à la stratégie de l'entreprise : finance-fiscalité";
    js "Assistance à la stratégie de l'entreprise : management";
    js "Autre"
  ];
  Types.maxItems := Some 7%nat;
  Types.triggerAutre := Some (js "Autre");
  Types.autreKey := Some (js "Objectifs IA-Digital-Autre");
|}.

Definition q18 : Question := {|
  Types.id := js "q18";
  Types.label :=
    js "Quels sont vos principaux défis ?";
  Types.type := MULTI_SELECT;
  Types.notionKey := js "Défis prioritaires (max 3)";
  Types.options := Some [
    js "Définir ou actualiser la stratégie IA et Data";
    js "Automatiser des processus internes / améliorer la productivité";
    js "Améliorer la croissance commerciale / différenciation concurrentielle";
    js "Mieux exploiter / valoriser les données (data management)";
    js "Optimiser la marge et les coûts";
    js "Renforcer la satisfaction client et l’expérience utilisateur";
    js "Gouvernance et conformité (RGPD AI Act éthique)";
    js "Recruter et développer les compétences IA/numériques";
    js "Autre"
  ];
  Types.maxItems := Some 3%nat;
  Types.triggerAutre := Some (js "Autre");
  Types.autreKey := Some (js "Défis – Autre");
|}.

Definition q19 : Question := {|
  Types.id := js "q19";
  Types.label :=
    js "Quelles sont vos attentes vis-à-vis de l'IA et du Digital ?";
  Types.type := MULTI_SELECT;
  Types.notionKey := js "Attentes IA-Digital";
  Types.options := Some [
    js "Obtenir une proposition de valeur actualisée grâce à l’IA";
    js "Bénéficier d’une approche stratégique et d’une feuille de route";
    js "Mettre en place une approche opérationnelle (automatisation process)";
    js "Gagner en productivité / gagner du temps";
    js "Restaurer ou augmenter les marges";
    js "Autre"
  ];
  Types.maxItems := Some 5%nat;
  Types.triggerAutre := Some (js "Autre");
  Types.autreKey := Some (js "Attentes IA-Digital-Autre");
|}.

Definition q20 : Question := {|
  Types.id := js "q20";
  Types.label :=
    js "Quel est votre e-mail professionnel ?";
  Types.type := STRING;
  Types.notionKey := js "e-mail répondant";
  Types.options := None;
  Types.maxItems := None;
  Types.triggerAutre := None;
  Types.autreKey := None;
|}.

Definition q21 : Question := {|
  Types.id := js "q21";
  Types.label :=
    js "Acceptez-vous que Memo5D conserve ces données conformément aux CGU et à la politique RGPD ?";
  Types.type := BOOL;
  Types.notionKey := js "Consentement RGPD (Oui/Non)";
  Types.options := None;
  Types.maxItems := None;
  Types.triggerAutre := None;
  Types.autreKey := None;
|}.

Definition QUESTIONS : list Question :=
  [q01; q02; q03; q04; q05; q06; q07; q08; q09; q10; q11; q12; q13; q14; q15; q16; q17; q18; q19; q20; q21].

Definition SOURCE_TAG : jsstring := js "Form-AMAI-GAIS-251017".

(** [NORMALIZATION_FALLBACKS_BY_NOTION_KEY] is the empty record. *)
Definition NORMALIZATION_FALLBACKS_BY_NOTION_KEY : gmap jsstring jsstring := ∅.

(** ** Stage B: the guaranteed payload (buildGuaranteedPayload) *)

(** [phrase "a b c"] is the pattern [a\s+b\s+c]. *)
Definition phrase (s : string) : regex :=
  seqs (match List.map Lit (split_char 32 (js s)) with
        | [] => []
        | x :: r => x :: List.flat_map (λ y, [ws1; y]) r
        end).

Definition Qgt_bool (a b : Q) : bool := negb (Qle_bool a b).

(** Keyword patterns of the maturity heuristic (step 4 of ensureSelect). *)
Module SelectPatterns.
Definition all_digits : regex := seqs [Bol; Rep is_digit 1 None; Eol].
Definition qid_q01_q05 : regex :=
  seqs [Bol; LitI (js "q0"); Class (in_range 49 53); Eol].
Definition nk_maturity : regex :=
  seqs [LitI (js "Maturité"); ws0; LitI (js "–"); ws0;
        alts [LitI (js "Stratégie"); LitI (js "Données"); LitI (js "Process");
              LitI (js "Gouvernance"); LitI (js "Compétences")]].
Definition exploration : regex :=
  words [w "explore"; w "exploration"; w "test"; w "pilote"; w "poc";
         w "debut"; w "commence"].
Definition no_strategy : regex :=
  words [phrase "pas de strategie"; phrase "aucun cadre";
         phrase "rien de structure"].
Definition projects : regex :=
  words [w "projet"; phrase "cas d usage"; phrase "use case";
         w "ponctuel"; w "quelques"].
Definition not_extended : regex :=
  words [phrase "non etendu"; phrase "pas generalise";
         phrase "pas a l echelle"].
Definition deployment : regex :=
  words [w "entreprise"; w "global"; w "transverse"; w "deploi";
         phrase "mise en place"; phrase "en cours"].
Definition structured : regex :=
  words [w "structure"; w "formalise"; phrase "strategie claire"].
Definition integrated : regex :=
  words [w "integre"; w "integration"; w "aligne"; w "commercial";
         w "innovation"; w "avantage"; w "competitif"].
Definition stimulates : regex :=
  words [w "stimule"; w "accelere"; w "transforme"].
Definition nk_data : regex := alts [LitI (js "Donnees"); LitI (js "Données")].
Definition data_structured : regex :=
  words [w "structure"; w "consolide"; w "centralise"; w "plateforme";
         w "gouvernance"].
Definition data_siloed : regex := words [w "cloisonne"; w "inaccessible"].
End SelectPatterns.

(** Patterns of ensureMultiSelect: index forms and the keyword scoring of
    the free text of Q17 to Q19. *)
Module MultiPatterns.
Definition leading_index : regex :=                      (* /^(\d{1,2})\b/ *)
  seqs [Bol; Rep is_digit 1 (Some 2%nat); WordB].
Definition numbered_prefix : regex :=            (* /^\d+\s*[.)-]\s*/ *)
  seqs [Bol; Rep is_digit 1 None; ws0; Class is_item_mark; ws0].
Definition qid_q17_q19 : regex :=
  alts [LitI (js "q17"); LitI (js "q18"); LitI (js "q19")].
Definition nk_q17_q19 : regex :=
  alts [LitI (js "Objectifs IA-Digital"); LitI (js "Défis prioritaires");
        LitI (js "Attentes IA-Digital")].
Definition nk_objectifs : regex := LitI (js "Objectifs IA-Digital").
Definition nk_defis : regex := LitI (js "Défis prioritaires").
Definition nk_attentes : regex := LitI (js "Attentes IA-Digital").
Definition qid_q17 : regex := LitI (js "q17").
Definition qid_q18 : regex := LitI (js "q18").
Definition qid_q19 : regex := LitI (js "q19").

(** Q17, one pattern per option. *)
Definition obj_sales : regex :=
  words [w "cycle de vente"; w "vente"; w "crm"; w "prospection";
         w "pipeline"; w "commercial"].
Definition obj_dashboard : regex :=
  words [w "tableau de bord"; w "dashboard"; w "kpi"; w "reporting";
         w "pilotage"].
Definition obj_assistant : regex :=
  words [w "assistant"; w "automatiser"; w "administratif"; w "factur";
         w "compta"; w "rh"].
Definition obj_recommend : regex :=
  words [w "recommandation"; w "personnalis"; w "produit"; w "contenu"].
Definition obj_anomaly : regex :=
  words [w "anomalie"; w "qualite"; w "defaut"; w "controle"; w "production"].
Definition obj_maintenance : regex :=
  words [w "maintenance"; w "predict"; w "equipement"; w "panne"].
Definition obj_strategy : regex := words [w "strategie"].
Definition obj_commercial : regex := words [w "commercial"].
Definition obj_innovation : regex := words [w "innovation"].
Definition obj_finance : regex := words [w "finance"; w "fiscal"].
Definition obj_management : regex := words [w "management"; w "organisation"].

(** Q18 *)
Definition def_strategy : regex := words [w "strategie"; w "data"].
Definition def_process : regex :=
  words [w "process"; w "productiv"; w "automatis"].
Definition def_growth : regex :=
  words [w "croissance"; w "commercial"; w "differenci"; w "concurr"].
Definition def_data : regex :=
  words [w "donnees"; w "valoris"; w "data management"; w "qualite"].
Definition def_margin : regex := words [w "marge"; w "cout"].
Definition def_customer : regex :=
  words [w "satisfaction"; w "client"; w "experience"].
Definition def_compliance : regex :=
  words [w "rgpd"; w "ai act"; w "ethique"; w "conform"].
Definition def_skills : regex :=
  words [w "recrut"; w "competenc"; w "formation"; w "skill"].

(** Q19 *)
Definition att_value : regex := words [w "proposition de valeur"; w "valeur"].
Definition att_roadmap : regex :=
  words [w "feuille de route"; w "roadmap"; w "strateg"].
Definition att_operational : regex :=
  words [w "operationnel"; w "automatis"; w "process"].
Definition att_productivity : regex :=
  words [w "productiv"; w "temps"; w "gagner du temps"].
Definition att_margin : regex := words [w "marge"].
End MultiPatterns.

Section Engine.
Context `{RT : JsRuntime}.

Definition getAllowed (q : Question) : list jsstring :=
  default [] (Types.options q).

(** Truthiness of an optional string property. *)
Definition prop_truthy (o : option jsstring) : bool :=
  match o with Some s => nonempty s | None => false end.

Definition hasAutre (q : Question) : bool :=
  let opts := getAllowed q in
  prop_truthy (Types.autreKey q)
  && (if prop_truthy (Types.triggerAutre q)
      then includes opts (default [] (Types.triggerAutre q))
      else includes opts (js "Autre")).

Definition autreLabel (q : Question) : jsstring :=
  if prop_truthy (Types.triggerAutre q)
  then default [] (Types.triggerAutre q)
  else js "Autre".

(** [opts[i]], with [''] where the source writes [opts[0] ?? '']; every
    other use is guarded to be in range. *)
Definition opt_at (opts : list jsstring) (i : nat) : jsstring :=
  default [] (opts !! i).

(** Schema entries carry no [questionId] property. *)
Definition questionId (q : Question) : option jsstring := None.

(** [if (q.autreKey && !base[q.autreKey]) base[q.autreKey] = text] *)
Definition store_autre (q : Question) (text : jsstring)
    (base : gmap jsstring JsValue) : gmap jsstring JsValue :=
  match Types.autreKey q with
  | Some k =>
    if nonempty k && negb (truthy (getprop base k))
    then <[k := JStr text]> base else base
  | None => base
  end.

(** *** ensureSelect *)

Definition ensureSelect_norm (s : jsstring) : jsstring :=
  trim
    (replace_runs (λ c, negb (is_lower_alnum c)) (js " ")
      (replace_chars is_apostrophe (js "'")
        (replace_chars is_combining []
          (normalizeNFD (toLowerCase s))))).

(** [new Map(opts.map(o => [norm(o), o]))]: a later option replaces an
    earlier one with the same normal form. *)
Definition optByNorm (opts : list jsstring) : gmap jsstring jsstring :=
  fold_left (λ m o, <[ensureSelect_norm o := o]> m) opts ∅.

Definition add (i w : nat) (scores : list nat) : list nat :=
  alter (λ x, x + w)%nat i scores.

(** A sequence of statements [if (cond) update;]. *)
Definition run_rules {A} (rules : list (bool * (A → A))) (x : A) : A :=
  fold_left (λ acc (r : bool * (A → A)), if r.1 then r.2 acc else acc) rules x.

Definition isQ01toQ05 (q : Question) : bool :=
  let qid := default (Types.id q) (questionId q) in
  let nk := Types.notionKey q in
  test canonicalize SelectPatterns.qid_q01_q05 qid
  || test canonicalize SelectPatterns.nk_maturity nk.

Definition scoreByIndex (q : Question) (v : jsstring) : list nat :=
  let hit r := test canonicalize r v in
  let nk := Types.notionKey q in
  run_rules
    [ (hit SelectPatterns.exploration, add 0 2);
      (hit SelectPatterns.no_strategy, add 0 3);
      (hit SelectPatterns.projects, add 1 2);
      (hit SelectPatterns.not_extended, add 1 2);
      (hit SelectPatterns.deployment, add 2 2);
      (hit SelectPatterns.structured, add 2 2);
      (hit SelectPatterns.integrated, add 3 2);
      (hit SelectPatterns.stimulates, add 3 1);
      (test canonicalize SelectPatterns.nk_data nk
       && hit SelectPatterns.data_structured, add 2 3);
      (test canonicalize SelectPatterns.nk_data nk
       && hit SelectPatterns.data_siloed, add 0 3) ]%nat
    [0; 0; 0; 0]%nat.

Definition score_at (scores : list nat) (i : nat) : nat := nth i scores 0%nat.

(** [let bestIdx = 0; for (i = 1; i < 4; i++) if (s[i] > s[bestIdx]) bestIdx = i] *)
Definition bestIdx (scores : list nat) : nat :=
  fold_left
    (λ best i, if Nat.ltb (score_at scores best) (score_at scores i)
               then i else best)
    [1; 2; 3]%nat 0%nat.

Definition maxScore (scores : list nat) : nat := fold_right Nat.max 0%nat scores.

(** Step 4: the option of the best-scoring bucket, when some score is
    positive. *)
Definition maturity_heuristic (q : Question) (v : jsstring)
  : option jsstring :=
  let opts := getAllowed q in
  if isQ01toQ05 q && Nat.leb 4 (length opts) then
    let scores := scoreByIndex q v in
    if Nat.ltb 0 (maxScore scores) then Some (opt_at opts (bestIdx scores))
    else None
  else None.

(** [new Set(s.split(' ').filter(Boolean))] *)
Definition token_set (s : jsstring) : gset jsstring :=
  list_to_set (List.filter nonempty (split_char 32 s)).

Definition overlap (tokens : gset jsstring) (o : jsstring) : Q :=
  let ot := token_set (ensureSelect_norm o) in
  let inter := size (tokens ∩ ot) in
  let union := (size tokens + size ot - inter)%nat in
  if Nat.eqb union 0 then 0%Q
  else (Z.of_nat inter # Pos.of_nat union)%Q.

(** Step 7: the option with the largest token-overlap ratio, the first one
    among equals. *)
Definition closest (v : jsstring) (opts : list jsstring) : jsstring :=
  let tokens := token_set v in
  fst (fold_left
         (λ '(best, bestScore) o,
            let sc := overlap tokens o in
            if Qgt_bool sc bestScore then (o, sc) else (best, bestScore))
         opts (opt_at opts 0, (-1)%Q)).

Definition index_shorthand (opts : list jsstring) (vRaw : jsstring)
  : option jsstring :=
  if test canonicalize SelectPatterns.all_digits vRaw then
    let idx := parseInt vRaw in
    if (1 <=? idx) && (idx <=? N.of_nat (length opts))
    then Some (opt_at opts (N.to_nat idx - 1)) else None
  else None.

Definition ensureSelect (q : Question) (value : JsValue)
    (base : gmap jsstring JsValue) : jsstring * gmap jsstring JsValue :=
  let opts := getAllowed q in
  let vRaw := trim (toString (coalesce value (JStr []))) in
  if negb (nonempty vRaw) then
    (if hasAutre q then autreLabel q else opt_at opts 0, base)
  else if includes opts vRaw then (vRaw, base)
  else match index_shorthand opts vRaw with
  | Some o => (o, base)
  | None =>
  let v := ensureSelect_norm vRaw in
  match optByNorm opts !! v with
  | Some o => (o, base)
  | None =>
  match maturity_heuristic q v with
  | Some o => (o, base)
  | None =>
  if hasAutre q then (autreLabel q, store_autre q vRaw base)
  else
    match NORMALIZATION_FALLBACKS_BY_NOTION_KEY !! Types.notionKey q with
    | Some fb =>
      if nonempty fb && includes opts fb then (fb, base)
      else (closest v opts, base)
    | None => (closest v opts, base)
    end
  end end end.

(** *** ensureMultiSelect *)

Definition ensureMultiSelect_norm (s : jsstring) : jsstring :=
  trim
    (replace_runs (λ c, negb (is_lower_alnum c)) (js " ")
      (replace_chars is_apostrophe []
        (replace_chars is_combining []
          (normalizeNFD (toLowerCase s))))).

(** [if (v && !arr.includes(v)) arr.push(v)] *)
Definition pushUnique (arr : list jsstring) (v : jsstring) : list jsstring :=
  if nonempty v && negb (includes arr v) then arr ++ [v] else arr.

Definition parseTokens (v : JsValue) : list jsstring :=
  match v with
  | JArr l =>
    List.filter nonempty
      (List.map (λ x, trim (toString (coalesce x (JStr [])))) l)
  | JStr s =>
    List.filter nonempty (List.map trim (split_runs is_list_sep s))
  | _ => []
  end.

Definition tokenToOptionByIndex (opts : list jsstring) (t : jsstring)
  : option jsstring :=
  match exec canonicalize MultiPatterns.leading_index t with
  | None => None
  | Some m1 =>
    let idx := parseInt m1 in
    if (idx <? 1) || (N.of_nat (length opts) <? idx) then None
    else Some (opt_at opts (N.to_nat idx - 1))
  end.

(** [t.replace(/^\d+\s*[.)-]\s*/g, '')]: the pattern is anchored, so at most
    the match at the start is removed. *)
Definition strip_numbered_prefix (t : jsstring) : jsstring :=
  match match_here canonicalize MultiPatterns.numbered_prefix None t with
  | Some rest => rest
  | None => t
  end.

(** The body of the loop over the raw tokens: an index form first, then the
    exact label, then the label behind a numbered prefix. *)
Definition select_literal (opts : list jsstring) (selected : list jsstring)
    (t : jsstring) : list jsstring :=
  if includes opts t then pushUnique selected t
  else
    let t2 := trim (strip_numbered_prefix t) in
    if includes opts t2 then pushUnique selected t2 else selected.

Definition select_token (opts : list jsstring) (selected : list jsstring)
    (t : jsstring) : list jsstring :=
  match tokenToOptionByIndex opts t with
  | Some byIndex =>
    if nonempty byIndex then pushUnique selected byIndex
    else select_literal opts selected t
  | None => select_literal opts selected t
  end.

Definition isQ17toQ19 (q : Question) : bool :=
  let qid := default [] (questionId q) in
  test canonicalize MultiPatterns.qid_q17_q19 qid
  || test canonicalize MultiPatterns.nk_q17_q19 (Types.notionKey q).

Definition scored (q : Question) (t : jsstring) : list nat :=
  let hit r := test canonicalize r t in
  let nk := Types.notionKey q in
  let qid := default [] (questionId q) in
  let is17 := test canonicalize MultiPatterns.nk_objectifs nk
              || test canonicalize MultiPatterns.qid_q17 qid in
  let is18 := test canonicalize MultiPatterns.nk_defis nk
              || test canonicalize MultiPatterns.qid_q18 qid in
  let is19 := test canonicalize MultiPatterns.nk_attentes nk
              || test canonicalize MultiPatterns.qid_q19 qid in
  let strat := hit MultiPatterns.obj_strategy in
  run_rules
    [ (is17 && hit MultiPatterns.obj_sales, add 0 3);
      (is17 && hit MultiPatterns.obj_dashboard, add 1 3);
      (is17 && hit MultiPatterns.obj_assistant, add 2 3);
      (is17 && hit MultiPatterns.obj_recommend, add 3 3);
      (is17 && hit MultiPatterns.obj_anomaly, add 4 3);
      (is17 && hit MultiPatterns.obj_maintenance, add 5 3);
      (is17 && strat && hit MultiPatterns.obj_commercial, add 6 2);
      (is17 && strat && hit MultiPatterns.obj_innovation, add 7 2);
      (is17 && strat && hit MultiPatterns.obj_finance, add 8 2);
      (is17 && strat && hit MultiPatterns.obj_management, add 9 2);
      (is18 && hit MultiPatterns.def_strategy, add 0 3);
      (is18 && hit MultiPatterns.def_process, add 1 3);
      (is18 && hit MultiPatterns.def_growth, add 2 3);
      (is18 && hit MultiPatterns.def_data, add 3 3);
      (is18 && hit MultiPatterns.def_margin, add 4 3);
      (is18 && hit MultiPatterns.def_customer, add 5 3);
      (is18 && hit MultiPatterns.def_compliance, add 6 3);
      (is18 && hit MultiPatterns.def_skills, add 7 3);
      (is19 && hit MultiPatterns.att_value, add 0 3);
      (is19 && hit MultiPatterns.att_roadmap, add 1 3);
      (is19 && hit MultiPatterns.att_operational, add 2 3);
      (is19 && hit MultiPatterns.att_productivity, add 3 3);
      (is19 && hit MultiPatterns.att_margin, add 4 3) ]%nat
    (replicate (length (getAllowed q)) 0%nat).

(** [Array.prototype.sort((a, b) => b.score - a.score)]: stable, by
    decreasing score. *)
Fixpoint insert_desc (x : nat * nat) (l : list (nat * nat))
  : list (nat * nat) :=
  match l with
  | [] => [x]
  | y :: l' =>
    if Nat.ltb y.2 x.2 then x :: l else y :: insert_desc x l'
  end.
Definition sort_desc (l : list (nat * nat)) : list (nat * nat) :=
  fold_left (λ acc x, insert_desc x acc) l [].

Definition ranked (opts : list jsstring) (maxItems : nat)
    (scores : list nat) : list jsstring :=
  List.map (λ x : nat * nat, opt_at opts x.1)
    (take maxItems
       (sort_desc
          (List.filter (λ x : nat * nat, Nat.ltb 0 x.2)
             (imap (λ idx score, (idx, score)) scores)))).

(** [q.maxItems || opts.length] *)
Definition effective_maxItems (q : Question) : nat :=
  match Types.maxItems q with
  | Some (S n) => S n
  | _ => length (getAllowed q)
  end.

(** The free text the scoring reads: the stored escape text when it is a
    non-blank string, otherwise the value itself when it is a string. *)
Definition autreText (q : Question) (value : JsValue)
    (base : gmap jsstring JsValue) : jsstring :=
  let of_value := match value with JStr s => trim s | _ => [] end in
  match Types.autreKey q with
  | Some k =>
    if nonempty k then
      match getprop base k with
      | JStr s => if nonempty (trim s) then trim s else of_value
      | _ => of_value
      end
    else of_value
  | None => of_value
  end.

(** [String(autreText || value || '').trim()] *)
Definition autre_fallback_text (text : jsstring) (value : JsValue) : jsstring :=
  trim (if nonempty text then text
        else toString (js_or value (JStr []))).

Definition store_autre_multi (q : Question) (text : jsstring)
    (value : JsValue) (base : gmap jsstring JsValue)
  : gmap jsstring JsValue :=
  match Types.autreKey q with
  | Some k =>
    if nonempty k && negb (truthy (getprop base k))
    then <[k := JStr (autre_fallback_text text value)]> base else base
  | None => base
  end.

Definition ensureMultiSelect (q : Question) (value : JsValue)
    (base : gmap jsstring JsValue)
  : list jsstring * gmap jsstring JsValue :=
  let opts := getAllowed q in
  let maxItems := effective_maxItems q in
  let rawTokens := parseTokens value in
  let selected := fold_left (select_token opts) rawTokens [] in
  if Nat.ltb 0 (length selected) then (take maxItems selected, base)
  else
    let text := autreText q value base in
    let r := if isQ17toQ19 q && nonempty text
             then ranked opts maxItems (scored q (ensureMultiSelect_norm text))
             else [] in
    if Nat.ltb 0 (length r) then (r, base)
    else if hasAutre q
    then ([autreLabel q], store_autre_multi q text value base)
    else ([], base).

(** *** ensureBool *)

Definition affirmative : list jsstring :=
  [js "true"; js "oui"; js "ok"; js "accord"; js "yes"; js "j'accepte";
   js "accepte"].

Definition ensureBool (value : JsValue) : bool :=
  match value with
  | JBool b => b
  | _ =>
    includes affirmative (trim (toLowerCase (toString (coalesce value (JStr [])))))
  end.

(** *** The enforcement loop and the metadata *)

Definition enforce (base : gmap jsstring JsValue) (q : Question)
  : gmap jsstring JsValue :=
  let k := Types.notionKey q in
  let current := getprop base k in
  match Types.type q with
  | MULTI_SELECT =>
    let r := ensureMultiSelect q current base in
    <[k := JArr (List.map JStr r.1)]> r.2
  | BOOL => <[k := JBool (ensureBool current)]> base
  | SELECT =>
    let r := ensureSelect q current base in
    <[k := JStr r.1]> r.2
  | STRING =>
    if nullish (getprop base k) then <[k := JStr []]> base else base
  end.

(** What the function reads from its surroundings: the current session id
    and the clock. *)
Record Ambient := {
  currentSessionIdRef : option jsstring;
  nowISO : jsstring;
}.

Record TranscriptEntry := { role : jsstring; text : jsstring }.

Definition contains_char (c : N) (s : jsstring) : bool :=
  existsb (N.eqb c) s.

Definition key_session_id := js "session_id".
Definition key_source := js "source".
Definition key_date := js "Date soumission".
Definition key_date_quoted := js "'Date soumission'".
Definition key_executionMode := js "executionMode".
Definition key_nom := js "Nom soumission".
Definition key_email := js "e-mail répondant".

Definition derive_name (base : gmap jsstring JsValue)
  : gmap jsstring JsValue :=
  match getprop base key_email with
  | JStr email =>
    if negb (truthy (getprop base key_nom)) && contains_char 64 email
    then <[key_nom := JStr (opt_at (split_char 64 email) 0)]> base
    else base
  | _ => base
  end.

Definition attach_metadata (env : Ambient) (base : gmap jsstring JsValue)
  : gmap jsstring JsValue :=
  let base :=
    <[key_session_id :=
        match currentSessionIdRef env with
        | Some i => JStr i
        | None => JNull
        end]> base in
  let base := <[key_source := JStr SOURCE_TAG]> base in
  let base :=
    <[key_date := js_or (getprop base key_date) (JStr (nowISO env))]> base in
  let base :=
    <[key_date_quoted :=
        js_or (getprop base key_date_quoted) (getprop base key_date)]> base in
  let base :=
    <[key_executionMode :=
        js_or (getprop base key_executionMode)
              (JStr (js "production_guarded"))]> base in
  derive_name base.

Definition buildGuaranteedPayload (env : Ambient)
    (rawData : gmap jsstring JsValue) (transcript : list TranscriptEntry)
    (candidate : option (gmap jsstring JsValue)) : gmap jsstring JsValue :=
  let base := default ∅ candidate ∪ rawData in
  attach_metadata env (fold_left enforce QUESTIONS base).

End Engine.

(** ** A concrete runtime: Basic Latin and Latin-1

    The Unicode tables restricted to U+0000..U+00FF.  Code units outside
    that block are left unchanged, which is what the real tables do for
    every unit that is caseless or lower case and has no canonical
    decomposition (dashes, typographic quotes, the ligature of "oeuvre",
    the euro sign: all the non-Latin-1 characters of the catalogue).
    Numbers are the integers, rendered in decimal. *)

Module Latin1.

Definition lower_unit (c : N) : N :=
  if in_range 65 90 c || (in_range 192 222 c && negb (c =? 215))
  then c + 32 else c.

Definition upper_unit (c : N) : N :=
  if in_range 97 122 c || (in_range 224 254 c && negb (c =? 247))
  then c - 32
  else if c =? 255 then 376
  else if c =? 181 then 924
  else c.

(** Canonical decompositions of the capital letters: base letter and
    combining mark.  The small letters decompose alike, 32 further. *)
Definition capital_decompositions : list (N * (N * N)) :=
  [ (192, (65, 768)); (193, (65, 769)); (194, (65, 770)); (195, (65, 771));
    (196, (65, 776)); (197, (65, 778)); (199, (67, 807));
    (200, (69, 768)); (201, (69, 769)); (202, (69, 770)); (203, (69, 776));
    (204, (73, 768)); (205, (73, 769)); (206, (73, 770)); (207, (73, 776));
    (209, (78, 771));
    (210, (79, 768)); (211, (79, 769)); (212, (79, 770)); (213, (79, 771));
    (214, (79, 776));
    (217, (85, 768)); (218, (85, 769)); (219, (85, 770)); (220, (85, 776));
    (221, (89, 769)) ].

Definition assoc (c : N) (l : list (N * (N * N))) : option (N * N) :=
  snd <$> List.find (λ e : N * (N * N), e.1 =? c) l.

Definition nfd_unit (c : N) : list N :=
  match assoc c capital_decompositions with
  | Some (b, m) => [b; m]
  | None =>
    if c =? 255 then [121; 776]
    else if in_range 224 253 c then
      match assoc (c - 32) capital_decompositions with
      | Some (b, m) => [b + 32; m]
      | None => [c]
      end
    else [c]
  end.

Definition Z_toString (z : Z) : jsstring :=
  match z with
  | Z0 => [48]
  | Zpos p => decimal (Npos p)
  | Zneg p => 45 :: decimal (Npos p)
  end.

#[export] Instance runtime : JsRuntime := {|
  number := Z;
  number_toString := Z_toString;
  number_truthy z := negb (Z.eqb z 0);
  toLowerCase := List.map lower_unit;
  normalizeNFD := List.flat_map nfd_unit;
  canonicalize := upper_unit;
|}.

Definition num (z : Z) : JsValue := JNum (z : number).

End Latin1.

(** ** Sessions and the tool-call dispatcher *)

Module Store.
Record Session `{RT : JsRuntime} := {
  id : jsstring;
  createdAt : N;
  currentStep : nat;
  auditData : gmap jsstring JsValue;
  transcript : list TranscriptEntry;
  isFinished : bool;
  consecutiveErrors : nat;
}.
End Store.
Export Store(Session).

(** Arguments of a [record_answer] call; an absent property is
    [JUndefined]. *)
Record RecordAnswerArgs `{RT : JsRuntime} := {
  arg_questionId : JsValue;
  arg_value : JsValue;
  arg_multiValues : JsValue;
  arg_autreValue : JsValue;
}.

Module App.
Section App.
Context `{RT : JsRuntime}.

(** The component state the dispatcher touches.  [sessions] is the React
    state, as the updaters queued by [setSessions] leave it; [sessionsRef]
    is [sessionsRef.current], which an effect sets to [sessions] after a
    render and which the handlers read.  [currentSessionIdRef] stands for
    the reference and for the state it mirrors: createNewSession sets both
    at once.  [submitted] logs the calls of submitToWebhook, each with the
    raw data it was given. *)
Record State := {
  sessions : list Session;
  sessionsRef : list Session;
  currentSessionIdRef : option jsstring;
  isPendingFinalSpeechRef : bool;
  submitted : list (gmap jsstring JsValue);
}.

(** [QUESTIONS.findIndex(q => q.id === questionId)] *)
Definition id_matches (questionId : JsValue) (q : Question) : bool :=
  match questionId with
  | JStr s => str_eqb (Types.id q) s
  | _ => false
  end.

Fixpoint findIndex_from {A} (p : A → bool) (l : list A) (i : nat)
  : option nat :=
  match l with
  | [] => None
  | x :: l' => if p x then Some i else findIndex_from p l' (S i)
  end.
Definition findIndex {A} (p : A → bool) (l : list A) : option nat :=
  findIndex_from p l 0.

Definition is_current (st : State) (s : Session) : bool :=
  bool_decide (Some (Store.id s) = currentSessionIdRef st).

(** [sessions.find(s => s.id === currentSessionId) || null], the value of
    the component's [currentSession]. *)
Definition currentSession (st : State) : option Session :=
  List.find (is_current st) (sessions st).

(** [sessionsRef.current.find(s => s.id === currentSessionIdRef.current)],
    what the handlers look up. *)
Definition currentSess (st : State) : option Session :=
  List.find (is_current st) (sessionsRef st).

(** A render of the component, followed by the effect
    [sessionsRef.current = sessions]. *)
Definition render (st : State) : State :=
  {| sessions := sessions st;
     sessionsRef := sessions st;
     currentSessionIdRef := currentSessionIdRef st;
     isPendingFinalSpeechRef := isPendingFinalSpeechRef st;
     submitted := submitted st |}.

Definition affirmative_tokens : list jsstring :=
  [js "true"; js "oui"; js "ok"; js "accord"; js "yes"].

(** The answer as stored for the question kind. *)
Definition stored_answer (q : Question) (args : RecordAnswerArgs) : JsValue :=
  match Types.type q with
  | MULTI_SELECT => js_or (arg_multiValues args) (JArr [])
  | BOOL =>
    JBool (includes affirmative_tokens
             (trim (toLowerCase (toString (arg_value args)))))
  | _ => arg_value args
  end.

Definition newData (q : Question) (args : RecordAnswerArgs)
    (old : gmap jsstring JsValue) : gmap jsstring JsValue :=
  let d := <[Types.notionKey q := stored_answer q args]> old in
  match Types.autreKey q with
  | Some k =>
    if truthy (arg_autreValue args) && nonempty k
    then <[k := arg_autreValue args]> d else d
  | None => d
  end.

Definition update_current (st : State) (f : Session → Session)
  : list Session :=
  List.map (λ s, if is_current st s then f s else s) (sessions st).

Definition handleRecordAnswer (args : RecordAnswerArgs) (st : State)
  : jsstring * State :=
  if negb (prop_truthy (currentSessionIdRef st)) then (js "Erreur session.", st)
  else
    match findIndex (id_matches (arg_questionId args)) QUESTIONS with
    | None => (js "ID de question invalide.", st)
    | Some qIndex =>
      let nextStep := S qIndex in
      match currentSess st with
      | None => (js "Session introuvable.", st)
      | Some cur =>
        let q := default q01 (QUESTIONS !! qIndex) in
        let d := newData q args (Store.auditData cur) in
        let sessions' :=
          update_current st (λ s,
            {| Store.id := Store.id s;
               Store.createdAt := Store.createdAt s;
               Store.currentStep := nextStep;
               Store.auditData := d;
               Store.transcript := Store.transcript s;
               Store.isFinished := Store.isFinished s;
               Store.consecutiveErrors := 0 |}) in
        if Nat.leb (length QUESTIONS) nextStep then
          (js "[EVENT: AUDIT_COMPLETED]",
           {| sessions := sessions';
              sessionsRef := sessionsRef st;
              currentSessionIdRef := currentSessionIdRef st;
              isPendingFinalSpeechRef := true;
              submitted := submitted st ++ [d] |})
        else
          (js "[EVENT: RECORD_SUCCESS]",
           {| sessions := sessions';
              sessionsRef := sessionsRef st;
              currentSessionIdRef := currentSessionIdRef st;
              isPendingFinalSpeechRef := isPendingFinalSpeechRef st;
              submitted := submitted st |})
      end
    end.

(** A run of the dispatcher over a sequence of [record_answer] calls: the
    states after each call.  [rendered i] tells whether the component was
    rendered between the call before and call [i] (calls of one message are
    handled in one loop, with no render in between). *)
Fixpoint run_from (rendered : nat → bool) (i : nat)
    (calls : list RecordAnswerArgs) (st : State) : list State :=
  match calls with
  | [] => []
  | a :: calls' =>
    let st0 := if rendered i then render st else st in
    let st' := (handleRecordAnswer a st0).2 in
    st' :: run_from rendered (S i) calls' st'
  end.
Definition run (rendered : nat → bool) (calls : list RecordAnswerArgs)
    (st : State) : list State :=
  run_from rendered 0 calls st.

(** The question pointer of the current session. *)
Definition pointer (st : State) : option nat :=
  Store.currentStep <$> currentSession st.

End App.
End App.

(** ** Stage A and the submission pipeline

    Network calls are inputs of the model: each [fetch] comes with the
    outcome the network gives it.  Exceptions are explicit. *)

Inductive completion (A : Type) : Type :=
| Return (a : A)
| Throw (name : jsstring).
Arguments Return {A} a.
Arguments Throw {A} name.

#[global] Instance completion_bind : MBind completion := λ A B k c,
  match c with
  | Return a => k a
  | Throw e => Throw e
  end.

(** [try { c } catch (e) { h(e) }] *)
Definition try_catch {A} (c : completion A) (h : jsstring → completion A)
  : completion A :=
  match c with
  | Return a => Return a
  | Throw e => h e
  end.

Definition AbortError : jsstring := js "AbortError".
Definition TypeError : jsstring := js "TypeError".
Definition Error : jsstring := js "Error".

(** *** Stage B with its exceptions

    The functions of Stage B above give the result of every call that
    returns.  The only operations of Stage B that can raise are its
    conversions of a value to a string; here they raise, and the exception
    passes through the callers as it does in the source. *)

(** [Array.prototype.map] with a callback that can raise: the elements are
    visited from left to right. *)
Fixpoint map_c {A B} (f : A → completion B) (l : list A)
  : completion (list B) :=
  match l with
  | [] => Return []
  | x :: l' => y ← f x; ys ← map_c f l'; Return (y :: ys)
  end.

Module Exn.
Section Exn.
Context `{RT : JsRuntime}.

(** [String(v)], [v.toString()] *)
Definition toString (v : JsValue) : completion jsstring :=
  if raises v then Throw TypeError else Return (toString v).

(** ensureSelect: the conversion that opens the function,
    [(value ?? '').toString()], is its only operation that can raise. *)
Definition ensureSelect (q : Question) (value : JsValue)
    (base : gmap jsstring JsValue)
  : completion (jsstring * gmap jsstring JsValue) :=
  _ ← toString (coalesce value (JStr []));
  Return (ensureSelect q value base).

(** parseTokens: [v.map(x => String(x ?? '').trim())] converts the elements
    of an array; a string is split, anything else gives no token. *)
Definition parseTokens (v : JsValue) : completion (list jsstring) :=
  match v with
  | JArr l =>
    tokens ← map_c (λ x, s ← toString (coalesce x (JStr []));
                         Return (trim s)) l;
    Return (List.filter nonempty tokens)
  | _ => Return (parseTokens v)
  end.

(** [String(autreText || value || '').trim()] *)
Definition autre_fallback_text (text : jsstring) (value : JsValue)
  : completion jsstring :=
  if nonempty text then Return (trim text)
  else s ← toString (js_or value (JStr [])); Return (trim s).

Definition store_autre_multi (q : Question) (text : jsstring)
    (value : JsValue) (base : gmap jsstring JsValue)
  : completion (gmap jsstring JsValue) :=
  match Types.autreKey q with
  | Some k =>
    if nonempty k && negb (truthy (getprop base k))
    then s ← autre_fallback_text text value; Return (<[k := JStr s]> base)
    else Return base
  | None => Return base
  end.

Definition ensureMultiSelect (q : Question) (value : JsValue)
    (base : gmap jsstring JsValue)
  : completion (list jsstring * gmap jsstring JsValue) :=
  let opts := getAllowed q in
  let maxItems := effective_maxItems q in
  rawTokens ← parseTokens value;
  let selected := fold_left (select_token opts) rawTokens [] in
  if Nat.ltb 0 (length selected) then Return (take maxItems selected, base)
  else
    let text := autreText q value base in
    let r := if isQ17toQ19 q && nonempty text
             then ranked opts maxItems (scored q (ensureMultiSelect_norm text))
             else [] in
    if Nat.ltb 0 (length r) then Return (r, base)
    else if hasAutre q
    then base' ← store_autre_multi q text value base;
         Return ([autreLabel q], base')
    else Return ([], base).

(** ensureBool: a boolean is returned as it is, before any conversion. *)
Definition ensureBool (value : JsValue) : completion bool :=
  match value with
  | JBool b => Return b
  | _ =>
    _ ← toString (coalesce value (JStr []));
    Return (ensureBool value)
  end.

Definition enforce (base : gmap jsstring JsValue) (q : Question)
  : completion (gmap jsstring JsValue) :=
  let k := Types.notionKey q in
  let current := getprop base k in
  match Types.type q with
  | MULTI_SELECT =>
    r ← ensureMultiSelect q current base;
    Return (<[k := JArr (List.map JStr r.1)]> r.2)
  | BOOL => b ← ensureBool current; Return (<[k := JBool b]> base)
  | SELECT =>
    r ← ensureSelect q current base;
    Return (<[k := JStr r.1]> r.2)
  | STRING =>
    Return (if nullish (getprop base k) then <[k := JStr []]> base else base)
  end.

(** The loop over the catalogue stops at the first exception. *)
Fixpoint enforce_all (qs : list Question) (base : gmap jsstring JsValue)
  : completion (gmap jsstring JsValue) :=
  match qs with
  | [] => Return base
  | q :: qs' => base' ← enforce base q; enforce_all qs' base'
  end.

Definition buildGuaranteedPayload (env : Ambient)
    (rawData : gmap jsstring JsValue) (transcript : list TranscriptEntry)
    (candidate : option (gmap jsstring JsValue))
  : completion (gmap jsstring JsValue) :=
  let base := default ∅ candidate ∪ rawData in
  base' ← enforce_all QUESTIONS base;
  Return (attach_metadata env base').

End Exn.
End Exn.

(** Every answer read for a question of the catalogue converts to a string
    without raising. *)
Definition renders `{RT : JsRuntime} (base : gmap jsstring JsValue) : bool :=
  forallb (λ q, negb (raises (getprop base (Types.notionKey q)))) QUESTIONS.

(** What a [fetch] meets: a rejection (network failure, or the abort of the
    deadline), or a response with its [ok] flag and its body as JSON
    ([None] when the body does not parse). *)
Inductive FetchOutcome `{RT : JsRuntime} : Type :=
| Rejected (name : jsstring)
| Responded (ok : bool) (body : option JsValue).

Section Pipeline.
Context `{RT : JsRuntime}.

Definition fetch (o : FetchOutcome) : completion (bool * option JsValue) :=
  match o with
  | Rejected name => Throw name
  | Responded ok body => Return (ok, body)
  end.

(** The own enumerable properties of a value, for the spread
    [{ ...v }] and [Object.keys(v)]; in a JSON object a repeated key keeps
    its last value. *)
Definition properties (v : JsValue) : gmap jsstring JsValue :=
  match v with
  | JObj fields =>
    fold_left (λ m (f : jsstring * JsValue), <[f.1 := f.2]> m) fields ∅
  | JArr l =>
    fold_left (λ m (f : jsstring * JsValue), <[f.1 := f.2]> m)
      (imap (λ i x, (decimal (N.of_nat i), x)) l) ∅
  | JStr s =>
    list_to_map (imap (λ i c, (decimal (N.of_nat i), JStr [c])) s)
  | _ => ∅
  end.

(** [data?.candidate && typeof data.candidate === "object" ? data.candidate
    : null] *)
Definition candidate_of (data : JsValue) : option (gmap jsstring JsValue) :=
  match data with
  | JObj fields =>
    match properties data !! js "candidate" with
    | Some (JObj c) => Some (properties (JObj c))
    | Some (JArr c) => Some (properties (JArr c))
    | _ => None
    end
  | _ => None
  end.

(** normalizeAuditData: the proxy call and the construction of the payload
    inside one [try]; the [catch] builds the payload again, without a
    candidate, and what that call raises leaves the function. *)
Definition normalizeAuditData (env : Ambient)
    (transcript : list TranscriptEntry) (rawData : gmap jsstring JsValue)
    (proxy : FetchOutcome) : completion (gmap jsstring JsValue) :=
  try_catch
    (res ← fetch proxy;
     if negb res.1
     then Exn.buildGuaranteedPayload env rawData transcript None
     else
       let data := default (JObj []) res.2 in
       Exn.buildGuaranteedPayload env rawData transcript (candidate_of data))
    (λ _, Exn.buildGuaranteedPayload env rawData transcript None).

Inductive SubmissionStatus := idle | submitting | success | error.

(** What a run of the pipeline leaves behind: the delivery calls issued
    (each with the payload posted), the final status and the message. *)
Record SubmissionTrace := {
  deliveries : list (gmap jsstring JsValue);
  status : SubmissionStatus;
  errorMsg : option jsstring;
}.

Definition msg_timeout_300 : jsstring :=
  js "Le délai de transmission a été dépassé (300s).".
Definition msg_failed : jsstring :=
  js "La transmission des données a échoué. Veuillez contacter le support.".

(** [isTimeout]: the error is an AbortError (the message tests concern
    errors the normalisation no longer raises). *)
Definition isTimeout (name : jsstring) : bool := str_eqb name AbortError.

(** submitToWebhook: normalise, then one POST of the payload. *)
Definition submitToWebhook (env : Ambient)
    (transcript : list TranscriptEntry) (rawData : gmap jsstring JsValue)
    (proxy delivery : FetchOutcome) : SubmissionTrace :=
  match normalizeAuditData env transcript rawData proxy with
  | Throw e =>
    {| deliveries := []; status := error;
       errorMsg := Some (if isTimeout e then msg_timeout_300 else msg_failed) |}
  | Return payload =>
    match fetch delivery with
    | Throw e =>
      {| deliveries := [payload]; status := error;
         errorMsg :=
           Some (if isTimeout e then msg_timeout_300 else msg_failed) |}
    | Return response =>
      if negb response.1
      then {| deliveries := [payload]; status := error;
              errorMsg := Some msg_failed |}
      else {| deliveries := [payload]; status := success; errorMsg := None |}
    end
  end.

End Pipeline.

(** *** The earlier variant of the pipeline

    The second App source carries an earlier submitToWebhook, with a
    [retryCount] parameter, and an earlier normalizeAuditData that calls the
    model directly and rethrows.  Each attempt meets its own network
    outcomes, given by attempt number. *)

Module Legacy.
Section Legacy.
Context `{RT : JsRuntime}.

(** The model call raced against its timeout: a rejection, or a response
    whose text parses to a JSON value ([None] when JSON.parse throws). *)
Inductive AiOutcome : Type :=
| AiRejected (name : jsstring)
| AiText (parsed : option JsValue).

Definition keys_empty (v : JsValue) : bool :=
  bool_decide (properties v = ∅).

Definition normalizeAuditData (env : Ambient) (ai : AiOutcome)
  : completion (gmap jsstring JsValue) :=
  match ai with
  | AiRejected name => Throw name
  | AiText None => Throw (js "SyntaxError")
  | AiText (Some normalized) =>
    if negb (truthy normalized) || keys_empty normalized then Throw Error
    else
      let p := properties normalized in
      Return
        (<[key_executionMode := JStr (js "production_normalized")]>
         (<[key_date_quoted :=
              js_or (getprop p key_date_quoted) (JStr (nowISO env))]>
          (<[key_source := JStr SOURCE_TAG]>
           (<[key_session_id :=
                match currentSessionIdRef env with
                | Some i => JStr i
                | None => JNull
                end]> p))))
  end.

Definition msg_timeout_45 : jsstring :=
  js "Le délai de transmission a été dépassé (45s).".
Definition msg_failed : jsstring :=
  js "La normalisation des données a échoué. Veuillez contacter le support.".

(** One pass through the [try] block: the payload posted, if the POST was
    issued, and how the block completed. *)
Definition attempt (env : Ambient) (ai : AiOutcome) (delivery : FetchOutcome)
  : list (gmap jsstring JsValue) * completion unit :=
  match normalizeAuditData env ai with
  | Throw e => ([], Throw e)
  | Return payload =>
    match fetch delivery with
    | Throw e => ([payload], Throw e)
    | Return response =>
      if negb response.1 then ([payload], Throw Error)
      else ([payload], Return ())
    end
  end.

Definition inspect {A} (a : A) : {b | a = b} := exist _ a eq_refl.

(** [if (retryCount < 1 && error.name !== 'AbortError')] *)
Definition retries (retryCount : nat) (name : jsstring) : bool :=
  Nat.ltb retryCount 1 && negb (isTimeout name).

Equations? submitToWebhook (env : Ambient)
    (net : nat → AiOutcome * FetchOutcome) (retryCount : nat)
  : SubmissionTrace by wf (1 - retryCount)%nat lt :=
  submitToWebhook env net retryCount
    with attempt env (net retryCount).1 (net retryCount).2 => {
    | pair posted (Return _) :=
      {| deliveries := posted; status := success; errorMsg := None |};
    | pair posted (Throw name) with inspect (retries retryCount name) => {
      | exist _ true again :=
        let rest := submitToWebhook env net (S retryCount) in
        {| deliveries := posted ++ deliveries rest;
           status := status rest; errorMsg := errorMsg rest |};
      | exist _ false _ :=
        {| deliveries := posted; status := error;
           errorMsg := Some (if isTimeout name then msg_timeout_45
                             else msg_failed) |} } }.
Proof.
  apply andb_prop in again as [Hlt _].
  apply Nat.ltb_lt in Hlt. lia.
Qed.

End Legacy.
End Legacy.

(** ** Playback scheduling (the audio branch of onmessage)

    Times are seconds on the clock of the output audio context, taken as
    rationals. *)

Module Audio.

(** A decoded buffer as it reaches the scheduler: the context's
    [currentTime] at that moment and the buffer's duration. *)
Record Chunk := { currentTime : Q; duration : Q }.

(** [nextStartTimeRef.current = Math.max(nextStartTimeRef.current, currentTime);
     source.start(nextStartTimeRef.current);
     nextStartTimeRef.current += audioBuffer.duration]:
    the start time given to the buffer and the new cursor. *)
Definition schedule (nextStartTime : Q) (c : Chunk) : Q * Q :=
  let start := Qmax nextStartTime (currentTime c) in
  (start, (start + duration c)%Q).

(** The start times of a sequence of chunks, in arrival order. *)
Fixpoint start_times (nextStartTime : Q) (chunks : list Chunk) : list Q :=
  match chunks with
  | [] => []
  | c :: rest =>
    let r := schedule nextStartTime c in
    r.1 :: start_times r.2 rest
  end.

End Audio.

(** ** The properties, as predicates on the model *)

Section Properties.
Context `{RT : JsRuntime}.

(** The kind constraint of a schema entry on a payload value. *)
Definition is_allowed (q : Question) (v : JsValue) : bool :=
  match v with
  | JStr o => includes (getAllowed q) o
  | _ => false
  end.

Definition within_maxItems (q : Question) (n : nat) : bool :=
  match Types.maxItems q with
  | Some m => Nat.leb n m
  | None => true
  end.

Definition satisfies_kind (q : Question) (v : JsValue) : bool :=
  match Types.type q with
  | SELECT => is_allowed q v
  | MULTI_SELECT =>
    match v with
    | JArr l => forallb (is_allowed q) l && within_maxItems q (length l)
    | _ => false
    end
  | BOOL => match v with JBool _ => true | _ => false end
  | STRING => is_string v
  end.

(** Every schema entry of a payload satisfies its kind constraint. *)
Definition schema_valid (payload : gmap jsstring JsValue) : bool :=
  forallb (λ q, satisfies_kind q (getprop payload (Types.notionKey q)))
    QUESTIONS.

(** The semantic-mapping call failed: the request was rejected (network
    error, timeout, abort), the response was not 2xx, or its body carried
    no candidate object. *)
Definition mapping_failed (proxy : FetchOutcome) : bool :=
  match proxy with
  | Rejected _ => true
  | Responded ok body =>
    negb ok
    || match body with
       | None => true
       | Some data =>
         match candidate_of data with Some _ => false | None => true end
       end
  end.

(** The value the enforcement loop reads for an entry: the candidate's,
    else the raw answer. *)
Definition input_of (rawData : gmap jsstring JsValue)
    (candidate : option (gmap jsstring JsValue)) (q : Question) : JsValue :=
  getprop (default ∅ candidate ∪ rawData) (Types.notionKey q).

(** Free text is passed through: the value read, or [''] when it is
    undefined or null. *)
Definition passed_through (input v : JsValue) : Prop :=
  v = if nullish input then JStr [] else input.

(** A value that holds something: not undefined, null, [''] or [[]]. *)
Definition holds_something (v : JsValue) : bool :=
  match v with
  | JUndefined | JNull => false
  | JStr s => nonempty s
  | JArr l => match l with [] => false | _ => true end
  | _ => true
  end.

(** What the payload guarantees for an entry, given the value read for it:
    the kind constraint for the closed kinds, pass-through for free text. *)
Definition entry_guarantee (q : Question) (input v : JsValue) : Prop :=
  match Types.type q with
  | STRING => passed_through input v
  | _ => satisfies_kind q v = true
  end.

End Properties.

(** What the proofs use of a catalogue entry: a select question has
    options, a multi-select question has a positive maximum and an escape
    option, and no option is the empty string. *)
Definition well_formed (q : Question) : bool :=
  forallb nonempty (getAllowed q)
  && match Types.type q with
     | SELECT => Nat.ltb 0 (length (getAllowed q))
     | MULTI_SELECT =>
       match Types.maxItems q with Some (S _) => true | _ => false end
       && hasAutre q
     | _ => true
     end.

Definition notionKeys : list jsstring := List.map Types.notionKey QUESTIONS.

Definition autreKeys : list jsstring :=
  omap Types.autreKey QUESTIONS.

Definition metadata_keys : list jsstring :=
  [key_session_id; key_source; key_date; key_date_quoted; key_executionMode;
   key_nom].


(** ** The dispatcher's properties, as predicates on the model *)

Section DispatcherProperties.
Context `{RT : JsRuntime}.

(** The textual results with which [record_answer] reports a failure. *)
Definition error_results : list jsstring :=
  [js "Erreur session."; js "ID de question invalide.";
   js "Session introuvable."].
Definition is_error (msg : jsstring) : bool := includes error_results msg.

(** What the handlers check before they act: the current-session reference
    is set and designates a session of [sessionsRef]. *)
Definition session_found (st : App.State) : bool :=
  prop_truthy (App.currentSessionIdRef st)
  && match App.currentSess st with Some _ => true | None => false end.

(** The reference is set and designates a session of the state. *)
Definition session_current (st : App.State) : bool :=
  prop_truthy (App.currentSessionIdRef st)
  && match App.currentSession st with Some _ => true | None => false end.

(** A session is active: the reference is set and designates a session of
    the state that is not finished. *)
Definition session_active (st : App.State) : bool :=
  prop_truthy (App.currentSessionIdRef st)
  && match App.currentSession st with
     | Some s => negb (Store.isFinished s)
     | None => false
     end.

(** The position in the catalogue of the question a call names. *)
Definition named_question (args : RecordAnswerArgs) : option nat :=
  App.findIndex (App.id_matches (arg_questionId args)) QUESTIONS.

(** The state a run ends in. *)
Definition final_state (rendered : nat → bool)
    (calls : list RecordAnswerArgs) (st : App.State) : App.State :=
  List.last (App.run rendered calls st) st.

(** How many times a run triggered the completion of the session (the
    final speech armed and the submission started). *)
Definition completions (rendered : nat → bool)
    (calls : list RecordAnswerArgs) (st : App.State) : nat :=
  (length (App.submitted (final_state rendered calls st))
   - length (App.submitted st))%nat.

End DispatcherProperties.

(** ** Inputs of the closed examples *)

Definition env0 : Ambient :=
  {| currentSessionIdRef := Some (js "1767225600000");
     nowISO := js "2026-01-01T00:00:00.000Z" |}.

Module Examples.
Import Latin1.

Definition session_at (step : nat) : Session :=
  {| Store.id := js "1767225600000";
     Store.createdAt := 1767225600000;
     Store.currentStep := step;
     Store.auditData := ∅;
     Store.transcript := [];
     Store.isFinished := false;
     Store.consecutiveErrors := 0 |}.

Definition state_at (step : nat) : App.State :=
  {| App.sessions := [session_at step];
     App.sessionsRef := [session_at step];
     App.currentSessionIdRef := Some (js "1767225600000");
     App.isPendingFinalSpeechRef := false;
     App.submitted := [] |}.

Definition answer (qid value : string) : RecordAnswerArgs :=
  {| arg_questionId := JStr (js qid);
     arg_value := JStr (js value);
     arg_multiValues := JUndefined;
     arg_autreValue := JUndefined |}.

End Examples.

(** ** Further components of the application

    The rest of the App component around the dispatcher: the progress
    stage, the session store operations, technical closure, turn
    completion and the start event; and the two serverless handlers. *)

(** [s.includes(sub)] on strings. *)
Definition str_includes (sub s : jsstring) : bool := test (λ c, c) (Lit sub) s.

(** *** Progress stage (STAGES, stageInfo) *)

Module Progress.

Record Stage := { label : jsstring; maxIndex : nat }.

Definition STAGES : list Stage :=
  [ {| label := js "Maturité IA, Stratégie..."; maxIndex := 4 |};
    {| label := js "Votre rôle..."; maxIndex := 7 |};
    {| label := js "Votre entreprise..."; maxIndex := 15 |};
    {| label := js "Objectifs, Défis..."; maxIndex := 18 |};
    {| label := js "Finalisation de l'Audit…"; maxIndex := 20 |} ].

Definition stage_label (i : nat) : jsstring :=
  default [] (label <$> STAGES !! i).

(** The index shown (1 to 5) and its label. *)
Definition stageInfo `{RT : JsRuntime} (currentSession : option Session)
  : nat * jsstring :=
  match currentSession with
  | None => (1%nat, stage_label 0)
  | Some s =>
    if Store.isFinished s then (5%nat, stage_label 4)
    else
      let foundIdx :=
        match App.findIndex
                (λ st, Nat.leb (Store.currentStep s) (maxIndex st)) STAGES with
        | None => 4%nat
        | Some idx => idx
        end in
      (S foundIdx, stage_label foundIdx)
  end.

End Progress.

(** *** Session store, technical closure, turns *)

Module Lifecycle.
Section Lifecycle.
Context `{RT : JsRuntime}.

(** The dispatcher's state with what the store operations and the turn
    handler touch besides.  The two buffers are the references the handlers
    read and write; the display states set from them in the same statements
    are not kept. *)
Record Component := {
  app : App.State;
  showHistory : bool;
  submissionStatus : SubmissionStatus;
  currentInputTextRef : jsstring;
  currentOutputTextRef : jsstring;
}.

(** createNewSession; the two readings of [Date.now()] are inputs. *)
Definition createNewSession (baseData : gmap jsstring JsValue)
    (idClock createdClock : N) (c : Component) : Session * Component :=
  let newId := decimal idClock in
  let newSession :=
    {| Store.id := newId;
       Store.createdAt := createdClock;
       Store.currentStep := 0;
       Store.auditData := baseData;
       Store.transcript := [];
       Store.isFinished := false;
       Store.consecutiveErrors := 0 |} in
  (newSession,
   {| app :=
        {| App.sessions := newSession :: App.sessions (app c);
           App.sessionsRef := App.sessionsRef (app c);
           App.currentSessionIdRef := Some newId;
           App.isPendingFinalSpeechRef := false;
           App.submitted := App.submitted (app c) |};
      showHistory := false;
      submissionStatus := idle;
      currentInputTextRef := [];
      currentOutputTextRef := [] |}).

(** updateCurrentSession, for the update a caller passes. *)
Definition updateCurrentSession (updates : Session → Session)
    (st : App.State) : App.State :=
  if negb (prop_truthy (App.currentSessionIdRef st)) then st
  else
    {| App.sessions := App.update_current st updates;
       App.sessionsRef := App.sessionsRef st;
       App.currentSessionIdRef := App.currentSessionIdRef st;
       App.isPendingFinalSpeechRef := App.isPendingFinalSpeechRef st;
       App.submitted := App.submitted st |}.

(** [{ ...s, isFinished: true }] *)
Definition finished (s : Session) : Session :=
  {| Store.id := Store.id s;
     Store.createdAt := Store.createdAt s;
     Store.currentStep := Store.currentStep s;
     Store.auditData := Store.auditData s;
     Store.transcript := Store.transcript s;
     Store.isFinished := true;
     Store.consecutiveErrors := Store.consecutiveErrors s |}.

Definition handleTechnicalClosure (st : App.State) : jsstring * App.State :=
  let submitted' :=
    match App.currentSess st with
    | Some session => App.submitted st ++ [Store.auditData session]
    | None => App.submitted st
    end in
  let st' := updateCurrentSession finished st in
  (js "[EVENT: TECHNICAL_CLOSURE]",
   {| App.sessions := App.sessions st';
      App.sessionsRef := App.sessionsRef st';
      App.currentSessionIdRef := App.currentSessionIdRef st';
      App.isPendingFinalSpeechRef := true;
      App.submitted := submitted' |}).

(** Partial transcriptions accumulate in the two buffers. *)
Definition onInputTranscription (fragment : jsstring) (c : Component)
  : Component :=
  {| app := app c; showHistory := showHistory c;
     submissionStatus := submissionStatus c;
     currentInputTextRef := currentInputTextRef c ++ fragment;
     currentOutputTextRef := currentOutputTextRef c |}.

Definition onOutputTranscription (fragment : jsstring) (c : Component)
  : Component :=
  {| app := app c; showHistory := showHistory c;
     submissionStatus := submissionStatus c;
     currentInputTextRef := currentInputTextRef c;
     currentOutputTextRef := currentOutputTextRef c ++ fragment |}.

Definition isErrorResponse (output : jsstring) : bool :=
  let o := toLowerCase output in
  str_includes (js "désolé") o
  && (str_includes (js "comprends") o || str_includes (js "compris") o).

(** What a completed turn does to the current session. *)
Definition turn_update (input output : jsstring) (s : Session) : Session :=
  let newT :=
    Store.transcript s
    ++ (if nonempty input then [{| role := js "User"; text := input |}]
        else [])
    ++ (if nonempty output then [{| role := js "Agent"; text := output |}]
        else []) in
  let newErrCount :=
    if isErrorResponse output then S (Store.consecutiveErrors s)
    else if Nat.ltb 2 (length input) then 0%nat
    else Store.consecutiveErrors s in
  {| Store.id := Store.id s;
     Store.createdAt := Store.createdAt s;
     Store.currentStep := Store.currentStep s;
     Store.auditData := Store.auditData s;
     Store.transcript := newT;
     Store.isFinished := Store.isFinished s;
     Store.consecutiveErrors := newErrCount |}.

(** The turn-complete branch of onmessage: the new state, and whether the
    timer that will mark the session finished was armed. *)
Definition onTurnComplete (c : Component) : Component * bool :=
  let input := trim (currentInputTextRef c) in
  let output := trim (currentOutputTextRef c) in
  let sessions' :=
    if nonempty input || nonempty output
    then App.update_current (app c) (turn_update input output)
    else App.sessions (app c) in
  ({| app :=
        {| App.sessions := sessions';
           App.sessionsRef := App.sessionsRef (app c);
           App.currentSessionIdRef := App.currentSessionIdRef (app c);
           App.isPendingFinalSpeechRef := false;
           App.submitted := App.submitted (app c) |};
      showHistory := showHistory c;
      submissionStatus := submissionStatus c;
      currentInputTextRef := [];
      currentOutputTextRef := [] |},
   App.isPendingFinalSpeechRef (app c)).

(** A function call of a tool-call message. *)
Record FunctionCall := {
  name : jsstring;
  args : RecordAnswerArgs;
}.

(** The body of the loop over [message.toolCall.functionCalls]: the result
    sent back for the call, and the new state. *)
Definition onFunctionCall (fc : FunctionCall) (st : App.State)
  : jsstring * App.State :=
  let r := if str_eqb (name fc) (js "record_answer")
           then App.handleRecordAnswer (args fc) st
           else ([], st) in
  if str_eqb (name fc) (js "technical_closure")
  then handleTechnicalClosure r.2
  else r.

(** The loop: the calls of one message are handled one after the other,
    with no render in between. *)
Definition onToolCall (functionCalls : list FunctionCall) (st : App.State)
  : App.State :=
  fold_left (λ st fc, (onFunctionCall fc st).2) functionCalls st.

(** A server message, as onmessage reads it: the transcription fragments,
    the turn-complete flag and the function calls. *)
Record LiveServerMessage := {
  inputTranscription : option jsstring;
  outputTranscription : option jsstring;
  turnComplete : bool;
  toolCall : list FunctionCall;
}.

(** onmessage, in the order of the source: the fragments, the completed
    turn, the function calls.  The boolean tells whether the timer that
    finishes the session was armed. *)
Definition onmessage (m : LiveServerMessage) (c : Component)
  : Component * bool :=
  let c1 := match inputTranscription m with
            | Some fragment => onInputTranscription fragment c
            | None => c
            end in
  let c2 := match outputTranscription m with
            | Some fragment => onOutputTranscription fragment c1
            | None => c1
            end in
  let r := if turnComplete m then onTurnComplete c2 else (c2, false) in
  ({| app := onToolCall (toolCall m) (app r.1);
      showHistory := showHistory r.1;
      submissionStatus := submissionStatus r.1;
      currentInputTextRef := currentInputTextRef r.1;
      currentOutputTextRef := currentOutputTextRef r.1 |},
   r.2).

(** A render of the component. *)
Definition render (c : Component) : Component :=
  {| app := App.render (app c);
     showHistory := showHistory c;
     submissionStatus := submissionStatus c;
     currentInputTextRef := currentInputTextRef c;
     currentOutputTextRef := currentOutputTextRef c |}.

(** A sequence of server messages: the state they leave, and how many times
    the finishing timer was armed.  [rendered i] tells whether the component
    was rendered between the message before and message [i]. *)
Fixpoint onMessages_from (rendered : nat → bool) (i : nat)
    (ms : list LiveServerMessage) (acc : Component * nat)
  : Component * nat :=
  match ms with
  | [] => acc
  | m :: ms' =>
    let c0 := if rendered i then render acc.1 else acc.1 in
    let r := onmessage m c0 in
    onMessages_from rendered (S i) ms' (r.1, if r.2 then S acc.2 else acc.2)
  end.
Definition onMessages (rendered : nat → bool) (ms : list LiveServerMessage)
    (c : Component) : Component * nat :=
  onMessages_from rendered 0 ms (c, 0%nat).

(** A function call that can end the interview: technical_closure, or
    record_answer for the last question of the catalogue. *)
Definition may_complete (fc : FunctionCall) : bool :=
  str_eqb (name fc) (js "technical_closure")
  || (str_eqb (name fc) (js "record_answer")
      && bool_decide (named_question (args fc)
                      = Some (length QUESTIONS - 1)%nat)).

(** startInterview: the session an interview runs on, and the event that
    opens it. *)
Definition sessionToUse (idClock createdClock : N) (c : Component)
  : Session * Component :=
  match App.currentSession (app c) with
  | Some s =>
    if Store.isFinished s then createNewSession ∅ idClock createdClock c
    else (s, c)
  | None => createNewSession ∅ idClock createdClock c
  end.


End Lifecycle.
End Lifecycle.

(** *** The serverless handlers (api/normalize, api/submit) *)

Module Api.
Section Api.
Context `{RT : JsRuntime}.

Record Request := { method : option jsstring; body : JsValue }.
Record Response := { statusCode : nat; json : JsValue }.

Definition is_POST (request : Request) : bool :=
  bool_decide (method request = Some (js "POST")).

Definition is_array (v : JsValue) : bool :=
  match v with JArr _ => true | _ => false end.

(** [typeof v === 'object'] *)
Definition is_object (v : JsValue) : bool :=
  match v with JObj _ | JArr _ | JNull => true | _ => false end.

(** The minimal validation of the request body. *)
Definition valid_payload (b : JsValue) : bool :=
  let p := properties (js_or b (JObj [])) in
  truthy (getprop p (js "rawData"))
  && is_array (getprop p (js "transcript"))
  && is_array (getprop p (js "questionsContext"))
  && is_string (getprop p (js "prompt")).

(** api/normalize; [apiKey] says whether the server holds a key, [ai] is
    what the model call gives. *)
Definition normalize (request : Request) (apiKey : bool)
    (ai : Legacy.AiOutcome) : Response :=
  if negb (is_POST request) then
    {| statusCode := 405;
       json := JObj [(js "error", JStr (js "Method not allowed"))] |}
  else if negb apiKey then
    {| statusCode := 200;
       json := JObj [(js "candidate", JNull);
                     (js "error", JStr (js "MISSING_SERVER_API_KEY"))] |}
  else if negb (valid_payload (body request)) then
    {| statusCode := 400;
       json := JObj [(js "error", JStr (js "Invalid payload"));
                     (js "candidate", JNull)] |}
  else
    match ai with
    | Legacy.AiRejected _ =>
      {| statusCode := 200;
         json := JObj [(js "candidate", JNull);
                       (js "error", JStr (js "SERVER_NORMALIZE_FAIL"))] |}
    | Legacy.AiText None =>
      {| statusCode := 200; json := JObj [(js "candidate", JNull)] |}
    | Legacy.AiText (Some parsed) =>
      {| statusCode := 200;
         json := JObj [(js "candidate",
                        if truthy parsed && is_object parsed then parsed
                        else JNull)] |}
    end.

(** api/submit: the response, and the bodies posted to the webhook. *)
Definition submit (request : Request) (webhook : FetchOutcome)
  : Response * list JsValue :=
  let failed :=
    {| statusCode := 500;
       json := JObj [(js "error", JStr (js "Failed to submit audit data"))] |}
  in
  if negb (is_POST request) then
    ({| statusCode := 405;
        json := JObj [(js "error", JStr (js "Method not allowed"))] |}, [])
  else
    match fetch webhook with
    | Throw _ => (failed, [body request])
    | Return n8nResponse =>
      if negb n8nResponse.1 then (failed, [body request])
      else ({| statusCode := 200;
               json := JObj [(js "success", JBool true)] |}, [body request])
    end.

(** What the client's [fetch] sees of a handler's response: [ok] for a 2xx
    status, and the JSON body. *)
Definition as_fetch (r : Response) : FetchOutcome :=
  Responded (Nat.leb 200 (statusCode r) && Nat.ltb (statusCode r) 300)
    (Some (json r)).

End Api.
End Api.

(** *** Shapes of labels and keys the further properties refer to *)

(** A label with no white space around it, and not the empty string. *)
Definition trimmed (o : jsstring) : bool := str_eqb (trim o) o && nonempty o.

Definition starts_with_digit (o : jsstring) : bool :=
  default false (is_digit <$> head o).

(** A label a multi-select token can only match literally: trimmed, and
    not read as an index form. *)
Definition plain_label (o : jsstring) : bool :=
  trimmed o && negb (starts_with_digit o).

(** The merged input of Stage B: [{ ...rawData, ...(candidate || {}) }]. *)
Definition merged `{RT : JsRuntime} (rawData : gmap jsstring JsValue)
    (candidate : option (gmap jsstring JsValue)) : gmap jsstring JsValue :=
  default ∅ candidate ∪ rawData.

(** * Proofs *)

(** ** Lists of strings *)

Lemma includes_elem (l : list jsstring) (x : jsstring) :
  includes l x = true ↔ x ∈ l.
Proof.
  unfold includes, str_eqb. rewrite existsb_exists. split.
  - intros (y & Hy & Heq). apply bool_decide_eq_true in Heq. subst.
    by apply list_elem_of_In.
  - intros Hx. exists x. split; [by apply list_elem_of_In|].
    by apply bool_decide_eq_true.
Qed.

Lemma opt_at_elem (opts : list jsstring) (i : nat) :
  (i < length opts)%nat → opt_at opts i ∈ opts.
Proof.
  intros Hi. unfold opt_at.
  destruct (lookup_lt_is_Some_2 opts i Hi) as [o Ho]. rewrite Ho. simpl.
  by eapply list_elem_of_lookup_2.
Qed.

Lemma hasAutre_label (q : Question) :
  hasAutre q = true → autreLabel q ∈ getAllowed q.
Proof.
  unfold hasAutre, autreLabel. intros H.
  apply andb_prop in H as [_ H].
  destruct (prop_truthy (Types.triggerAutre q)); by apply includes_elem.
Qed.

Section SelectFacts.
Context `{RT : JsRuntime}.

Lemma bestIdx_bound (scores : list nat) : (bestIdx scores < 4)%nat.
Proof.
  unfold bestIdx. simpl.
  repeat match goal with |- context [if ?b then _ else _] => destruct b end;
    lia.
Qed.

Lemma optByNorm_elem (opts : list jsstring) (v o : jsstring) :
  optByNorm opts !! v = Some o → o ∈ opts.
Proof.
  unfold optByNorm.
  assert (∀ l (m : gmap jsstring jsstring),
             (∀ k x, m !! k = Some x → x ∈ opts) →
             (∀ x, x ∈ l → x ∈ opts) →
             ∀ k x, fold_left (λ m o, <[ensureSelect_norm o := o]> m) l m !! k
                    = Some x → x ∈ opts) as Hgen.
  { induction l as [|a l IH]; intros m Hm Hl k x; simpl.
    - apply Hm.
    - apply IH.
      + intros k' x'. rewrite lookup_insert. case_decide.
        * intros [= <-]. apply Hl. left.
        * apply Hm.
      + intros y Hy. apply Hl. by right. }
  apply (Hgen opts ∅); [|done].
  intros k x. by rewrite lookup_empty.
Qed.

Lemma closest_elem (v : jsstring) (opts : list jsstring) :
  opts ≠ [] → closest v opts ∈ opts.
Proof.
  intros Hne. unfold closest.
  assert (∀ l acc, acc.1 ∈ opts → (∀ x, x ∈ l → x ∈ opts) →
            (fold_left
               (λ '(best, bestScore) o,
                  let sc := overlap (token_set v) o in
                  if Qgt_bool sc bestScore then (o, sc) else (best, bestScore))
               l acc).1 ∈ opts) as Hgen.
  { induction l as [|a l IH]; intros [best sc] Hacc Hl; simpl; [done|].
    apply IH.
    - destruct (Qgt_bool _ _); simpl; [apply Hl; left | done].
    - intros y Hy. apply Hl. by right. }
  apply Hgen; [|done]. simpl. apply opt_at_elem.
  destruct opts; [done | simpl; lia].
Qed.

Lemma index_shorthand_elem (opts : list jsstring) (vRaw o : jsstring) :
  index_shorthand opts vRaw = Some o → o ∈ opts.
Proof.
  unfold index_shorthand.
  destruct (test _ _ _); [|done].
  destruct (_ && _) eqn:Hrange; [|done].
  intros [= <-]. apply andb_prop in Hrange as [H1 H2].
  apply N.leb_le in H1, H2. apply opt_at_elem. lia.
Qed.

Lemma maturity_heuristic_elem (q : Question) (v o : jsstring) :
  maturity_heuristic q v = Some o → o ∈ getAllowed q.
Proof.
  unfold maturity_heuristic.
  destruct (_ && _) eqn:Hq; [|done].
  destruct (Nat.ltb 0 _); [|done].
  intros [= <-]. apply andb_prop in Hq as [_ Hlen].
  apply Nat.leb_le in Hlen. apply opt_at_elem.
  pose proof (bestIdx_bound (scoreByIndex q v)). lia.
Qed.

(** ensureSelect returns one of the allowed options, provided there is
    one. *)
Lemma ensureSelect_allowed (q : Question) (value : JsValue)
    (base : gmap jsstring JsValue) :
  getAllowed q ≠ [] → (ensureSelect q value base).1 ∈ getAllowed q.
Proof.
  intros Hne. unfold ensureSelect.
  destruct (negb (nonempty _)).
  { simpl. destruct (hasAutre q) eqn:Ha; [by apply hasAutre_label|].
    apply opt_at_elem. destruct (getAllowed q); [done | simpl; lia]. }
  destruct (includes _ _) eqn:Hinc; [by apply includes_elem|].
  destruct (index_shorthand _ _) eqn:Hidx;
    [by eapply index_shorthand_elem|].
  destruct (optByNorm _ !! _) eqn:Hnorm; [by eapply optByNorm_elem|].
  destruct (maturity_heuristic _ _) eqn:Hmat;
    [by eapply maturity_heuristic_elem|].
  destruct (hasAutre q) eqn:Ha; [by apply hasAutre_label|].
  unfold NORMALIZATION_FALLBACKS_BY_NOTION_KEY. rewrite lookup_empty.
  by apply closest_elem.
Qed.

Lemma store_autre_lookup (q : Question) (text k : jsstring)
    (base : gmap jsstring JsValue) :
  Types.autreKey q ≠ Some k → store_autre q text base !! k = base !! k.
Proof.
  intros Hk. unfold store_autre.
  destruct (Types.autreKey q) as [a|]; [|done].
  destruct (_ && _); [|done].
  apply lookup_insert_ne. congruence.
Qed.

Lemma ensureSelect_frame (q : Question) (value : JsValue)
    (base : gmap jsstring JsValue) (k : jsstring) :
  Types.autreKey q ≠ Some k →
  (ensureSelect q value base).2 !! k = base !! k.
Proof.
  intros Hk. unfold ensureSelect.
  repeat match goal with
         | |- context [if ?b then _ else _] => destruct b
         | |- context [match ?x with Some _ => _ | None => _ end] => destruct x
         end; simpl; try done; by apply store_autre_lookup.
Qed.

End SelectFacts.
Section MultiFacts.
Context `{RT : JsRuntime}.

Lemma pushUnique_Forall (P : jsstring → Prop) (arr : list jsstring)
    (v : jsstring) :
  Forall P arr → P v → Forall P (pushUnique arr v).
Proof.
  intros Harr Hv. unfold pushUnique. destruct (_ && _); [|done].
  apply Forall_app. by split; [|constructor].
Qed.

Lemma tokenToOptionByIndex_elem (opts : list jsstring) (t o : jsstring) :
  tokenToOptionByIndex opts t = Some o → o ∈ opts.
Proof.
  unfold tokenToOptionByIndex. destruct (exec _ _ _) as [m1|]; [|done].
  destruct (_ || _) eqn:Hout; [done|]. intros [= <-].
  apply orb_false_elim in Hout as [H1 H2].
  apply N.ltb_ge in H1, H2. apply opt_at_elem. lia.
Qed.

Lemma select_literal_Forall (opts selected : list jsstring) (t : jsstring) :
  Forall (λ o, o ∈ opts) selected →
  Forall (λ o, o ∈ opts) (select_literal opts selected t).
Proof.
  intros Hsel. unfold select_literal.
  destruct (includes opts t) eqn:Ht.
  { apply (pushUnique_Forall (λ o, o ∈ opts)); [done | simpl; by apply includes_elem]. }
  destruct (includes opts (trim _)) eqn:Ht2; [|done].
  apply (pushUnique_Forall (λ o, o ∈ opts)); [done | simpl; by apply includes_elem].
Qed.

Lemma select_token_Forall (opts selected : list jsstring) (t : jsstring) :
  Forall (λ o, o ∈ opts) selected →
  Forall (λ o, o ∈ opts) (select_token opts selected t).
Proof.
  intros Hsel. unfold select_token.
  destruct (tokenToOptionByIndex opts t) as [o|] eqn:Hidx;
    [|by apply select_literal_Forall].
  destruct (nonempty o); [|by apply select_literal_Forall].
  apply (pushUnique_Forall (λ o, o ∈ opts)); [done | simpl; by eapply tokenToOptionByIndex_elem].
Qed.

Lemma selected_Forall (opts tokens selected : list jsstring) :
  Forall (λ o, o ∈ opts) selected →
  Forall (λ o, o ∈ opts) (fold_left (select_token opts) tokens selected).
Proof.
  revert selected. induction tokens as [|t tokens IH]; intros sel Hsel;
    simpl; [done|].
  apply IH. by apply select_token_Forall.
Qed.

Lemma run_rules_length (rules : list (bool * (list nat → list nat)))
    (scores : list nat) :
  Forall (λ r, ∀ l, length (r.2 l) = length l) rules →
  length (run_rules rules scores) = length scores.
Proof.
  unfold run_rules. revert scores.
  induction rules as [|r rules IH]; intros scores Hr; simpl; [done|].
  inversion_clear Hr as [|?? Hr1 Hrules].
  rewrite IH by done. destruct r.1; [apply Hr1 | done].
Qed.

Lemma add_length (i w : nat) (l : list nat) : length (add i w l) = length l.
Proof. unfold add. apply length_alter. Qed.

Lemma scored_length (q : Question) (t : jsstring) :
  length (scored q t) = length (getAllowed q).
Proof.
  unfold scored. rewrite run_rules_length.
  - apply length_replicate.
  - repeat (apply Forall_cons_2; [intros l; apply add_length|]).
    apply Forall_nil_2.
Qed.

Lemma insert_desc_Forall (P : nat * nat → Prop) (x : nat * nat)
    (l : list (nat * nat)) :
  P x → Forall P l → Forall P (insert_desc x l).
Proof.
  intros Hx. induction l as [|y l IH]; intros Hl; simpl.
  - by constructor.
  - destruct (Nat.ltb _ _); [by constructor|].
    inversion_clear Hl as [|?? Hy Hl']. constructor; [done | by apply IH].
Qed.

Lemma sort_desc_Forall (P : nat * nat → Prop) (l : list (nat * nat)) :
  Forall P l → Forall P (sort_desc l).
Proof.
  unfold sort_desc.
  assert (∀ l acc, Forall P l → Forall P acc →
            Forall P (fold_left (λ acc x, insert_desc x acc) l acc)) as Hgen.
  { clear l. induction l as [|x l IH]; intros acc Hl Hacc; simpl; [done|].
    inversion_clear Hl as [|?? Hx Hl'].
    apply IH; [done | by apply insert_desc_Forall]. }
  intros Hl. by apply Hgen.
Qed.

Lemma ranked_Forall (opts : list jsstring) (maxItems : nat)
    (scores : list nat) :
  length scores = length opts →
  Forall (λ o, o ∈ opts) (ranked opts maxItems scores).
Proof.
  intros Hlen. unfold ranked.
  apply List.Forall_forall. intros o Ho. rewrite in_map_iff in Ho.
  destruct Ho as (x & <- & Hx).
  assert (Forall (λ x : nat * nat, (x.1 < length opts)%nat)
            (take maxItems
               (sort_desc
                  (List.filter (λ x : nat * nat, Nat.ltb 0 x.2)
                     (imap (λ idx score, (idx, score)) scores))))) as Hall.
  { apply Forall_take, sort_desc_Forall, List.Forall_forall.
    intros y Hy. rewrite filter_In in Hy.
    destruct Hy as [Hy _]. apply list_elem_of_In in Hy.
    apply elem_of_lookup_imap in Hy as (i & s & -> & Hi).
    simpl. rewrite <- Hlen. by eapply lookup_lt_Some. }
  rewrite List.Forall_forall in Hall. apply opt_at_elem. by apply Hall.
Qed.

Lemma ranked_length (opts : list jsstring) (maxItems : nat)
    (scores : list nat) :
  (length (ranked opts maxItems scores) ≤ maxItems)%nat.
Proof.
  unfold ranked. rewrite length_map, length_take. lia.
Qed.

(** ensureMultiSelect returns allowed options only, at most
    [effective_maxItems] of them. *)
Lemma ensureMultiSelect_allowed (q : Question) (value : JsValue)
    (base : gmap jsstring JsValue) :
  (1 ≤ effective_maxItems q)%nat →
  Forall (λ o, o ∈ getAllowed q) (ensureMultiSelect q value base).1
  ∧ (length (ensureMultiSelect q value base).1 ≤ effective_maxItems q)%nat.
Proof.
  intros Hmax. unfold ensureMultiSelect.
  destruct (Nat.ltb 0 (length (fold_left _ _ _))).
  { simpl. split.
    - apply Forall_take, selected_Forall. constructor.
    - rewrite length_take. lia. }
  match goal with |- context [Nat.ltb 0 (length ?r)] => set (rk := r) end.
  assert (Forall (λ o, o ∈ getAllowed q) rk
          ∧ (length rk ≤ effective_maxItems q)%nat) as Hrk.
  { subst rk. destruct (_ && _).
    - split; [apply ranked_Forall, scored_length | apply ranked_length].
    - split; [constructor | simpl; lia]. }
  destruct (Nat.ltb 0 (length rk)); [done|].
  destruct (hasAutre q) eqn:Ha; simpl.
  - split; [|done]. constructor; [by apply hasAutre_label | constructor].
  - split; [constructor | lia].
Qed.

(** With an escape option the result is never the empty list. *)
Lemma ensureMultiSelect_nonempty (q : Question) (value : JsValue)
    (base : gmap jsstring JsValue) :
  (1 ≤ effective_maxItems q)%nat → hasAutre q = true →
  (ensureMultiSelect q value base).1 ≠ [].
Proof.
  intros Hmax Ha. unfold ensureMultiSelect.
  destruct (Nat.ltb 0 (length (fold_left _ _ _))) eqn:Hsel.
  { simpl. apply Nat.ltb_lt in Hsel. intros Hnil.
    apply (f_equal length) in Hnil. rewrite length_take in Hnil.
    simpl in Hnil. lia. }
  match goal with |- context [Nat.ltb 0 (length ?r)] => set (rk := r) end.
  destruct (Nat.ltb 0 (length rk)) eqn:Hrk.
  { simpl. apply Nat.ltb_lt in Hrk. intros Hnil. rewrite Hnil in Hrk.
    simpl in Hrk. lia. }
  rewrite Ha. done.
Qed.

Lemma store_autre_multi_lookup (q : Question) (text k : jsstring)
    (value : JsValue) (base : gmap jsstring JsValue) :
  Types.autreKey q ≠ Some k →
  store_autre_multi q text value base !! k = base !! k.
Proof.
  intros Hk. unfold store_autre_multi.
  destruct (Types.autreKey q) as [a|]; [|done].
  destruct (_ && _); [|done].
  apply lookup_insert_ne. congruence.
Qed.

Lemma ensureMultiSelect_frame (q : Question) (value : JsValue)
    (base : gmap jsstring JsValue) (k : jsstring) :
  Types.autreKey q ≠ Some k →
  (ensureMultiSelect q value base).2 !! k = base !! k.
Proof.
  intros Hk. unfold ensureMultiSelect.
  repeat match goal with
         | |- context [if ?b then _ else _] => destruct b
         end; simpl; try done; by apply store_autre_multi_lookup.
Qed.

End MultiFacts.
(** ** The catalogue *)

Lemma QUESTIONS_well_formed : Forall (λ q, well_formed q = true) QUESTIONS.
Proof. apply List.Forall_forall, forallb_forall. vm_compute. reflexivity. Qed.

Lemma notionKeys_NoDup : NoDup notionKeys.
Proof. apply (bool_decide_unpack _). vm_compute. reflexivity. Qed.

(** No escape key and no metadata key is the key of a schema entry. *)
Lemma autreKeys_not_notionKeys :
  Forall (λ k, k ∉ notionKeys) autreKeys.
Proof.
  apply List.Forall_forall. intros k Hk Hin.
  apply includes_elem in Hin.
  assert (forallb (λ k, negb (includes notionKeys k)) autreKeys = true) as H
    by (vm_compute; reflexivity).
  rewrite forallb_forall in H. specialize (H k Hk). by rewrite Hin in H.
Qed.

Lemma metadata_keys_not_notionKeys :
  Forall (λ k, k ∉ notionKeys) metadata_keys.
Proof.
  apply List.Forall_forall. intros k Hk Hin.
  apply includes_elem in Hin.
  assert (forallb (λ k, negb (includes notionKeys k)) metadata_keys = true)
    as H by (vm_compute; reflexivity).
  rewrite forallb_forall in H. specialize (H k Hk). by rewrite Hin in H.
Qed.

Lemma notionKey_elem (q : Question) :
  q ∈ QUESTIONS → Types.notionKey q ∈ notionKeys.
Proof.
  intros Hq. unfold notionKeys. apply list_elem_of_In, in_map.
  by apply list_elem_of_In.
Qed.

Lemma autreKey_elem (q : Question) (k : jsstring) :
  q ∈ QUESTIONS → Types.autreKey q = Some k → k ∈ autreKeys.
Proof.
  intros Hq Hk. unfold autreKeys. apply list_elem_of_omap. by exists q.
Qed.

Lemma notionKey_not_autreKey (q q' : Question) :
  q ∈ QUESTIONS → q' ∈ QUESTIONS →
  Types.autreKey q' ≠ Some (Types.notionKey q).
Proof.
  intros Hq Hq' Heq.
  pose proof autreKeys_not_notionKeys as H.
  rewrite List.Forall_forall in H.
  apply (H (Types.notionKey q)).
  - apply list_elem_of_In. by eapply autreKey_elem.
  - by apply notionKey_elem.
Qed.

Lemma notionKey_not_metadata (q : Question) :
  q ∈ QUESTIONS → Types.notionKey q ∉ metadata_keys.
Proof.
  intros Hq Hin.
  pose proof metadata_keys_not_notionKeys as H.
  rewrite List.Forall_forall in H.
  apply (H (Types.notionKey q)); [by apply list_elem_of_In|].
  by apply notionKey_elem.
Qed.
(** ** The enforcement loop *)

Section LoopFacts.
Context `{RT : JsRuntime}.

Lemma getprop_insert (base : gmap jsstring JsValue) (k : jsstring)
    (v : JsValue) :
  getprop (<[k := v]> base) k = v.
Proof. unfold getprop. by rewrite lookup_insert_eq. Qed.

(** A step of the loop writes the entry's key and, at most, its escape
    key. *)
Lemma enforce_frame (base : gmap jsstring JsValue) (q : Question)
    (k : jsstring) :
  k ≠ Types.notionKey q → Types.autreKey q ≠ Some k →
  enforce base q !! k = base !! k.
Proof.
  intros Hk Ha. unfold enforce. destruct (Types.type q).
  - rewrite lookup_insert_ne by done. by apply ensureSelect_frame.
  - rewrite lookup_insert_ne by done. by apply ensureMultiSelect_frame.
  - destruct (nullish _); [|done]. by rewrite lookup_insert_ne.
  - by rewrite lookup_insert_ne.
Qed.

Lemma forallb_is_allowed (q : Question) (l : list jsstring) :
  Forall (λ o, o ∈ getAllowed q) l →
  forallb (is_allowed q) (List.map JStr l) = true.
Proof.
  induction 1 as [|o l Ho Hl IH]; simpl; [done|].
  rewrite IH, andb_true_r. by apply includes_elem.
Qed.

(** What a step of the loop leaves at the entry's key. *)
Lemma enforce_entry (base : gmap jsstring JsValue) (q : Question) :
  well_formed q = true →
  entry_guarantee q (getprop base (Types.notionKey q))
    (getprop (enforce base q) (Types.notionKey q)).
Proof.
  intros Hwf. unfold well_formed in Hwf. apply andb_prop in Hwf as [_ Hwf].
  unfold entry_guarantee, enforce, satisfies_kind.
  destruct (Types.type q).
  - rewrite getprop_insert. simpl. apply includes_elem.
    apply ensureSelect_allowed. apply Nat.ltb_lt in Hwf.
    destruct (getAllowed q); [simpl in Hwf; lia | done].
  - rewrite getprop_insert.
    apply andb_prop in Hwf as [Hmax _].
    destruct (Types.maxItems q) as [[|m]|] eqn:Hm; try done.
    destruct (ensureMultiSelect_allowed q
                (getprop base (Types.notionKey q)) base) as [Hall Hlen].
    { unfold effective_maxItems. rewrite Hm. lia. }
    apply andb_true_intro. split; [by apply forallb_is_allowed|].
    unfold within_maxItems. rewrite Hm, length_map. apply Nat.leb_le.
    unfold effective_maxItems in Hlen. by rewrite Hm in Hlen.
  - unfold passed_through.
    destruct (nullish (getprop base (Types.notionKey q))) eqn:Hn;
      [by rewrite getprop_insert | done].
  - by rewrite getprop_insert.
Qed.

(** A non-empty input leaves a non-empty entry. *)
Lemma enforce_holds (base : gmap jsstring JsValue) (q : Question) :
  well_formed q = true →
  holds_something (getprop base (Types.notionKey q)) = true →
  holds_something (getprop (enforce base q) (Types.notionKey q)) = true.
Proof.
  intros Hwf Hin. unfold well_formed in Hwf.
  apply andb_prop in Hwf as [Hopts Hwf].
  unfold enforce. destruct (Types.type q).
  - rewrite getprop_insert. simpl.
    rewrite forallb_forall in Hopts. apply Hopts.
    apply list_elem_of_In, ensureSelect_allowed. apply Nat.ltb_lt in Hwf.
    destruct (getAllowed q); [simpl in Hwf; lia | done].
  - rewrite getprop_insert. simpl.
    apply andb_prop in Hwf as [Hmax Ha].
    pose proof (ensureMultiSelect_nonempty q
                  (getprop base (Types.notionKey q)) base) as Hne.
    destruct (ensureMultiSelect q _ base).1; [|done].
    exfalso. apply Hne; [|done..].
    unfold effective_maxItems.
    destruct (Types.maxItems q) as [[|m]|]; try done. lia.
  - destruct (nullish _) eqn:Hn; [|done].
    destruct (getprop base (Types.notionKey q)); done.
  - by rewrite getprop_insert.
Qed.

Lemma fold_enforce_frame (qs : list Question)
    (base : gmap jsstring JsValue) (k : jsstring) :
  Forall (λ q, k ≠ Types.notionKey q ∧ Types.autreKey q ≠ Some k) qs →
  fold_left enforce qs base !! k = base !! k.
Proof.
  revert base. induction qs as [|a qs IH]; intros base Hqs; simpl; [done|].
  inversion_clear Hqs as [|?? [Hk Ha] Hrest].
  rewrite IH by done. by apply enforce_frame.
Qed.

(** The loop leaves at an entry's key what that entry's own step wrote,
    and that step read the key as it was before the loop. *)
Lemma fold_enforce_entry (qs : list Question)
    (base : gmap jsstring JsValue) (q : Question) :
  q ∈ qs →
  NoDup (List.map Types.notionKey qs) →
  Forall (λ q', Types.autreKey q' ≠ Some (Types.notionKey q)) qs →
  ∃ base', base' !! Types.notionKey q = base !! Types.notionKey q
           ∧ fold_left enforce qs base !! Types.notionKey q
             = enforce base' q !! Types.notionKey q.
Proof.
  revert base. induction qs as [|a qs IH]; intros base Hq Hnd Ha.
  { by apply elem_of_nil in Hq. }
  simpl in *. inversion_clear Hnd as [|?? Hhead Hnd'].
  inversion_clear Ha as [|?? Ha1 Harest].
  apply elem_of_cons in Hq as [-> | Hq].
  - exists base. split; [done|]. apply fold_enforce_frame.
    apply List.Forall_forall. intros q' Hq'. split.
    + intros Heq. apply Hhead. rewrite Heq.
      by apply list_elem_of_In, in_map.
    + rewrite List.Forall_forall in Harest. by apply Harest.
  - destruct (IH (enforce base a) Hq Hnd' Harest) as (base' & Hb & Hf).
    exists base'. split; [|done]. rewrite Hb. apply enforce_frame; [|done].
    intros Heq. apply Hhead. rewrite <- Heq.
    apply list_elem_of_In, in_map. by apply list_elem_of_In.
Qed.

(** The metadata are written under the metadata keys only. *)
Lemma attach_metadata_frame (env : Ambient) (base : gmap jsstring JsValue)
    (k : jsstring) :
  k ∉ metadata_keys → attach_metadata env base !! k = base !! k.
Proof.
  intros Hk. unfold metadata_keys in Hk.
  repeat (apply not_elem_of_cons in Hk as [? Hk]).
  unfold attach_metadata, derive_name.
  assert (∀ (b : gmap jsstring JsValue) v, <[key_nom := v]> b !! k = b !! k)
    as Hnom by (intros; by apply lookup_insert_ne).
  match goal with
  | |- context [match ?x with JStr _ => _ | _ => _ end] => destruct x
  end;
    try match goal with
        | |- context [if ?b then _ else _] => destruct b
        end;
    rewrite ?Hnom; by rewrite !lookup_insert_ne.
Qed.

End LoopFacts.
(** ** Stage B: schema closure, determinism, candidate keys *)

Section PayloadFacts.
Context `{RT : JsRuntime}.

Lemma payload_entry (env : Ambient) (rawData : gmap jsstring JsValue)
    (transcript : list TranscriptEntry)
    (candidate : option (gmap jsstring JsValue)) (q : Question) :
  q ∈ QUESTIONS →
  ∃ base', getprop base' (Types.notionKey q) = input_of rawData candidate q
           ∧ getprop (buildGuaranteedPayload env rawData transcript candidate)
               (Types.notionKey q)
             = getprop (enforce base' q) (Types.notionKey q).
Proof.
  intros Hq.
  destruct (fold_enforce_entry QUESTIONS (default ∅ candidate ∪ rawData) q)
    as (base' & Hb & Hf); [done | apply notionKeys_NoDup | |].
  { apply List.Forall_forall. intros q' Hq'.
    apply notionKey_not_autreKey; [done | by apply list_elem_of_In]. }
  exists base'. unfold input_of, getprop, buildGuaranteedPayload.
  rewrite Hb. split; [done|].
  rewrite attach_metadata_frame by by apply notionKey_not_metadata.
  by rewrite Hf.
Qed.

Lemma enforce_keeps (base : gmap jsstring JsValue) (q : Question)
    (k : jsstring) (v : JsValue) :
  base !! k = Some v → k ≠ Types.notionKey q →
  (Types.autreKey q = Some k → truthy v = true) →
  enforce base q !! k = Some v.
Proof.
  intros Hb Hk Ha.
  destruct (decide (Types.autreKey q = Some k)) as [Heq|Hne];
    [|by rewrite enforce_frame].
  assert (∀ text, store_autre q text base = base) as Hs.
  { intros text. unfold store_autre, getprop. rewrite Heq, Hb. simpl.
    rewrite (Ha Heq). by rewrite andb_false_r. }
  assert (∀ text value, store_autre_multi q text value base = base) as Hm.
  { intros text value. unfold store_autre_multi, getprop. rewrite Heq, Hb.
    simpl. rewrite (Ha Heq). by rewrite andb_false_r. }
  unfold enforce. destruct (Types.type q).
  - rewrite lookup_insert_ne by done. unfold ensureSelect.
    repeat match goal with
           | |- context [if ?b then _ else _] => destruct b
           | |- context [match ?x with Some _ => _ | None => _ end] =>
             destruct x
           end; simpl; rewrite ?Hs; done.
  - rewrite lookup_insert_ne by done. unfold ensureMultiSelect.
    repeat match goal with
           | |- context [if ?b then _ else _] => destruct b
           end; simpl; rewrite ?Hm; done.
  - destruct (nullish _); [|done]. by rewrite lookup_insert_ne.
  - by rewrite lookup_insert_ne.
Qed.

Lemma fold_enforce_keeps (qs : list Question)
    (base : gmap jsstring JsValue) (k : jsstring) (v : JsValue) :
  base !! k = Some v →
  Forall (λ q, k ≠ Types.notionKey q
               ∧ (Types.autreKey q = Some k → truthy v = true)) qs →
  fold_left enforce qs base !! k = Some v.
Proof.
  revert base. induction qs as [|a qs IH]; intros base Hb Hqs; simpl;
    [done|].
  inversion_clear Hqs as [|?? [Hk Ha] Hrest].
  apply IH; [|done]. by apply enforce_keeps.
Qed.

End PayloadFacts.
(** C1, as stated, fails: a free-text entry for which the candidate proposes
    a number is passed through as that number, so it is not a string. *)
Lemma free_text_entry_not_a_string :
  let candidate : gmap jsstring (@JsValue Latin1.runtime) :=
    {[ key_email := Latin1.num 42 ]} in
  let payload := buildGuaranteedPayload env0 ∅ [] (Some candidate) in
  getprop payload (Types.notionKey q20) = Latin1.num 42
  ∧ satisfies_kind q20 (getprop payload (Types.notionKey q20)) = false
  ∧ schema_valid payload = false.
Proof. vm_compute. repeat split; reflexivity. Qed.

(** C1 (amended): for every raw-answer map, transcript and candidate, every
    schema entry of the payload of buildGuaranteedPayload satisfies its kind
    constraint when it is a select, multi-select or boolean entry (one
    allowed label; a list of allowed labels no longer than the maximum;
    true or false), and a free-text entry is the value read for it,
    unchanged, or the empty string when that value is undefined or null. *)
Theorem payload_entries_guaranteed `{RT : JsRuntime} (env : Ambient)
    (rawData : gmap jsstring JsValue) (transcript : list TranscriptEntry)
    (candidate : option (gmap jsstring JsValue)) :
  Forall
    (λ q, entry_guarantee q (input_of rawData candidate q)
            (getprop (buildGuaranteedPayload env rawData transcript candidate)
               (Types.notionKey q)))
    QUESTIONS.
Proof.
  apply List.Forall_forall. intros q Hq. apply list_elem_of_In in Hq.
  destruct (payload_entry env rawData transcript candidate q Hq)
    as (base' & Hin & Hout).
  rewrite Hout, <- Hin. apply enforce_entry.
  pose proof QUESTIONS_well_formed as Hwf.
  rewrite List.Forall_forall in Hwf. by apply Hwf, list_elem_of_In.
Qed.

(** C5: two runs of buildGuaranteedPayload on the same raw answers,
    transcript and candidate give the same entry for every schema key,
    whatever the session reference and the clock are at each run. *)
Theorem stage_B_deterministic `{RT : JsRuntime} (env1 env2 : Ambient)
    (rawData : gmap jsstring JsValue) (transcript : list TranscriptEntry)
    (candidate : option (gmap jsstring JsValue)) :
  Forall
    (λ q, buildGuaranteedPayload env1 rawData transcript candidate
            !! Types.notionKey q
          = buildGuaranteedPayload env2 rawData transcript candidate
              !! Types.notionKey q)
    QUESTIONS.
Proof.
  apply List.Forall_forall. intros q Hq. apply list_elem_of_In in Hq.
  unfold buildGuaranteedPayload.
  by rewrite !attach_metadata_frame by by apply notionKey_not_metadata.
Qed.

(** C10, as stated, fails: a candidate key that is the escape key of a
    schema question and carries an empty value is overwritten with the raw
    text of an answer that matched no option. *)
Lemma candidate_escape_key_overwritten :
  let k := js "Statut Répondant – Autre" in
  let candidate : gmap jsstring (@JsValue Latin1.runtime) :=
    {[ k := JStr [] ]} in
  let rawData : gmap jsstring (@JsValue Latin1.runtime) :=
    {[ Types.notionKey q06 := JStr (js "chef de projet") ]} in
  includes notionKeys k = false
  ∧ includes metadata_keys k = false
  ∧ candidate !! k = Some (JStr [])
  ∧ buildGuaranteedPayload env0 rawData [] (Some candidate) !! k
    = Some (JStr (js "chef de projet")).
Proof. vm_compute. repeat split; reflexivity. Qed.

(** C10 (amended): a candidate key that is neither the key of a schema
    question nor a metadata key, and that is not the escape key of a
    question unless its value is truthy, is in the payload with the
    candidate's value unchanged; and a key supplied by the candidate hides
    the raw answer under that key: validation reads the candidate's value
    and the payload does not depend on the raw answer. *)
Theorem candidate_keys_pass_through `{RT : JsRuntime} (env : Ambient)
    (rawData : gmap jsstring JsValue) (transcript : list TranscriptEntry)
    (candidate : gmap jsstring JsValue) (k : jsstring) (v : JsValue) :
  candidate !! k = Some v →
  (k ∉ notionKeys → k ∉ metadata_keys →
   (k ∈ autreKeys → truthy v = true) →
   buildGuaranteedPayload env rawData transcript (Some candidate) !! k
   = Some v)
  ∧ (∀ q, Types.notionKey q = k → input_of rawData (Some candidate) q = v)
  ∧ (∀ x, buildGuaranteedPayload env (<[k := x]> rawData) transcript
            (Some candidate)
          = buildGuaranteedPayload env rawData transcript (Some candidate)).
Proof.
  intros Hc. split; [|split].
  - intros Hnk Hmeta Hautre. unfold buildGuaranteedPayload.
    rewrite attach_metadata_frame by done.
    apply fold_enforce_keeps.
    + change (default ∅ (Some candidate)) with candidate.
      by apply lookup_union_Some_l.
    + apply List.Forall_forall. intros q Hq. apply list_elem_of_In in Hq.
      split.
      * intros ->. by apply Hnk, notionKey_elem.
      * intros Ha. by eapply Hautre, autreKey_elem.
  - intros q <-. unfold input_of, getprop.
    change (default ∅ (Some candidate)) with candidate.
    by rewrite (lookup_union_Some_l _ _ _ _ Hc).
  - intros x. unfold buildGuaranteedPayload.
    change (default ∅ (Some candidate)) with candidate.
    replace (candidate ∪ <[k := x]> rawData) with (candidate ∪ rawData);
      [done|].
    apply map_eq. intros i. rewrite !lookup_union.
    destruct (decide (k = i)) as [<-|Hne].
    + rewrite Hc, lookup_insert_eq. by destruct (rawData !! k).
    + by rewrite lookup_insert_ne.
Qed.

Lemma candidate_keys_pass_through_witness :
  let k := js "note" in
  let candidate : gmap jsstring (@JsValue Latin1.runtime) :=
    {[ k := JStr (js "rappeler lundi") ]} in
  buildGuaranteedPayload env0 ∅ [] (Some candidate) !! k
  = Some (JStr (js "rappeler lundi")).
Proof.
  intros k candidate.
  refine (proj1 (candidate_keys_pass_through env0 ∅ [] candidate k
                   (JStr (js "rappeler lundi")) _) _ _ _).
  - vm_compute. reflexivity.
  - intros H. apply includes_elem in H. vm_compute in H. discriminate.
  - intros H. apply includes_elem in H. vm_compute in H. discriminate.
  - intros _. vm_compute. reflexivity.
Defined.

(** ** Exceptions in Stage B *)

Section ExceptionFacts.
Context `{RT : JsRuntime}.

Lemma raises_coalesce (v : JsValue) :
  raises (coalesce v (JStr [])) = raises v.
Proof. by destruct v. Qed.

Lemma raises_js_or (v : JsValue) :
  raises v = false → raises (js_or v (JStr [])) = false.
Proof. intros H. unfold js_or. by destruct (truthy v). Qed.

Lemma raises_element (x : JsValue) :
  match x with JUndefined | JNull => false | _ => raises x end = raises x.
Proof. by destruct x. Qed.

Lemma Exn_toString_returns (v : JsValue) :
  raises v = false → Exn.toString v = Return (toString v).
Proof. intros H. unfold Exn.toString. by rewrite H. Qed.

Lemma Exn_toString_sound (v : JsValue) (s : jsstring) :
  Exn.toString v = Return s → s = toString v.
Proof. unfold Exn.toString. destruct (raises v); [done|]. by intros [= <-]. Qed.

(** The conversions of the elements of an array, when none raises. *)
Lemma map_c_tokens (l : list JsValue) (tokens : list jsstring) :
  map_c (λ x, s ← Exn.toString (coalesce x (JStr [])); Return (trim s)) l
  = Return tokens →
  tokens = List.map (λ x, trim (toString (coalesce x (JStr [])))) l.
Proof.
  revert tokens. induction l as [|x l IH]; intros tokens; cbn [map_c List.map].
  { by intros [= <-]. }
  destruct (Exn.toString (coalesce x (JStr []))) as [s|e] eqn:Hs;
    simpl; [|done].
  destruct (map_c _ l) as [ys|e]; simpl; [|done].
  intros [= <-]. by rewrite (IH ys), (Exn_toString_sound _ _ Hs).
Qed.

Lemma map_c_tokens_returns (l : list JsValue) :
  raises (JArr l) = false →
  map_c (λ x, s ← Exn.toString (coalesce x (JStr [])); Return (trim s)) l
  = Return (List.map (λ x, trim (toString (coalesce x (JStr [])))) l).
Proof.
  induction l as [|x l IH]; [done|]. cbn [raises existsb].
  rewrite raises_element. intros H. apply orb_false_iff in H as [Hx Hl].
  cbn [map_c List.map]. rewrite Exn_toString_returns
    by by rewrite raises_coalesce.
  simpl. rewrite IH by done. done.
Qed.

Lemma Exn_parseTokens_sound (v : JsValue) (tokens : list jsstring) :
  Exn.parseTokens v = Return tokens → tokens = parseTokens v.
Proof.
  unfold Exn.parseTokens.
  destruct v as [| | | | |l|]; try by intros [= <-].
  destruct (map_c _ l) as [ts|e] eqn:Hm; simpl; [|done].
  intros [= <-]. simpl. by rewrite (map_c_tokens l ts Hm).
Qed.

Lemma Exn_parseTokens_returns (v : JsValue) :
  raises v = false → Exn.parseTokens v = Return (parseTokens v).
Proof.
  intros H. unfold Exn.parseTokens.
  destruct v as [| | | | |l|]; try done.
  by rewrite map_c_tokens_returns.
Qed.

Lemma Exn_store_autre_multi_sound (q : Question) (text : jsstring)
    (value : JsValue) (base base' : gmap jsstring JsValue) :
  Exn.store_autre_multi q text value base = Return base' →
  base' = store_autre_multi q text value base.
Proof.
  unfold Exn.store_autre_multi, store_autre_multi,
    Exn.autre_fallback_text, autre_fallback_text.
  destruct (Types.autreKey q) as [k|]; [|by intros [= <-]].
  destruct (_ && _); [|by intros [= <-]].
  destruct (nonempty text); simpl; [by intros [= <-]|].
  destruct (Exn.toString _) as [s|e] eqn:Hs; simpl; [|done].
  intros [= <-]. by rewrite (Exn_toString_sound _ _ Hs).
Qed.

Lemma Exn_store_autre_multi_returns (q : Question) (text : jsstring)
    (value : JsValue) (base : gmap jsstring JsValue) :
  raises value = false →
  Exn.store_autre_multi q text value base
  = Return (store_autre_multi q text value base).
Proof.
  intros H.
  unfold Exn.store_autre_multi, store_autre_multi,
    Exn.autre_fallback_text, autre_fallback_text.
  destruct (Types.autreKey q) as [k|]; [|done].
  destruct (_ && _); [|done].
  destruct (nonempty text); simpl; [done|].
  by rewrite Exn_toString_returns by by apply raises_js_or.
Qed.

Lemma Exn_ensureMultiSelect_sound (q : Question) (value : JsValue)
    (base : gmap jsstring JsValue)
    (r : list jsstring * gmap jsstring JsValue) :
  Exn.ensureMultiSelect q value base = Return r →
  r = ensureMultiSelect q value base.
Proof.
  unfold Exn.ensureMultiSelect, ensureMultiSelect.
  destruct (Exn.parseTokens value) as [tokens|e] eqn:Ht; simpl; [|done].
  rewrite <- (Exn_parseTokens_sound _ _ Ht).
  destruct (Nat.ltb 0 (length (fold_left _ tokens []))); [by intros [= <-]|].
  match goal with
  | |- context [Nat.ltb 0 (length ?x)] => destruct (Nat.ltb 0 (length x))
  end; [by intros [= <-]|].
  destruct (hasAutre q); [|by intros [= <-]].
  destruct (Exn.store_autre_multi _ _ _ _) as [b|e] eqn:Hb; simpl; [|done].
  intros [= <-]. by rewrite (Exn_store_autre_multi_sound _ _ _ _ _ Hb).
Qed.

Lemma Exn_ensureMultiSelect_returns (q : Question) (value : JsValue)
    (base : gmap jsstring JsValue) :
  raises value = false →
  Exn.ensureMultiSelect q value base
  = Return (ensureMultiSelect q value base).
Proof.
  intros H. unfold Exn.ensureMultiSelect, ensureMultiSelect.
  rewrite Exn_parseTokens_returns by done. simpl.
  destruct (Nat.ltb 0 (length (fold_left _ _ []))); [done|].
  match goal with
  | |- context [Nat.ltb 0 (length ?x)] => destruct (Nat.ltb 0 (length x))
  end; [done|].
  destruct (hasAutre q); [|done].
  by rewrite Exn_store_autre_multi_returns.
Qed.

Lemma Exn_enforce_sound (base base' : gmap jsstring JsValue) (q : Question) :
  Exn.enforce base q = Return base' → base' = enforce base q.
Proof.
  unfold Exn.enforce, enforce, Exn.ensureSelect, Exn.ensureBool.
  destruct (Types.type q).
  - destruct (Exn.toString _); simpl; [|done]. by intros [= <-].
  - destruct (Exn.ensureMultiSelect _ _ _) as [r|e] eqn:Hr; simpl; [|done].
    intros [= <-]. by rewrite (Exn_ensureMultiSelect_sound _ _ _ _ Hr).
  - by intros [= <-].
  - destruct (getprop base (Types.notionKey q)) eqn:Hv;
      try (destruct (Exn.toString _); simpl; [|done]); by intros [= <-].
Qed.

Lemma Exn_enforce_returns (base : gmap jsstring JsValue) (q : Question) :
  raises (getprop base (Types.notionKey q)) = false →
  Exn.enforce base q = Return (enforce base q).
Proof.
  intros H. unfold Exn.enforce, enforce, Exn.ensureSelect, Exn.ensureBool.
  destruct (Types.type q).
  - by rewrite Exn_toString_returns by by rewrite raises_coalesce.
  - by rewrite Exn_ensureMultiSelect_returns.
  - done.
  - destruct (getprop base (Types.notionKey q)) eqn:Hv; try done;
      by rewrite Exn_toString_returns.
Qed.

Lemma Exn_enforce_all_sound (qs : list Question)
    (base base' : gmap jsstring JsValue) :
  Exn.enforce_all qs base = Return base' → base' = fold_left enforce qs base.
Proof.
  revert base. induction qs as [|q qs IH]; intros base; simpl.
  { by intros [= <-]. }
  destruct (Exn.enforce base q) as [b|e] eqn:Hb; simpl; [|done].
  rewrite <- (Exn_enforce_sound _ _ _ Hb). apply IH.
Qed.

Lemma Exn_enforce_all_returns (qs : list Question)
    (base : gmap jsstring JsValue) :
  NoDup (List.map Types.notionKey qs) →
  Forall (λ q, Forall (λ q', Types.autreKey q' ≠ Some (Types.notionKey q)) qs)
    qs →
  Forall (λ q, raises (getprop base (Types.notionKey q)) = false) qs →
  Exn.enforce_all qs base = Return (fold_left enforce qs base).
Proof.
  revert base. induction qs as [|q qs IH]; intros base Hnd Ha Hr; [done|].
  cbn [List.map] in Hnd. inversion_clear Hnd as [|?? Hhead Hnd'].
  inversion_clear Ha as [|?? Haq Harest].
  inversion_clear Hr as [|?? Hq Hrest].
  cbn [Exn.enforce_all fold_left]. rewrite Exn_enforce_returns by done.
  simpl. apply IH; [done | |].
  - apply List.Forall_forall. intros q1 Hq1.
    rewrite List.Forall_forall in Harest. specialize (Harest q1 Hq1).
    by inversion_clear Harest.
  - apply List.Forall_forall. intros q1 Hq1.
    rewrite List.Forall_forall in Hrest. specialize (Hrest q1 Hq1).
    unfold getprop in *. rewrite enforce_frame; [done | |].
    + intros Heq. apply Hhead. rewrite <- Heq.
      apply list_elem_of_In, in_map, Hq1.
    + inversion_clear Haq as [|?? Hself Hothers].
      rewrite List.Forall_forall in Harest. specialize (Harest q1 Hq1).
      by inversion_clear Harest.
Qed.

(** What Stage B returns is the payload of buildGuaranteedPayload. *)
Lemma Exn_buildGuaranteedPayload_sound (env : Ambient)
    (rawData : gmap jsstring JsValue) (transcript : list TranscriptEntry)
    (candidate : option (gmap jsstring JsValue))
    (payload : gmap jsstring JsValue) :
  Exn.buildGuaranteedPayload env rawData transcript candidate
  = Return payload →
  payload = buildGuaranteedPayload env rawData transcript candidate.
Proof.
  unfold Exn.buildGuaranteedPayload, buildGuaranteedPayload.
  destruct (Exn.enforce_all _ _) as [b|e] eqn:Hb; simpl; [|done].
  intros [= <-]. by rewrite (Exn_enforce_all_sound _ _ _ Hb).
Qed.

(** Stage B returns when every answer it reads for a question renders. *)
Lemma Exn_buildGuaranteedPayload_returns (env : Ambient)
    (rawData : gmap jsstring JsValue) (transcript : list TranscriptEntry)
    (candidate : option (gmap jsstring JsValue)) :
  renders (default ∅ candidate ∪ rawData) = true →
  Exn.buildGuaranteedPayload env rawData transcript candidate
  = Return (buildGuaranteedPayload env rawData transcript candidate).
Proof.
  intros Hr. unfold Exn.buildGuaranteedPayload, buildGuaranteedPayload.
  rewrite Exn_enforce_all_returns; [done | apply notionKeys_NoDup | |].
  - apply List.Forall_forall. intros q Hq.
    apply List.Forall_forall. intros q' Hq'.
    apply notionKey_not_autreKey; by apply list_elem_of_In.
  - apply List.Forall_forall. intros q Hq.
    unfold renders in Hr. rewrite forallb_forall in Hr.
    specialize (Hr q Hq). by apply negb_true_iff in Hr.
Qed.

Lemma renders_no_candidate (rawData : gmap jsstring JsValue) :
  renders (default ∅ None ∪ rawData) = renders rawData.
Proof. simpl. by rewrite (left_id_L ∅ (∪)). Qed.

End ExceptionFacts.

(** ** Stage A and the failures of the mapping *)

Section NormalizeFacts.
Context `{RT : JsRuntime}.

(** A failed mapping leaves the payload built from the raw data alone. *)
Lemma normalizeAuditData_fallback (env : Ambient)
    (transcript : list TranscriptEntry) (rawData : gmap jsstring JsValue)
    (proxy : FetchOutcome) :
  mapping_failed proxy = true →
  renders rawData = true →
  normalizeAuditData env transcript rawData proxy
  = Return (buildGuaranteedPayload env rawData transcript None).
Proof.
  intros Hfail Hr.
  pose proof (Exn_buildGuaranteedPayload_returns env rawData transcript None)
    as Hnone.
  rewrite renders_no_candidate in Hnone. specialize (Hnone Hr).
  unfold normalizeAuditData. unfold mapping_failed in Hfail.
  destruct proxy as [name | ok body];
    cbn [fetch mbind completion_bind try_catch fst snd]; [done|].
  destruct ok; cbn [negb orb] in *; [|by rewrite Hnone].
  destruct body as [data|]; cbn [default id].
  - destruct (candidate_of data); [done|]. by rewrite Hnone.
  - replace (candidate_of (JObj [])) with (@None (gmap jsstring JsValue))
      by reflexivity.
    by rewrite Hnone.
Qed.

(** With raw answers that render, normalizeAuditData returns the payload
    built with the candidate, or without it when the candidate makes
    Stage B raise. *)
Lemma normalizeAuditData_returns (env : Ambient)
    (transcript : list TranscriptEntry) (rawData : gmap jsstring JsValue)
    (proxy : FetchOutcome) :
  renders rawData = true →
  ∃ candidate,
    normalizeAuditData env transcript rawData proxy
    = Return (buildGuaranteedPayload env rawData transcript candidate).
Proof.
  intros Hr.
  pose proof (Exn_buildGuaranteedPayload_returns env rawData transcript None)
    as Hnone.
  rewrite renders_no_candidate in Hnone. specialize (Hnone Hr).
  unfold normalizeAuditData.
  destruct proxy as [name | ok body];
    cbn [fetch mbind completion_bind try_catch fst snd];
    [exists None; by rewrite Hnone|].
  destruct ok; cbn [negb]; [|exists None; by rewrite Hnone].
  destruct (Exn.buildGuaranteedPayload env rawData transcript
              (candidate_of (default (JObj []) body))) as [p|e] eqn:Hp;
    cbn [try_catch].
  - exists (candidate_of (default (JObj []) body)).
    by rewrite (Exn_buildGuaranteedPayload_sound _ _ _ _ _ Hp).
  - exists None. by rewrite Hnone.
Qed.

Lemma input_of_no_candidate (rawData : gmap jsstring JsValue)
    (q : Question) :
  input_of rawData None q = getprop rawData (Types.notionKey q).
Proof. unfold input_of. simpl. by rewrite (left_id_L ∅ (∪)). Qed.

End NormalizeFacts.

(** An answer that cannot be rendered makes the whole of normalizeAuditData
    raise: the call of the [catch] block raises as the one of the [try]
    block did. *)
Lemma normalizeAuditData_raises :
  let rawData : gmap jsstring (@JsValue Latin1.runtime) :=
    {[ Types.notionKey q01 := JObj [(js "toString", JNull)] ]} in
  normalizeAuditData env0 [] rawData (Rejected AbortError) = Throw TypeError
  ∧ normalizeAuditData env0 [] rawData (Responded true None)
    = Throw TypeError.
Proof. vm_compute. split; reflexivity. Qed.

(** C4, as stated, fails for the same reason as C1: with the mapping call
    rejected, a free-text entry collected as a number stays a number. *)
Lemma fallback_payload_not_schema_valid :
  let rawData : gmap jsstring (@JsValue Latin1.runtime) :=
    {[ key_email := Latin1.num 42 ]} in
  ∃ payload,
    normalizeAuditData env0 [] rawData (Rejected AbortError) = Return payload
    ∧ schema_valid payload = false.
Proof.
  intros rawData.
  exists (buildGuaranteedPayload env0 rawData [] None). split.
  - apply normalizeAuditData_fallback; vm_compute; reflexivity.
  - vm_compute. reflexivity.
Qed.

(** C4 (amended): when the semantic-mapping call fails and every answer
    collected for a question can be rendered as text (none is an object
    with a toString entry of its own), normalizeAuditData still returns a
    payload (the failure is not propagated); in it every select,
    multi-select and boolean entry satisfies its kind constraint, every
    free-text entry is the raw value unchanged (the empty string when
    absent), and every entry whose raw input is non-empty is non-empty. *)
Theorem fallback_independence `{RT : JsRuntime} (env : Ambient)
    (transcript : list TranscriptEntry) (rawData : gmap jsstring JsValue)
    (proxy : FetchOutcome) :
  mapping_failed proxy = true →
  renders rawData = true →
  ∃ payload,
    normalizeAuditData env transcript rawData proxy = Return payload
    ∧ Forall
        (λ q,
           let raw := getprop rawData (Types.notionKey q) in
           let out := getprop payload (Types.notionKey q) in
           entry_guarantee q raw out
           ∧ (holds_something raw = true → holds_something out = true))
        QUESTIONS.
Proof.
  intros Hfail Hr. eexists. split; [by apply normalizeAuditData_fallback|].
  apply List.Forall_forall. intros q Hq. apply list_elem_of_In in Hq.
  destruct (payload_entry env rawData transcript None q Hq)
    as (base' & Hin & Hout).
  rewrite input_of_no_candidate in Hin.
  assert (well_formed q = true) as Hwf.
  { pose proof QUESTIONS_well_formed as Hwf.
    rewrite List.Forall_forall in Hwf. by apply Hwf, list_elem_of_In. }
  cbv zeta. rewrite Hout, <- Hin. split.
  - by apply enforce_entry.
  - by apply enforce_holds.
Qed.

Lemma fallback_independence_witness :
  let rawData : gmap jsstring (@JsValue Latin1.runtime) :=
    {[ Types.notionKey q04 := JStr (js "on teste un peu à petite échelle") ]} in
  ∃ payload,
    normalizeAuditData env0 [] rawData (Responded false None) = Return payload
    ∧ Forall
        (λ q,
           let raw := getprop rawData (Types.notionKey q) in
           let out := getprop payload (Types.notionKey q) in
           entry_guarantee q raw out
           ∧ (holds_something raw = true → holds_something out = true))
        QUESTIONS.
Proof.
  intros rawData.
  apply (fallback_independence env0 [] rawData (Responded false None)).
  - reflexivity.
  - vm_compute. reflexivity.
Defined.

(** ** The maturity questions *)

(** C9: for q04 the raw value "on teste un peu à petite échelle" resolves,
    through ensureSelect, to the small-scale-experimentation option. *)
Theorem q04_small_scale_scenario (base : gmap jsstring JsValue) :
  (@ensureSelect Latin1.runtime q04
     (JStr (js "on teste un peu à petite échelle")) base).1
  = js "Nous expérimentons les nouvelles technologies à petite échelle et de manière informelle.".
Proof. vm_compute. reflexivity. Qed.

(** C3: the claim does not hold of the code.  On q01 the text "POC en
    cours de mise en œuvre", which carries the deployment keyword
    "en cours", resolves to the first, no-maturity option: "poc" scores 2
    for the first bucket, "en cours" scores 2 for the third, and the loop
    that picks the best bucket keeps the first one on a tie. *)
Theorem maturity_guard_tie_resolves_to_first_option
    (base : gmap jsstring JsValue) :
  let text := js "POC en cours de mise en œuvre" in
  test Latin1.upper_unit SelectPatterns.deployment
    (@ensureSelect_norm Latin1.runtime text) = true
  ∧ @scoreByIndex Latin1.runtime q01 (@ensureSelect_norm Latin1.runtime text)
    = [2; 0; 2; 0]%nat
  ∧ (@ensureSelect Latin1.runtime q01 (JStr text) base).1
    = js "Pas de stratégie définie nous explorons simplement.".
Proof. vm_compute. repeat split; reflexivity. Qed.

(** The same on q02 for "structurées, consolidées": the patterns look for
    whole words, the inflected forms match none, and the token-overlap
    fallback keeps the first option when no option shares a token. *)
Lemma maturity_guard_inflected_forms (base : gmap jsstring JsValue) :
  let text := js "structurées, consolidées" in
  @scoreByIndex Latin1.runtime q02 (@ensureSelect_norm Latin1.runtime text)
  = [0; 0; 0; 0]%nat
  ∧ (@ensureSelect Latin1.runtime q02 (JStr text) base).1
    = js "Les données sont cloisonnées et inaccessibles".
Proof. vm_compute. repeat split; reflexivity. Qed.
(** Where the guard does hold: when the normalised text carries a
    deployment keyword and none of the keywords of the first bucket, the
    heuristic of step 4 answers, and with an option other than the first
    one. *)
Lemma maturity_heuristic_guard `{RT : JsRuntime} (q : Question)
    (v : jsstring) :
  isQ01toQ05 q = true → (4 ≤ length (getAllowed q))%nat →
  test canonicalize SelectPatterns.deployment v = true →
  test canonicalize SelectPatterns.exploration v = false →
  test canonicalize SelectPatterns.no_strategy v = false →
  test canonicalize SelectPatterns.data_siloed v = false →
  ∃ i, (1 ≤ i ≤ 3)%nat
       ∧ maturity_heuristic q v = Some (opt_at (getAllowed q) i).
Proof.
  intros Hq Hlen Hdep Hexp Hno Hsilo.
  unfold maturity_heuristic, scoreByIndex.
  apply Nat.leb_le in Hlen. rewrite Hq, Hlen, Hdep, Hexp, Hno, Hsilo.
  rewrite andb_false_r. cbn [andb].
  destruct (test canonicalize SelectPatterns.projects v),
           (test canonicalize SelectPatterns.not_extended v),
           (test canonicalize SelectPatterns.structured v),
           (test canonicalize SelectPatterns.integrated v),
           (test canonicalize SelectPatterns.stimulates v),
           (test canonicalize SelectPatterns.nk_data (Types.notionKey q)
            && test canonicalize SelectPatterns.data_structured v);
    vm_compute bestIdx; vm_compute maxScore; cbn [Nat.ltb Nat.leb];
    eexists; (split; [|reflexivity]); lia.
Qed.

(** ** Playback scheduling *)

Lemma schedule_start_ge (cursor : Q) (c : Audio.Chunk) :
  (cursor <= (Audio.schedule cursor c).1)%Q.
Proof. unfold Audio.schedule. simpl. apply Q.le_max_l. Qed.

(** C6: for chunks with non-negative durations scheduled in arrival order,
    each start time is at least the previous start time (non-decreasing) and
    at least the previous start time plus the previous duration (no
    overlap); when the next chunk arrives before the previous one has
    finished playing (back-to-back), its start time is exactly that sum (no
    gap). *)
Theorem playback_gap_free_overlap_free (cursor : Q)
    (chunks : list Audio.Chunk) (i : nat) (c1 c2 : Audio.Chunk)
    (s1 s2 : Q) :
  Forall (λ c, (0 <= Audio.duration c)%Q) chunks →
  chunks !! i = Some c1 → chunks !! S i = Some c2 →
  Audio.start_times cursor chunks !! i = Some s1 →
  Audio.start_times cursor chunks !! S i = Some s2 →
  (s1 <= s2)%Q
  ∧ (s1 + Audio.duration c1 <= s2)%Q
  ∧ ((Audio.currentTime c2 <= s1 + Audio.duration c1)%Q →
     (s2 == s1 + Audio.duration c1)%Q).
Proof.
  revert cursor i. induction chunks as [|c chunks IH];
    intros cursor i Hd H1 H2 Hs1 Hs2; [done|].
  inversion_clear Hd as [|?? Hc Hrest].
  destruct i as [|i].
  - destruct chunks as [|c' chunks]; [done|].
    simpl in *. injection H1 as <-. injection H2 as <-.
    injection Hs1 as <-. injection Hs2 as <-.
    set (s := Qmax cursor (Audio.currentTime c)).
    assert (s + Audio.duration c <= Qmax (s + Audio.duration c)
                                      (Audio.currentTime c'))%Q as Hle
      by apply Q.le_max_l.
    split; [|split; [done|]].
    + eapply Qle_trans; [|exact Hle].
      rewrite <- (Qplus_0_r s) at 1. by apply Qplus_le_r.
    + intros Hback. by apply Q.max_l.
  - simpl in *. by eapply IH.
Qed.

Lemma playback_gap_free_overlap_free_witness :
  let chunks :=
    [ {| Audio.currentTime := 0; Audio.duration := 1 # 2 |};
      {| Audio.currentTime := 1 # 10; Audio.duration := 1 # 4 |} ] in
  (0 <= 1 # 2)%Q ∧ (0 + (1 # 2) <= 1 # 2)%Q ∧
  ((1 # 10 <= 0 + (1 # 2))%Q → (1 # 2 == 0 + (1 # 2))%Q).
Proof.
  intros chunks.
  apply (playback_gap_free_overlap_free 0 chunks 0
           {| Audio.currentTime := 0; Audio.duration := 1 # 2 |}
           {| Audio.currentTime := 1 # 10; Audio.duration := 1 # 4 |}
           0 (1 # 2)).
  - repeat constructor; simpl; discriminate.
  - reflexivity.
  - reflexivity.
  - reflexivity.
  - reflexivity.
Defined.

(** ** The submission pipeline *)

(** The pipeline of the current App source issues at most one delivery
    call, whatever the network does. *)
Lemma submitToWebhook_single_delivery `{RT : JsRuntime} (env : Ambient)
    (transcript : list TranscriptEntry) (rawData : gmap jsstring JsValue)
    (proxy delivery : FetchOutcome) :
  (length (deliveries (submitToWebhook env transcript rawData proxy delivery))
   ≤ 1)%nat.
Proof.
  unfold submitToWebhook.
  destruct (normalizeAuditData _ _ _ _); [|simpl; lia].
  destruct (fetch delivery) as [response|]; [|simpl; lia].
  destruct (negb response.1); simpl; lia.
Qed.

(** C8: the claim does not hold of the earlier submitToWebhook.  When the
    delivery endpoint answers the first POST with a non-2xx status, the
    function calls itself with [retryCount + 1] and posts the payload a
    second time. *)
Theorem legacy_submit_retries_delivery :
  let ai := @Legacy.AiText Latin1.runtime
              (Some (JObj [(js "CA", JStr (js "<1 M€"))])) in
  let net (attempt : nat) :=
    match attempt with
    | O => (ai, Responded false None)
    | _ => (ai, Responded true None)
    end in
  let trace := Legacy.submitToWebhook env0 net 0 in
  length (deliveries trace) = 2%nat ∧ status trace = success.
Proof. vm_compute. split; reflexivity. Qed.

(** ** The tool-call dispatcher *)

(** The catalogue and its literals stay folded in these proofs. *)
#[local] Opaque QUESTIONS js.

Section DispatcherFacts.
Context `{RT : JsRuntime}.

Lemma findIndex_from_spec {A} (p : A → bool) (l : list A) (i j : nat) :
  App.findIndex_from p l i = Some j →
  (i ≤ j)%nat ∧ ∃ x, l !! (j - i)%nat = Some x ∧ p x = true.
Proof.
  revert i. induction l as [|x l IH]; intros i; simpl; [done|].
  destruct (p x) eqn:Hp.
  - intros [= <-]. split; [lia|]. exists x. by rewrite Nat.sub_diag.
  - intros H. apply IH in H as (Hle & y & Hy & Hpy). split; [lia|].
    exists y. split; [|done].
    replace (j - i)%nat with (S (j - S i)) by lia. done.
Qed.

Lemma named_question_spec (args : RecordAnswerArgs) (i : nat) :
  named_question args = Some i →
  (i < length QUESTIONS)%nat ∧ ∃ q, QUESTIONS !! i = Some q.
Proof.
  unfold named_question, App.findIndex. intros H.
  apply findIndex_from_spec in H as (_ & q & Hq & _).
  rewrite Nat.sub_0_r in Hq. split; [by eapply lookup_lt_Some | by exists q].
Qed.

Lemma find_update (p : Session → bool) (f : Session → Session)
    (l : list Session) :
  (∀ s, p s = true → p (f s) = true) →
  List.find p (List.map (λ s, if p s then f s else s) l)
  = f <$> List.find p l.
Proof.
  intros Hf. induction l as [|s l IH]; simpl; [done|].
  destruct (p s) eqn:Hp.
  - by rewrite (Hf s Hp).
  - by rewrite Hp.
Qed.

(** The current session after an update of the sessions that keeps the
    ids. *)
Lemma currentSession_update (st : App.State) (f : Session → Session)
    (ref : list Session) (pending : bool)
    (sub : list (gmap jsstring JsValue)) :
  (∀ s, Store.id (f s) = Store.id s) →
  App.currentSession
    {| App.sessions := App.update_current st f;
       App.sessionsRef := ref;
       App.currentSessionIdRef := App.currentSessionIdRef st;
       App.isPendingFinalSpeechRef := pending;
       App.submitted := sub |}
  = f <$> App.currentSession st.
Proof.
  intros Hid. unfold App.currentSession, App.update_current.
  cbn [App.sessions].
  change (App.is_current _) with (App.is_current st) at 1.
  apply find_update. intros s. unfold App.is_current. by rewrite Hid.
Qed.

(** What a successful call does to the state: the new answers are those the
    handler found in [sessionsRef], with the entries of the call. *)
Lemma handleRecordAnswer_success (args : RecordAnswerArgs) (st : App.State)
    (i : nat) (cur : Session) :
  prop_truthy (App.currentSessionIdRef st) = true →
  named_question args = Some i →
  App.currentSess st = Some cur →
  ∃ q d,
    QUESTIONS !! i = Some q
    ∧ d = App.newData q args (Store.auditData cur)
    ∧ is_error (App.handleRecordAnswer args st).1 = false
    ∧ App.currentSessionIdRef (App.handleRecordAnswer args st).2
      = App.currentSessionIdRef st
    ∧ App.sessionsRef (App.handleRecordAnswer args st).2
      = App.sessionsRef st
    ∧ (∀ s, App.currentSession st = Some s →
         ∃ s', App.currentSession (App.handleRecordAnswer args st).2
               = Some s'
               ∧ Store.auditData s' = d
               ∧ Store.currentStep s' = S i
               ∧ Store.id s' = Store.id s
               ∧ Store.transcript s' = Store.transcript s
               ∧ Store.isFinished s' = Store.isFinished s)
    ∧ App.submitted (App.handleRecordAnswer args st).2
      = App.submitted st
        ++ (if Nat.leb (length QUESTIONS) (S i) then [d] else [])
    ∧ App.isPendingFinalSpeechRef (App.handleRecordAnswer args st).2
      = App.isPendingFinalSpeechRef st || Nat.leb (length QUESTIONS) (S i).
Proof.
  intros Href Hnamed Hcur.
  destruct (named_question_spec args i Hnamed) as (_ & q & Hq).
  exists q, (App.newData q args (Store.auditData cur)).
  unfold App.handleRecordAnswer.
  unfold named_question in Hnamed. rewrite Href, Hnamed, Hcur, Hq.
  cbn [negb default]. cbv zeta.
  destruct (Nat.leb (length QUESTIONS) (S i));
    cbn [fst snd App.currentSessionIdRef App.sessionsRef App.submitted
         App.isPendingFinalSpeechRef].
  all: split; [done|]; split; [done|].
  all: split; [vm_compute; reflexivity|]; split; [done|]; split; [done|].
  all: split; [|split; [by rewrite ?app_nil_r | by rewrite ?orb_true_r,
                                                          ?orb_false_r]].
  all: intros s Hs; rewrite currentSession_update by done; rewrite Hs.
  all: eexists; split; [reflexivity|]; done.
Qed.

(** A call that names no question, or finds no session, changes nothing. *)
Lemma handleRecordAnswer_failure (args : RecordAnswerArgs) (st : App.State) :
  session_found st = false ∨ named_question args = None →
  is_error (App.handleRecordAnswer args st).1 = true
  ∧ (App.handleRecordAnswer args st).2 = st.
Proof.
  unfold session_found, named_question, App.handleRecordAnswer.
  intros H.
  destruct (prop_truthy (App.currentSessionIdRef st)); simpl;
    [|split; [vm_compute; reflexivity | done]].
  destruct (App.findIndex _ QUESTIONS); simpl;
    [|split; [vm_compute; reflexivity | done]].
  destruct (App.currentSess st); simpl;
    [|split; [vm_compute; reflexivity | done]].
  by destruct H.
Qed.



Lemma render_current (st : App.State) :
  App.currentSession (App.render st) = App.currentSession st.
Proof. done. Qed.

End DispatcherFacts.

(** C7: the claim does not hold of handleRecordAnswer.  The handler tests
    that the session reference is set and finds a stored session, and never
    reads the finished flag.  On a session that is finished, hence not
    active, at pointer 21, a call naming q03 is accepted with
    RECORD_SUCCESS, writes its answer and moves the pointer from 21 back
    to 3; and a record_answer call that follows a technical_closure call in
    the same message is accepted on the session that call has just
    finished. *)
Theorem finished_session_accepts_record_answer :
  let st :=
    App.render
      (Lifecycle.updateCurrentSession Lifecycle.finished
         (Examples.state_at 21)) in
  let r := App.handleRecordAnswer (Examples.answer "q03" "2") st in
  let closed := (Lifecycle.handleTechnicalClosure (Examples.state_at 5)).2 in
  let r' := App.handleRecordAnswer (Examples.answer "q03" "2") closed in
  ((session_active st = false
    ∧ Store.isFinished <$> App.currentSession st = Some true
    ∧ App.pointer st = Some 21%nat)
   ∧ r.1 = js "[EVENT: RECORD_SUCCESS]"
   ∧ is_error r.1 = false
   ∧ App.pointer r.2 = Some 3%nat
   ∧ (Store.auditData <$> App.currentSession r.2)
     ≫= (λ d, d !! Types.notionKey q03)
     = Some (JStr (js "2")))
  ∧ (session_active closed = false
     ∧ Store.isFinished <$> App.currentSession closed = Some true)
  ∧ r'.1 = js "[EVENT: RECORD_SUCCESS]"
  ∧ App.pointer r'.2 = Some 3%nat.
Proof. vm_compute. repeat split; reflexivity. Qed.

(** C2: the claim does not hold of handleRecordAnswer, against the
    description of the tool it implements (record the answer to the current
    question and move to the next one) and the single submission the
    pipeline promises.  The pointer is set from the question a call names:
    a call naming an earlier question moves the pointer back, and each call
    naming the last question triggers completion, submission included,
    again; the component is rendered between the calls. *)
Theorem pointer_moves_back_and_completes_twice :
  (App.pointer (Examples.state_at 5) = Some 5%nat
   ∧ App.pointer
       (App.handleRecordAnswer (Examples.answer "q02" "2")
          (Examples.state_at 5)).2 = Some 2%nat)
  ∧ completions (λ _, true)
      [Examples.answer "q21" "oui"; Examples.answer "q21" "oui"]
      (Examples.state_at 20) = 2%nat.
Proof. vm_compute. repeat split; reflexivity. Qed.


(** * Further properties *)

(** ** Single-select resolution *)

Lemma digit_not_space (c : N) : is_digit c = true → is_space c = false.
Proof.
  unfold is_digit, is_space, in_range. intros H.
  apply andb_prop in H as [H1 H2]. apply N.leb_le in H1, H2.
  repeat (match goal with
          | |- context [(?a <=? ?b)] => destruct (N.leb_spec a b)
          | |- context [(?a =? ?b)] => destruct (N.eqb_spec a b)
          end; try lia); reflexivity.
Qed.

Lemma drop_while_head (p : N → bool) (c : N) (s : jsstring) :
  p c = false → drop_while p (c :: s) = c :: s.
Proof. intros H. simpl. by rewrite H. Qed.

(** A string that neither starts nor ends with white space is its own
    trim. *)
Lemma trim_fixed (s : jsstring) :
  default false (is_space <$> head s) = false →
  default false (is_space <$> head (rev s)) = false →
  trim s = s.
Proof.
  intros Hh Hl. unfold trim.
  assert (drop_while is_space s = s) as ->.
  { destruct s as [|c s]; [done|]. simpl in Hh. by apply drop_while_head. }
  assert (drop_while is_space (rev s) = rev s) as ->.
  { destruct (rev s) as [|c r] eqn:Hr; [done|]. by apply drop_while_head. }
  apply rev_involutive.
Qed.

Lemma digits_trim (s : jsstring) :
  Forall (λ c, is_digit c = true) s → trim s = s.
Proof.
  intros Hd. apply trim_fixed.
  - destruct s as [|c s]; [done|]. simpl.
    inversion_clear Hd. by apply digit_not_space.
  - destruct (rev s) as [|c r] eqn:Hr; [done|]. simpl.
    apply digit_not_space. rewrite List.Forall_forall in Hd. apply Hd.
    apply in_rev. rewrite Hr. by left.
Qed.

Lemma rep_digits_to_end (s : jsstring) (n : nat) (prev : option N) :
  Forall (λ c, is_digit c = true) s → (1 ≤ n + length s)%nat →
  rep_from (A := jsstring) is_digit 1 None n prev s
    (λ prev' s', match s' with [] => Some s' | _ => None end) = Some [].
Proof.
  revert n prev. induction s as [|c s IH]; intros n prev Hd Hlen; simpl.
  - destruct n; [simpl in Hlen; lia | done].
  - inversion_clear Hd as [|?? Hc Hs]. rewrite Hc. simpl.
    rewrite IH; [done | done | simpl in Hlen; lia].
Qed.

Lemma all_digits_test (canon : N → N) (s : jsstring) :
  s ≠ [] → Forall (λ c, is_digit c = true) s →
  test canon SelectPatterns.all_digits s = true.
Proof.
  intros Hne Hd. unfold test, search.
  assert (match_here canon SelectPatterns.all_digits None s = Some []) as H.
  { unfold match_here, SelectPatterns.all_digits, seqs. simpl.
    apply rep_digits_to_end; [done|]. destruct s; [done | simpl; lia]. }
  destruct s; by rewrite H.
Qed.

Section SelectResolution.
Context `{RT : JsRuntime}.

(** X1: a value whose trimmed text is one of the question's option labels is
    resolved to that label as it is, and the answers are left untouched: no
    index form, normalised match or heuristic overrides an exact label. *)
Theorem ensureSelect_exact_label (q : Question) (value : JsValue)
    (base : gmap jsstring JsValue) :
  let vRaw := trim (toString (coalesce value (JStr []))) in
  vRaw ≠ [] → vRaw ∈ getAllowed q →
  ensureSelect q value base = (vRaw, base).
Proof.
  intros vRaw Hne Hin. unfold ensureSelect. fold vRaw.
  destruct vRaw as [|c r] eqn:Hv; [done|]. simpl negb. cbn iota.
  apply includes_elem in Hin. by rewrite Hin.
Qed.

(** X2: a value made of decimal digits only, which is not itself an option
    label and whose number n lies between 1 and the number of options, is
    resolved to the n-th option; the answers are left untouched. *)
Theorem ensureSelect_index_shorthand (q : Question) (digits : jsstring)
    (base : gmap jsstring JsValue) :
  digits ≠ [] → Forall (λ c, is_digit c = true) digits →
  digits ∉ getAllowed q →
  (1 ≤ parseInt digits ∧ parseInt digits ≤ N.of_nat (length (getAllowed q))) →
  ensureSelect q (JStr digits) base
  = (opt_at (getAllowed q) (N.to_nat (parseInt digits) - 1), base)
  ∧ opt_at (getAllowed q) (N.to_nat (parseInt digits) - 1) ∈ getAllowed q.
Proof.
  intros Hne Hd Hnot [Hlo Hhi]. split; [|apply opt_at_elem; lia].
  unfold ensureSelect. cbn [coalesce nullish toString].
  rewrite (digits_trim _ Hd).
  destruct digits as [|c r] eqn:Hdig; [done|]. rewrite <- Hdig in *.
  replace (negb (nonempty digits)) with false by (by rewrite Hdig).
  destruct (includes (getAllowed q) digits) eqn:Hinc.
  { by apply includes_elem in Hinc. }
  unfold index_shorthand. rewrite all_digits_test by done.
  apply N.leb_le in Hlo, Hhi. by rewrite Hlo, Hhi.
Qed.

(** X3: ensureSelect either leaves the answers as they are, or writes exactly
    one entry: the trimmed raw text under the question's escape key, and
    this only when that key held nothing truthy, the text is not blank and
    is no option label, and the result is the escape label. *)
Theorem ensureSelect_state_effect (q : Question) (value : JsValue)
    (base : gmap jsstring JsValue) :
  let vRaw := trim (toString (coalesce value (JStr []))) in
  (ensureSelect q value base).2 = base
  ∨ ∃ k, Types.autreKey q = Some k
         ∧ truthy (getprop base k) = false
         ∧ vRaw ≠ []
         ∧ (vRaw ∉ getAllowed q)
         ∧ (ensureSelect q value base).1 = autreLabel q
         ∧ (ensureSelect q value base).2 = <[k := JStr vRaw]> base.
Proof.
  intros vRaw. unfold ensureSelect. fold vRaw.
  destruct (nonempty vRaw) eqn:Hne; [|by left]. simpl negb. cbn iota.
  destruct (includes (getAllowed q) vRaw) eqn:Hinc; [by left|].
  destruct (index_shorthand _ _); [by left|].
  destruct (optByNorm _ !! _); [by left|].
  destruct (maturity_heuristic _ _); [by left|].
  destruct (hasAutre q).
  - unfold store_autre. simpl.
    destruct (Types.autreKey q) as [k|]; [|by left].
    destruct (nonempty k); simpl; [|by left].
    destruct (truthy (getprop base k)) eqn:Ht; simpl; [by left|].
    right. exists k. repeat split; try done.
    + intros ->. done.
    + intros Hin. apply includes_elem in Hin. congruence.
  - left. by destruct (_ !! _); [destruct (_ && _)|].
Qed.

End SelectResolution.

Section SelectIdempotence.
Context `{RT : JsRuntime}.

(** X4: when the options of a question are non-empty and carry no surrounding
    white space, resolving the result of ensureSelect again gives the same
    label and changes nothing. *)
Theorem ensureSelect_idempotent (q : Question) (value : JsValue)
    (base base' : gmap jsstring JsValue) :
  getAllowed q ≠ [] → forallb trimmed (getAllowed q) = true →
  ensureSelect q (JStr (ensureSelect q value base).1) base'
  = ((ensureSelect q value base).1, base').
Proof.
  intros Hne Htrim.
  pose proof (ensureSelect_allowed q value base Hne) as Hin.
  set (o := (ensureSelect q value base).1) in *.
  rewrite forallb_forall in Htrim.
  specialize (Htrim o (proj1 (list_elem_of_In _ _) Hin)).
  unfold trimmed in Htrim. apply andb_prop in Htrim as [Ht Hn].
  apply bool_decide_eq_true in Ht.
  unfold ensureSelect. cbn [coalesce nullish toString]. rewrite Ht, Hn.
  simpl negb. cbn iota. apply includes_elem in Hin. by rewrite Hin.
Qed.

End SelectIdempotence.

Lemma ensureSelect_idempotent_witness :
  @ensureSelect Latin1.runtime q06
    (JStr (@ensureSelect Latin1.runtime q06 (JStr (js "2")) ∅).1) ∅
  = ((@ensureSelect Latin1.runtime q06 (JStr (js "2")) ∅).1, ∅).
Proof.
  apply ensureSelect_idempotent.
  - vm_compute. discriminate.
  - vm_compute. reflexivity.
Defined.

(** ** The payload as a whole *)

Lemma key_neq (a b : jsstring) : bool_decide (a = b) = false → a ≠ b.
Proof. intros H. by apply bool_decide_eq_false in H. Qed.

Lemma metadata_keys_not_autreKeys :
  Forall (λ k, k ∉ autreKeys) metadata_keys.
Proof.
  apply List.Forall_forall. intros k Hk Hin.
  apply includes_elem in Hin.
  assert (forallb (λ k, negb (includes autreKeys k)) metadata_keys = true)
    as H by (vm_compute; reflexivity).
  rewrite forallb_forall in H. specialize (H k Hk). by rewrite Hin in H.
Qed.

#[local] Opaque key_session_id key_source key_date key_date_quoted
  key_executionMode key_nom key_email.

Ltac metadata_lookups :=
  unfold getprop;
  repeat first
    [ rewrite lookup_insert_eq
    | rewrite lookup_insert_ne by (apply key_neq; vm_compute; reflexivity) ].

Section WholePayload.
Context `{RT : JsRuntime}.

(** The loop leaves the metadata keys as the merged input has them. *)
Lemma loop_keeps_metadata_key (base : gmap jsstring JsValue) (k : jsstring) :
  k ∈ metadata_keys → fold_left enforce QUESTIONS base !! k = base !! k.
Proof.
  intros Hk. apply fold_enforce_frame.
  apply List.Forall_forall. intros q Hq. apply list_elem_of_In in Hq. split.
  - intros ->. by eapply notionKey_not_metadata.
  - intros Ha. pose proof metadata_keys_not_autreKeys as H.
    rewrite List.Forall_forall in H.
    apply (H k); [by apply list_elem_of_In | by eapply autreKey_elem].
Qed.

Lemma enforce_defined (base : gmap jsstring JsValue) (q : Question) :
  ∃ v, enforce base q !! Types.notionKey q = Some v ∧ nullish v = false.
Proof.
  unfold enforce. destruct (Types.type q).
  - eexists. by rewrite lookup_insert_eq.
  - eexists. by rewrite lookup_insert_eq.
  - destruct (nullish (getprop base (Types.notionKey q))) eqn:Hn.
    + eexists. by rewrite lookup_insert_eq.
    + unfold getprop in Hn.
      destruct (base !! Types.notionKey q) as [v|]; [by exists v | done].
  - eexists. by rewrite lookup_insert_eq.
Qed.

Lemma derive_name_frame (base : gmap jsstring JsValue) (k : jsstring) :
  k ≠ key_nom → derive_name base !! k = base !! k.
Proof.
  intros Hk. unfold derive_name.
  destruct (getprop base key_email); try done.
  destruct (_ && _); [|done]. by rewrite lookup_insert_ne.
Qed.

(** What attach_metadata leaves under the five keys it always writes. *)
Lemma attach_metadata_values (env : Ambient) (base : gmap jsstring JsValue) :
  let p := attach_metadata env base in
  let date := js_or (getprop base key_date) (JStr (nowISO env)) in
  p !! key_session_id
  = Some (match currentSessionIdRef env with
          | Some i => JStr i
          | None => JNull
          end)
  ∧ p !! key_source = Some (JStr SOURCE_TAG)
  ∧ p !! key_date = Some date
  ∧ p !! key_date_quoted = Some (js_or (getprop base key_date_quoted) date)
  ∧ p !! key_executionMode
    = Some (js_or (getprop base key_executionMode)
              (JStr (js "production_guarded"))).
Proof.
  unfold attach_metadata. cbv zeta.
  repeat split;
    (rewrite derive_name_frame by (apply key_neq; vm_compute; reflexivity));
    metadata_lookups; reflexivity.
Qed.

(** X5: whatever the inputs, the payload holds a value that is neither
    undefined nor null under the key of every question of the catalogue, and
    holds the five metadata entries. *)
Theorem payload_keys_present (env : Ambient)
    (rawData : gmap jsstring JsValue) (transcript : list TranscriptEntry)
    (candidate : option (gmap jsstring JsValue)) :
  let payload := buildGuaranteedPayload env rawData transcript candidate in
  Forall (λ q, ∃ v, payload !! Types.notionKey q = Some v
                    ∧ nullish v = false) QUESTIONS
  ∧ Forall (λ k, is_Some (payload !! k))
      [key_session_id; key_source; key_date; key_date_quoted;
       key_executionMode].
Proof.
  cbv zeta. split.
  - apply List.Forall_forall. intros q Hq. apply list_elem_of_In in Hq.
    unfold buildGuaranteedPayload.
    rewrite attach_metadata_frame by by apply notionKey_not_metadata.
    destruct (fold_enforce_entry QUESTIONS (default ∅ candidate ∪ rawData) q)
      as (base' & _ & ->); [done | apply notionKeys_NoDup | |].
    { apply List.Forall_forall. intros q' Hq'.
      apply notionKey_not_autreKey; [done | by apply list_elem_of_In]. }
    apply enforce_defined.
  - unfold buildGuaranteedPayload.
    destruct (attach_metadata_values env
                (fold_left enforce QUESTIONS (default ∅ candidate ∪ rawData)))
      as (H1 & H2 & H3 & H4 & H5).
    repeat (apply Forall_cons_2; [by eexists|]). apply Forall_nil_2.
Qed.

(** X6: the metadata of the payload: the session id is the current session
    reference (null when there is none) and the source is the source tag,
    both whatever the inputs say; the date is the one of the merged input or
    else the clock, the quoted date falls back on that date, and the
    execution mode falls back on production_guarded. *)
Theorem payload_provenance_and_dates (env : Ambient)
    (rawData : gmap jsstring JsValue) (transcript : list TranscriptEntry)
    (candidate : option (gmap jsstring JsValue)) :
  let payload := buildGuaranteedPayload env rawData transcript candidate in
  let input := merged rawData candidate in
  let date := js_or (getprop input key_date) (JStr (nowISO env)) in
  payload !! key_session_id
  = Some (match currentSessionIdRef env with
          | Some i => JStr i
          | None => JNull
          end)
  ∧ payload !! key_source = Some (JStr SOURCE_TAG)
  ∧ payload !! key_date = Some date
  ∧ payload !! key_date_quoted
    = Some (js_or (getprop input key_date_quoted) date)
  ∧ payload !! key_executionMode
    = Some (js_or (getprop input key_executionMode)
              (JStr (js "production_guarded"))).
Proof.
  cbv zeta. unfold buildGuaranteedPayload, merged.
  destruct (attach_metadata_values env
              (fold_left enforce QUESTIONS (default ∅ candidate ∪ rawData)))
    as (H1 & H2 & H3 & H4 & H5).
  unfold getprop in *.
  assert (∀ k, includes metadata_keys k = true →
               fold_left enforce QUESTIONS (default ∅ candidate ∪ rawData)
               !! k = (default ∅ candidate ∪ rawData) !! k) as Hloop.
  { intros k Hk. apply loop_keeps_metadata_key. by apply includes_elem. }
  rewrite (Hloop key_date) in H3, H4 by (vm_compute; reflexivity).
  rewrite (Hloop key_date_quoted) in H4 by (vm_compute; reflexivity).
  rewrite (Hloop key_executionMode) in H5 by (vm_compute; reflexivity).
  done.
Qed.

End WholePayload.

Lemma split_char_first (sep : N) (s cur : jsstring) :
  contains_char sep s = true →
  ∃ pre rest, s = pre ++ sep :: rest
              ∧ contains_char sep pre = false
              ∧ opt_at (split_char_from sep cur s) 0 = cur ++ pre.
Proof.
  revert cur. induction s as [|c s IH]; intros cur Hc; [done|].
  simpl in Hc. simpl. destruct (N.eqb_spec c sep) as [->|Hne].
  - exists [], s. by rewrite app_nil_r.
  - rewrite N.eqb_sym in Hc.
    replace (c =? sep) with false in Hc by (symmetry; by apply N.eqb_neq).
    simpl in Hc. destruct (IH (cur ++ [c]) Hc) as (pre & rest & -> & Hp & Ho).
    exists (c :: pre), rest. repeat split.
    + simpl. rewrite Hp. rewrite N.eqb_sym.
      replace (c =? sep) with false by (symmetry; by apply N.eqb_neq). done.
    + by rewrite Ho, <- app_assoc.
Qed.

Section WholePayload2.
Context `{RT : JsRuntime}.

(** The loop passes a free-text entry that holds a string through. *)
Lemma loop_keeps_email (base : gmap jsstring JsValue) (email : jsstring) :
  getprop base key_email = JStr email →
  getprop (fold_left enforce QUESTIONS base) key_email = JStr email.
Proof.
  intros He.
  assert (q20 ∈ QUESTIONS) as Hq
    by (apply list_elem_of_In; vm_compute; tauto).
  assert (Types.notionKey q20 = key_email) as Hk by (vm_compute; reflexivity).
  destruct (fold_enforce_entry QUESTIONS base q20)
    as (base' & Hb & Hf); [done | apply notionKeys_NoDup | |].
  { apply List.Forall_forall. intros q' Hq'.
    apply notionKey_not_autreKey; [done | by apply list_elem_of_In]. }
  rewrite Hk in Hb, Hf. unfold getprop in *. rewrite Hf.
  unfold enforce. replace (Types.type q20) with STRING by reflexivity.
  rewrite Hk. unfold getprop. rewrite Hb.
  destruct (base !! key_email) as [v|]; simpl in *; subst; simpl.
  - by rewrite Hb.
  - done.
Qed.

(** X7: a submission name present in the merged input is kept; when it is
    missing and the e-mail entry is a string with an at sign, the name is
    the part of the address before its first at sign. *)
Theorem payload_name_derived_from_email (env : Ambient)
    (rawData : gmap jsstring JsValue) (transcript : list TranscriptEntry)
    (candidate : option (gmap jsstring JsValue)) :
  let payload := buildGuaranteedPayload env rawData transcript candidate in
  let input := merged rawData candidate in
  (truthy (getprop input key_nom) = true →
   payload !! key_nom = input !! key_nom)
  ∧ (∀ email,
       truthy (getprop input key_nom) = false →
       getprop input key_email = JStr email →
       contains_char 64 email = true →
       ∃ name rest,
         payload !! key_nom = Some (JStr name)
         ∧ email = name ++ 64 :: rest
         ∧ contains_char 64 name = false).
Proof.
  cbv zeta. unfold buildGuaranteedPayload, merged.
  set (base := default ∅ candidate ∪ rawData).
  set (L := fold_left enforce QUESTIONS base).
  assert (L !! key_nom = base !! key_nom) as Hnom.
  { apply loop_keeps_metadata_key, includes_elem. vm_compute. reflexivity. }
  unfold attach_metadata. cbv zeta.
  match goal with |- context [derive_name ?b] => set (M := b) end.
  assert (getprop M key_nom = getprop base key_nom) as HMnom.
  { subst M. metadata_lookups. by rewrite Hnom. }
  assert (getprop M key_email = getprop L key_email) as HMemail.
  { subst M. metadata_lookups. done. }
  assert (M !! key_nom = base !! key_nom) as HMl.
  { subst M. metadata_lookups. done. }
  unfold derive_name. rewrite HMnom, HMemail. split.
  - intros Ht. rewrite Ht. simpl. by destruct (getprop L key_email).
  - intros email Ht He Hat. rewrite Ht. simpl.
    pose proof (loop_keeps_email base email He) as HL. fold L in HL.
    rewrite HL, Hat.
    destruct (split_char_first 64 email [] Hat) as (pre & rest & Heq & Hp & Ho).
    exists pre, rest. unfold split_char. rewrite Ho.
    by rewrite lookup_insert_eq.
Qed.

(** X8: for a question of the catalogue whose merged input is undefined or
    null, the payload holds: for a select, the escape label when the
    question has one and the first option otherwise; for the consent,
    false; for free text, the empty string. *)
Theorem unanswered_entries (env : Ambient)
    (rawData : gmap jsstring JsValue) (transcript : list TranscriptEntry)
    (candidate : option (gmap jsstring JsValue)) (q : Question) :
  toLowerCase [] = [] →
  q ∈ QUESTIONS →
  nullish (input_of rawData candidate q) = true →
  let payload := buildGuaranteedPayload env rawData transcript candidate in
  (Types.type q = SELECT →
   getprop payload (Types.notionKey q)
   = JStr (if hasAutre q then autreLabel q else opt_at (getAllowed q) 0))
  ∧ (Types.type q = BOOL →
     getprop payload (Types.notionKey q) = JBool false)
  ∧ (Types.type q = STRING →
     getprop payload (Types.notionKey q) = JStr []).
Proof.
  intros Hlower Hq Hnull. cbv zeta.
  destruct (payload_entry env rawData transcript candidate q Hq)
    as (base' & Hin & Hout).
  rewrite <- Hin in Hnull. rewrite Hout. unfold enforce.
  repeat split; intros Hty; rewrite Hty.
  - rewrite getprop_insert. unfold ensureSelect, coalesce. rewrite Hnull.
    by destruct (hasAutre q).
  - rewrite getprop_insert. unfold ensureBool, coalesce. rewrite Hnull.
    destruct (getprop base' (Types.notionKey q)); try done.
    all: cbn [toString]; rewrite Hlower; vm_compute; reflexivity.
  - by rewrite Hnull, getprop_insert.
Qed.

End WholePayload2.

Lemma unanswered_entries_witness :
  getprop (@buildGuaranteedPayload Latin1.runtime env0 ∅ [] None)
    (Types.notionKey q01)
  = JStr (if hasAutre q01 then autreLabel q01
          else opt_at (getAllowed q01) 0).
Proof.
  apply (proj1 (@unanswered_entries Latin1.runtime env0 ∅ [] None q01
                  eq_refl
                  ltac:(apply list_elem_of_In; vm_compute; tauto)
                  ltac:(vm_compute; reflexivity))).
  vm_compute. reflexivity.
Defined.

Lemma payload_name_derived_from_email_witness :
  let rawData : gmap jsstring (@JsValue Latin1.runtime) :=
    {[ key_email := JStr (js "ana@memo5d.fr") ]} in
  ∃ name rest,
    buildGuaranteedPayload env0 rawData [] None !! key_nom = Some (JStr name)
    ∧ js "ana@memo5d.fr" = name ++ 64 :: rest
    ∧ contains_char 64 name = false.
Proof.
  intros rawData.
  apply (proj2 (payload_name_derived_from_email env0 rawData [] None)).
  - vm_compute. reflexivity.
  - vm_compute. reflexivity.
  - vm_compute. reflexivity.
Defined.

#[local] Transparent key_session_id key_source key_date key_date_quoted
  key_executionMode key_nom key_email.

(** ** Multi-select resolution *)

Lemma pushUnique_NoDup (arr : list jsstring) (v : jsstring) :
  NoDup arr → NoDup (pushUnique arr v).
Proof.
  intros Hnd. unfold pushUnique.
  destruct (nonempty v); simpl; [|done].
  destruct (includes arr v) eqn:Hinc; simpl; [done|].
  apply list.NoDup_app. split; [done|]. split; [|apply list.NoDup_singleton].
  intros x Hx Hxv. apply list_elem_of_singleton in Hxv as ->.
  apply includes_elem in Hx. congruence.
Qed.

Lemma insert_desc_Permutation (x : nat * nat) (l : list (nat * nat)) :
  insert_desc x l ≡ₚ x :: l.
Proof.
  induction l as [|y l IH]; simpl; [done|].
  destruct (Nat.ltb _ _); [done|]. rewrite IH. apply Permutation_swap.
Qed.

Lemma sort_desc_Permutation (l : list (nat * nat)) : sort_desc l ≡ₚ l.
Proof.
  unfold sort_desc.
  assert (∀ l acc, fold_left (λ acc x, insert_desc x acc) l acc ≡ₚ acc ++ l)
    as Hgen.
  { clear l. induction l as [|x l IH]; intros acc; simpl.
    - by rewrite app_nil_r.
    - rewrite IH, insert_desc_Permutation. simpl.
      apply Permutation_middle. }
  apply (Hgen l []).
Qed.

Lemma filter_fst_NoDup (f : nat * nat → bool) (l : list (nat * nat)) :
  NoDup (l.*1) → NoDup ((List.filter f l).*1).
Proof.
  induction l as [|x l IH]; simpl; [done|].
  intros Hnd. apply list.NoDup_cons in Hnd as [Hx Hl].
  destruct (f x); simpl; [|by apply IH].
  apply list.NoDup_cons. split; [|by apply IH].
  intros Hin. apply Hx.
  apply list_elem_of_fmap in Hin as (y & -> & Hy).
  apply list_elem_of_fmap. exists y. split; [done|].
  apply list_elem_of_In. apply list_elem_of_In in Hy.
  by apply filter_In in Hy as [Hy _].
Qed.

Lemma imap_pair_fst (scores : list nat) :
  (imap (λ idx score, (idx, score)) scores).*1 = seq 0 (length scores).
Proof.
  rewrite fmap_imap.
  rewrite (imap_ext _ (λ j _, id j)) by done.
  by rewrite imap_seq_0, list_fmap_id.
Qed.

Lemma opt_at_inj (opts : list jsstring) (i j : nat) :
  NoDup opts → (i < length opts)%nat → (j < length opts)%nat →
  opt_at opts i = opt_at opts j → i = j.
Proof.
  intros Hnd Hi Hj. unfold opt_at.
  destruct (lookup_lt_is_Some_2 opts i Hi) as [a Ha].
  destruct (lookup_lt_is_Some_2 opts j Hj) as [b Hb].
  rewrite Ha, Hb. simpl. intros ->. by eapply list.NoDup_lookup.
Qed.

Lemma map_opt_at_NoDup (opts : list jsstring) (l : list (nat * nat)) :
  NoDup opts → NoDup (l.*1) →
  Forall (λ x : nat * nat, (x.1 < length opts)%nat) l →
  NoDup (List.map (λ x : nat * nat, opt_at opts x.1) l).
Proof.
  intros Hopts. induction l as [|x l IH]; simpl; intros Hnd Hr.
  { apply NoDup_nil_2. }
  apply list.NoDup_cons in Hnd as [Hx Hl].
  inversion_clear Hr as [|?? Hxr Hlr].
  apply list.NoDup_cons. split; [|by apply IH].
  intros Hin. apply Hx. apply list_elem_of_In in Hin.
  rewrite in_map_iff in Hin. destruct Hin as (y & Heq & Hy).
  apply list_elem_of_fmap. exists y. split; [|by apply list_elem_of_In].
  rewrite List.Forall_forall in Hlr.
  eapply opt_at_inj; [done | done | by apply Hlr | done].
Qed.

Section MultiResolution.
Context `{RT : JsRuntime}.

Lemma selected_NoDup (opts tokens selected : list jsstring) :
  NoDup selected → NoDup (fold_left (select_token opts) tokens selected).
Proof.
  revert selected. induction tokens as [|t tokens IH]; intros sel Hnd;
    simpl; [done|].
  apply IH. unfold select_token, select_literal.
  repeat match goal with
         | |- context [match ?x with Some _ => _ | None => _ end] =>
           destruct x
         | |- context [if ?b then _ else _] => destruct b
         end; try done; by apply pushUnique_NoDup.
Qed.

Lemma ranked_NoDup (opts : list jsstring) (maxItems : nat)
    (scores : list nat) :
  NoDup opts → length scores = length opts →
  NoDup (ranked opts maxItems scores).
Proof.
  intros Hopts Hlen. unfold ranked.
  set (pairs := List.filter (λ x : nat * nat, Nat.ltb 0 x.2)
                  (imap (λ idx score, (idx, score)) scores)).
  assert (NoDup (pairs.*1)) as Hp.
  { apply filter_fst_NoDup. rewrite imap_pair_fst. apply list.NoDup_seq. }
  assert (Forall (λ x : nat * nat, (x.1 < length opts)%nat) pairs) as Hr.
  { apply List.Forall_forall. intros y Hy. subst pairs.
    rewrite filter_In in Hy. destruct Hy as [Hy _].
    apply list_elem_of_In in Hy.
    apply elem_of_lookup_imap in Hy as (i & s & -> & Hi).
    simpl. rewrite <- Hlen. by eapply lookup_lt_Some. }
  apply map_opt_at_NoDup; [done | |].
  - rewrite fmap_take. eapply sublist_NoDup; [|apply sublist_take].
    by rewrite sort_desc_Permutation.
  - apply Forall_take. by rewrite sort_desc_Permutation.
Qed.

(** X9: when the options of a question are pairwise distinct, the list
    ensureMultiSelect returns has no repeated label. *)
Theorem ensureMultiSelect_NoDup (q : Question) (value : JsValue)
    (base : gmap jsstring JsValue) :
  NoDup (getAllowed q) → NoDup (ensureMultiSelect q value base).1.
Proof.
  intros Hopts. unfold ensureMultiSelect.
  destruct (Nat.ltb 0 (length (fold_left _ _ _))).
  { simpl. eapply sublist_NoDup; [|apply sublist_take].
    apply selected_NoDup, NoDup_nil_2. }
  match goal with |- context [Nat.ltb 0 (length ?r)] => set (rk := r) end.
  assert (NoDup rk) as Hrk.
  { subst rk. destruct (_ && _); [|apply NoDup_nil_2].
    apply ranked_NoDup; [done | apply scored_length]. }
  destruct (Nat.ltb 0 (length rk)); [done|].
  destruct (hasAutre q); simpl; [apply list.NoDup_singleton | apply NoDup_nil_2].
Qed.

End MultiResolution.

Lemma ensureMultiSelect_NoDup_witness :
  NoDup (@ensureMultiSelect Latin1.runtime q18
           (JStr (js "1, 3; 1")) ∅).1.
Proof.
  apply ensureMultiSelect_NoDup.
  apply (bool_decide_unpack _). vm_compute. reflexivity.
Defined.

(** An anchored pattern does not match behind the start of the input. *)
Lemma exec_from_leading_index_inside (canon : N → N) (c : N) (s : jsstring) :
  exec_from canon MultiPatterns.leading_index (Some c) s = None.
Proof.
  revert c. induction s as [|d s IH]; intros c; simpl; [done|]. apply IH.
Qed.

Lemma exec_leading_index_none (canon : N → N) (o : jsstring) :
  starts_with_digit o = false →
  exec canon MultiPatterns.leading_index o = None.
Proof.
  unfold exec, starts_with_digit. destruct o as [|c s]; [done|].
  intros Hd. change (is_digit c = false) in Hd.
  cbn [exec_from].
  replace (match_here canon MultiPatterns.leading_index None (c :: s))
    with (@None jsstring).
  - apply exec_from_leading_index_inside.
  - unfold match_here, MultiPatterns.leading_index, seqs.
    cbn [fold_left match_from rep_from]. by rewrite Hd.
Qed.

Section VerbatimLabels.
Context `{RT : JsRuntime}.

Lemma parseTokens_labels (labels : list jsstring) :
  Forall (λ o, trimmed o = true) labels →
  parseTokens (JArr (List.map JStr labels)) = labels.
Proof.
  unfold parseTokens.
  induction 1 as [|o l Ho Hl IH]; simpl; [done|].
  unfold trimmed in Ho. apply andb_true_iff in Ho as [Ht Hn].
  apply bool_decide_eq_true in Ht. rewrite Ht, Hn. by rewrite IH.
Qed.

Lemma select_token_label (opts selected : list jsstring) (o : jsstring) :
  plain_label o = true → o ∈ opts → o ∉ selected →
  select_token opts selected o = selected ++ [o].
Proof.
  intros Hp Ho Hs. unfold plain_label, trimmed in Hp.
  apply andb_true_iff in Hp as [Ht Hd].
  apply andb_true_iff in Ht as [_ Hn].
  apply negb_true_iff in Hd.
  unfold select_token, tokenToOptionByIndex.
  rewrite (exec_leading_index_none _ _ Hd).
  unfold select_literal.
  apply includes_elem in Ho. rewrite Ho. unfold pushUnique. rewrite Hn.
  destruct (includes selected o) eqn:Hi; [|done].
  apply includes_elem in Hi. done.
Qed.

Lemma select_tokens_labels (opts labels selected : list jsstring) :
  Forall (λ o, plain_label o = true) labels →
  Forall (λ o, o ∈ opts) labels →
  NoDup (selected ++ labels) →
  fold_left (select_token opts) labels selected = selected ++ labels.
Proof.
  revert selected.
  induction labels as [|o l IH]; intros sel Hp Ho Hnd; simpl.
  { by rewrite app_nil_r. }
  inversion_clear Hp as [|?? Hp1 Hp2]. inversion_clear Ho as [|?? Ho1 Ho2].
  rewrite select_token_label; [|done|done|].
  - rewrite IH; [by rewrite <- app_assoc | done | done |].
    by rewrite <- app_assoc.
  - apply list.NoDup_app in Hnd as (_ & Hd & _).
    intros Hin. apply (Hd o Hin). left.
Qed.

(** X10: an array of distinct option labels, none of them blank, padded with
    white space or starting with a digit, is kept in its order and cut to
    the question's maximum number of items; the answers are left
    untouched. *)
Theorem ensureMultiSelect_verbatim_labels (q : Question)
    (labels : list jsstring) (base : gmap jsstring JsValue) :
  labels ≠ [] →
  NoDup labels →
  Forall (λ o, o ∈ getAllowed q) labels →
  Forall (λ o, plain_label o = true) labels →
  ensureMultiSelect q (JArr (List.map JStr labels)) base
  = (take (effective_maxItems q) labels, base).
Proof.
  intros Hne Hnd Hin Hp. unfold ensureMultiSelect.
  rewrite parseTokens_labels.
  2:{ apply List.Forall_forall. intros o Ho.
      rewrite List.Forall_forall in Hp. specialize (Hp o Ho).
      unfold plain_label in Hp. by apply andb_true_iff in Hp as [? _]. }
  rewrite select_tokens_labels by done. simpl.
  destruct labels; [done|]. done.
Qed.

End VerbatimLabels.

Lemma ensureMultiSelect_verbatim_labels_witness :
  let labels := [opt_at (getAllowed q18) 2; opt_at (getAllowed q18) 0;
                 opt_at (getAllowed q18) 5; opt_at (getAllowed q18) 1] in
  @ensureMultiSelect Latin1.runtime q18 (JArr (List.map JStr labels)) ∅
  = (take (effective_maxItems q18) labels, ∅).
Proof.
  intros labels. apply ensureMultiSelect_verbatim_labels.
  - vm_compute. discriminate.
  - apply (bool_decide_unpack _). vm_compute. reflexivity.
  - apply List.Forall_forall. intros o Ho. apply includes_elem.
    revert o Ho. apply List.Forall_forall. apply (bool_decide_unpack _).
    vm_compute. reflexivity.
  - apply (bool_decide_unpack _). vm_compute. reflexivity.
Defined.

(** ** The dispatcher: what a call leaves alone *)

Section DispatcherFrames.
Context `{RT : JsRuntime}.

Lemma update_current_lookup (st : App.State) (f : Session → Session)
    (i : nat) :
  App.update_current st f !! i
  = (λ s, if App.is_current st s then f s else s) <$> App.sessions st !! i.
Proof.
  unfold App.update_current.
  change (List.map ?g ?l) with (g <$> l). apply list_lookup_fmap.
Qed.

Lemma update_current_length (st : App.State) (f : Session → Session) :
  length (App.update_current st f) = length (App.sessions st).
Proof. unfold App.update_current. apply length_map. Qed.

(** X11: a record_answer call, successful or not, keeps the current-session
    reference, the number and order of the stored sessions, and the id,
    creation time, transcript and finished flag of each of them; a session
    that is not the current one is left exactly as it was. *)
Theorem record_answer_keeps_sessions (args : RecordAnswerArgs)
    (st : App.State) :
  let st' := (App.handleRecordAnswer args st).2 in
  App.currentSessionIdRef st' = App.currentSessionIdRef st
  ∧ length (App.sessions st') = length (App.sessions st)
  ∧ ∀ i s, App.sessions st !! i = Some s →
      ∃ s', App.sessions st' !! i = Some s'
            ∧ Store.id s' = Store.id s
            ∧ Store.createdAt s' = Store.createdAt s
            ∧ Store.transcript s' = Store.transcript s
            ∧ Store.isFinished s' = Store.isFinished s
            ∧ (App.is_current st s = false → s' = s).
Proof.
  cbv zeta.
  assert (∀ i s, App.sessions st !! i = Some s →
            ∃ s', App.sessions st !! i = Some s'
                  ∧ Store.id s' = Store.id s
                  ∧ Store.createdAt s' = Store.createdAt s
                  ∧ Store.transcript s' = Store.transcript s
                  ∧ Store.isFinished s' = Store.isFinished s
                  ∧ (App.is_current st s = false → s' = s)) as Hsame.
  { intros i s Hs. exists s. repeat split; assumption. }
  unfold App.handleRecordAnswer.
  destruct (negb (prop_truthy (App.currentSessionIdRef st)));
    [split; [reflexivity | split; [reflexivity | exact Hsame]]|].
  destruct (App.findIndex _ QUESTIONS) as [qIndex|];
    [|split; [reflexivity | split; [reflexivity | exact Hsame]]].
  destruct (App.currentSess st) as [cur|];
    [|split; [reflexivity | split; [reflexivity | exact Hsame]]].
  cbv zeta.
  destruct (Nat.leb (length QUESTIONS) (S qIndex));
    cbn [snd App.sessions App.currentSessionIdRef].
  all: split; [reflexivity|]; split; [apply update_current_length|].
  all: intros i s Hs; rewrite update_current_lookup, Hs;
    cbn [fmap option_fmap option_map].
  all: destruct (App.is_current st s);
    eexists; (split; [reflexivity|]); cbn [Store.id Store.createdAt
      Store.transcript Store.isFinished]; repeat split; try reflexivity;
    intros; discriminate.
Qed.


End DispatcherFrames.

(** Two calls of one message: the second finds in sessionsRef the answers
    as they were before the first, and the answer of the first is lost. *)
Lemma second_call_of_a_message_drops_the_first_answer :
  let st1 :=
    (App.handleRecordAnswer (Examples.answer "q06" "2")
       (Examples.state_at 5)).2 in
  let st2 := (App.handleRecordAnswer (Examples.answer "q07" "3") st1).2 in
  (Store.auditData <$> App.currentSession st1)
  ≫= (λ d, d !! Types.notionKey q06) = Some (JStr (js "2"))
  ∧ (Store.auditData <$> App.currentSession st2)
    ≫= (λ d, d !! Types.notionKey q06) = None
  ∧ (Store.auditData <$> App.currentSession
                           (App.handleRecordAnswer
                              (Examples.answer "q07" "3")
                              (App.render st1)).2)
    ≫= (λ d, d !! Types.notionKey q06) = Some (JStr (js "2")).
Proof. vm_compute. repeat split; reflexivity. Qed.

(** ** A whole interview *)

Section WholeInterview.
Context `{RT : JsRuntime}.






End WholeInterview.


(** ** From a recorded answer to the payload *)

Section RecordedAnswers.
Context `{RT : JsRuntime}.

(** The payload entry of a question, from the answer stored for it by the
    call that recorded it. *)
Lemma recorded_entry (args : RecordAnswerArgs) (st : App.State) (i : nat)
    (q : Question) :
  session_found st = true →
  session_current st = true →
  named_question args = Some i →
  QUESTIONS !! i = Some q →
  ∃ cur',
    App.currentSession (App.handleRecordAnswer args st).2 = Some cur'
    ∧ ∀ env transcript,
        ∃ base',
          getprop base' (Types.notionKey q) = App.stored_answer q args
          ∧ getprop
              (buildGuaranteedPayload env (Store.auditData cur') transcript
                 None) (Types.notionKey q)
            = getprop (enforce base' q) (Types.notionKey q).
Proof.
  intros Hfound Hcurrent Hnamed Hq.
  unfold session_found in Hfound. apply andb_prop in Hfound as [Href Hf].
  destruct (App.currentSess st) as [seen|] eqn:Hseen; [|done].
  unfold session_current in Hcurrent.
  apply andb_prop in Hcurrent as [_ Hcs].
  destruct (App.currentSession st) as [cur|] eqn:Hcur; [|done].
  destruct (handleRecordAnswer_success args st i seen Href Hnamed Hseen)
    as (q' & d & Hq' & -> & _ & _ & _ & Hnew & _).
  rewrite Hq in Hq'. injection Hq' as <-.
  destruct (Hnew cur Hcur) as (cur' & Hcur' & Hdata & _).
  exists cur'. split; [done|].
  intros env transcript.
  assert (q ∈ QUESTIONS) as Hin by (by eapply list_elem_of_lookup_2).
  destruct (payload_entry env (Store.auditData cur') transcript None q Hin)
    as (base' & Hb & Hout).
  exists base'. split; [|done].
  rewrite Hb. unfold input_of, getprop. cbn [default].
  rewrite (left_id_L ∅ (∪)), Hdata.
  pose proof (notionKey_not_autreKey q q Hin Hin) as Hne.
  unfold App.newData.
  destruct (Types.autreKey q) as [k|]; [|by rewrite lookup_insert_eq].
  destruct (_ && _); [|by rewrite lookup_insert_eq].
  rewrite lookup_insert_ne by congruence. by rewrite lookup_insert_eq.
Qed.

(** X14: an option label recorded for a select question by record_answer
    (white space around it aside), on a session that the state holds and
    the handler finds, is the payload entry of that question when the
    payload is built from the session's answers without a candidate. *)
Theorem recorded_label_reaches_payload (args : RecordAnswerArgs)
    (st : App.State) (i : nat) (q : Question) (o : jsstring) :
  session_found st = true →
  session_current st = true →
  named_question args = Some i →
  QUESTIONS !! i = Some q →
  Types.type q = SELECT →
  arg_value args = JStr o →
  trim o ≠ [] → trim o ∈ getAllowed q →
  ∃ cur',
    App.currentSession (App.handleRecordAnswer args st).2 = Some cur'
    ∧ ∀ env transcript,
        getprop
          (buildGuaranteedPayload env (Store.auditData cur') transcript None)
          (Types.notionKey q)
        = JStr (trim o).
Proof.
  intros Hfound Hcurrent Hnamed Hq Hty Hv Hne Hin.
  destruct (recorded_entry args st i q Hfound Hcurrent Hnamed Hq) as (cur' & Hc & Hp).
  exists cur'. split; [done|]. intros env transcript.
  destruct (Hp env transcript) as (base' & Hb & ->).
  unfold enforce. rewrite Hty, getprop_insert, Hb.
  unfold App.stored_answer. rewrite Hty, Hv.
  unfold ensureSelect. cbn [coalesce nullish toString].
  destruct (trim o) as [|c r] eqn:Ht; [done|]. cbn [nonempty negb].
  apply includes_elem in Hin. by rewrite Hin.
Qed.


End RecordedAnswers.

Lemma recorded_label_reaches_payload_witness :
  ∃ cur' : @Session Latin1.runtime,
    App.currentSession
      (App.handleRecordAnswer
         (Examples.answer "q06" " Collaborateur / expert technique ") (Examples.state_at 5)).2
    = Some cur'
    ∧ ∀ env transcript,
        getprop
          (buildGuaranteedPayload env (Store.auditData cur') transcript None)
          (Types.notionKey q06)
        = JStr (trim (js " Collaborateur / expert technique ")).
Proof.
  apply (recorded_label_reaches_payload
           (Examples.answer "q06" " Collaborateur / expert technique ") (Examples.state_at 5)
           5%nat q06 (js " Collaborateur / expert technique ")).
  - vm_compute. reflexivity.
  - vm_compute. reflexivity.
  - vm_compute. reflexivity.
  - vm_compute. reflexivity.
  - vm_compute. reflexivity.
  - vm_compute. reflexivity.
  - vm_compute. discriminate.
  - apply includes_elem. vm_compute. reflexivity.
Defined.


(** ** The session store *)


Section SessionStore.
Context `{RT : JsRuntime}.

Import Lifecycle.

Lemma update_current_none (st : App.State) (f : Session → Session) :
  App.currentSession st = None → App.update_current st f = App.sessions st.
Proof.
  unfold App.currentSession, App.update_current.
  induction (App.sessions st) as [|s l IH]; simpl; [done|].
  destruct (App.is_current st s); [done|]. intros H. by rewrite IH.
Qed.

(** X16: technical closure arms the final speech and keeps the number of
    sessions; when the session reference is set it marks the current
    session finished, its other fields unchanged, and the progress stage
    becomes the fifth; it starts one submission, of the answers of the
    session as sessionsRef holds it, and none when sessionsRef holds no
    such session; with no current session it changes no session; a session
    that is not the current one is never changed. *)
Theorem technical_closure_finishes_and_submits (st : App.State) :
  let st' := (handleTechnicalClosure st).2 in
  App.isPendingFinalSpeechRef st' = true
  ∧ length (App.sessions st') = length (App.sessions st)
  ∧ (∀ cur,
       prop_truthy (App.currentSessionIdRef st) = true →
       App.currentSession st = Some cur →
       App.currentSession st' = Some (finished cur)
       ∧ Progress.stageInfo (App.currentSession st')
         = (5%nat, Progress.stage_label 4))
  ∧ App.submitted st'
    = App.submitted st
      ++ match App.currentSess st with
         | Some seen => [Store.auditData seen]
         | None => []
         end
  ∧ (App.currentSession st = None → App.sessions st' = App.sessions st)
  ∧ (∀ i s, App.sessions st !! i = Some s → App.is_current st s = false →
       App.sessions st' !! i = Some s).
Proof.
  cbv zeta. unfold handleTechnicalClosure, updateCurrentSession.
  cbn [snd App.isPendingFinalSpeechRef App.submitted]. split; [done|].
  assert (App.submitted st
          ++ match App.currentSess st with
             | Some seen => [Store.auditData seen]
             | None => []
             end
          = match App.currentSess st with
            | Some session => App.submitted st ++ [Store.auditData session]
            | None => App.submitted st
            end) as Hsub.
  { destruct (App.currentSess st); [done | by rewrite app_nil_r]. }
  destruct (prop_truthy (App.currentSessionIdRef st)) eqn:Href;
    cbn [negb App.sessions App.sessionsRef App.currentSessionIdRef].
  - split; [apply update_current_length|]. split; [|split; [done|split]].
    + intros cur _ Hcur.
      rewrite currentSession_update by done. rewrite Hcur. done.
    + intros Hnone. by rewrite update_current_none.
    + intros i s Hs Hc. rewrite update_current_lookup, Hs. simpl.
      by rewrite Hc.
  - split; [done|]. split; [done|]. split; [done|]. split; done.
Qed.


End SessionStore.

(** ** The progress stage *)

(** X18: the progress stage shown for a session is between 1 and 5, its label
    is the one of that stage, and the stage does not go down when the
    pointer goes up (a finished session staying finished). *)
Theorem stage_index_bounds_and_order `{RT : JsRuntime} (s1 s2 : Session) :
  let i1 := (Progress.stageInfo (Some s1)).1 in
  let i2 := (Progress.stageInfo (Some s2)).1 in
  (1 ≤ i1 ≤ 5)%nat
  ∧ (Progress.stageInfo (Some s1)).2 = Progress.stage_label (i1 - 1)
  ∧ ((Store.currentStep s1 ≤ Store.currentStep s2)%nat →
     (Store.isFinished s1 = true → Store.isFinished s2 = true) →
     (i1 ≤ i2)%nat).
Proof.
  cbv zeta. unfold Progress.stageInfo, Progress.STAGES, App.findIndex.
  cbn [App.findIndex_from Progress.maxIndex].
  destruct (Store.isFinished s1), (Store.isFinished s2);
    repeat match goal with
           | |- context [Nat.leb ?a ?b] => destruct (Nat.leb_spec a b)
           end; cbn [fst snd Nat.sub];
    (split; [lia|]); (split; [reflexivity|]); intros Hle Hfin;
    try lia; by specialize (Hfin eq_refl).
Qed.

(** ** Turns *)

Section Turns.
Context `{RT : JsRuntime}.

Import Lifecycle.

(** X19: a completed turn empties both transcription buffers and keeps the
    session reference, the submissions and the number of sessions; to each
    session it adds at most two transcript entries, none with an empty
    text, after the existing ones, and it never changes an id, a pointer,
    the answers or a finished flag; a session that is not the current one
    is left as it was. *)
Theorem turn_completion_appends_transcript (c : Component) :
  let c' := (onTurnComplete c).1 in
  currentInputTextRef c' = []
  ∧ currentOutputTextRef c' = []
  ∧ App.currentSessionIdRef (app c') = App.currentSessionIdRef (app c)
  ∧ App.submitted (app c') = App.submitted (app c)
  ∧ length (App.sessions (app c')) = length (App.sessions (app c))
  ∧ ∀ i s, App.sessions (app c) !! i = Some s →
      ∃ s' added,
        App.sessions (app c') !! i = Some s'
        ∧ Store.transcript s' = Store.transcript s ++ added
        ∧ (length added ≤ 2)%nat
        ∧ Forall (λ e, nonempty (text e) = true) added
        ∧ Store.id s' = Store.id s
        ∧ Store.currentStep s' = Store.currentStep s
        ∧ Store.auditData s' = Store.auditData s
        ∧ Store.isFinished s' = Store.isFinished s
        ∧ (App.is_current (app c) s = false → s' = s).
Proof.
  cbv zeta. unfold onTurnComplete.
  cbn [fst app currentInputTextRef currentOutputTextRef App.sessions
       App.currentSessionIdRef App.submitted].
  split; [done|]. split; [done|]. split; [done|]. split; [done|].
  set (input := trim (currentInputTextRef c)).
  set (output := trim (currentOutputTextRef c)).
  assert (∀ s : Session, ∃ added,
            s = s ∧ Store.transcript s = Store.transcript s ++ added
            ∧ (length added ≤ 2)%nat
            ∧ Forall (λ e, nonempty (text e) = true) added) as Hsame.
  { intros s. exists []. rewrite app_nil_r. repeat split; [simpl; lia|].
    apply Forall_nil_2. }
  destruct (nonempty input || nonempty output).
  - split; [apply update_current_length|].
    intros i s Hs. rewrite update_current_lookup, Hs.
    cbn [fmap option_fmap option_map].
    destruct (App.is_current (app c) s).
    + eexists _, _. split; [reflexivity|].
      unfold turn_update. cbn [Store.transcript Store.id Store.currentStep
        Store.auditData Store.isFinished].
      split; [reflexivity|]. split.
      { rewrite length_app. destruct (nonempty input), (nonempty output);
          simpl; lia. }
      split.
      { apply Forall_app. split.
        - destruct (nonempty input) eqn:Hi; [|apply Forall_nil_2].
          apply Forall_cons_2; [done | apply Forall_nil_2].
        - destruct (nonempty output) eqn:Ho; [|apply Forall_nil_2].
          apply Forall_cons_2; [done | apply Forall_nil_2]. }
      repeat split; try reflexivity. intros; discriminate.
    + destruct (Hsame s) as (added & _ & Ht & Hl & Hf).
      exists s, added. repeat split; try done.
  - split; [done|]. intros i s Hs.
    destruct (Hsame s) as (added & _ & Ht & Hl & Hf).
    exists s, added. repeat split; try done.
Qed.







Lemma render_component (c : Component) :
  currentInputTextRef (render c) = currentInputTextRef c
  ∧ currentOutputTextRef (render c) = currentOutputTextRef c
  ∧ App.currentSessionIdRef (app (render c)) = App.currentSessionIdRef (app c)
  ∧ App.currentSession (app (render c)) = App.currentSession (app c)
  ∧ App.isPendingFinalSpeechRef (app (render c))
    = App.isPendingFinalSpeechRef (app c).
Proof. done. Qed.




(** A function call that cannot end the interview leaves the pending flag
    as it is. *)
Lemma onFunctionCall_pending (fc : FunctionCall) (st : App.State) :
  may_complete fc = false →
  App.isPendingFinalSpeechRef (onFunctionCall fc st).2
  = App.isPendingFinalSpeechRef st.
Proof.
  unfold may_complete, onFunctionCall. intros H.
  apply orb_false_iff in H as [-> H]. 
  destruct (str_eqb (name fc) (js "record_answer")); [|done].
  cbn [andb] in H. apply bool_decide_eq_false in H.
  destruct (session_found st) eqn:Hfound.
  - destruct (named_question (args fc)) as [i|] eqn:Hnamed.
    + unfold session_found in Hfound. apply andb_prop in Hfound as [Href Hf].
      destruct (App.currentSess st) as [seen|] eqn:Hseen; [|done].
      destruct (handleRecordAnswer_success (args fc) st i seen Href Hnamed
                  Hseen) as (q & d & _ & _ & _ & _ & _ & _ & _ & ->).
      destruct (named_question_spec _ _ Hnamed) as [Hi _].
      destruct (Nat.leb_spec (length QUESTIONS) (S i)) as [Hge|];
        [|by rewrite orb_false_r].
      exfalso. apply H. f_equal. lia.
    + destruct (handleRecordAnswer_failure (args fc) st) as [_ ->];
        [by right | done].
  - destruct (handleRecordAnswer_failure (args fc) st) as [_ ->];
      [by left | done].
Qed.

Lemma onToolCall_pending (fcs : list FunctionCall) (st : App.State) :
  existsb may_complete fcs = false →
  App.isPendingFinalSpeechRef (onToolCall fcs st)
  = App.isPendingFinalSpeechRef st.
Proof.
  unfold onToolCall. revert st.
  induction fcs as [|fc fcs IH]; intros st; [done|]. cbn [existsb fold_left].
  intros H. apply orb_false_iff in H as [Hfc Hfcs].
  rewrite IH by done. by apply onFunctionCall_pending.
Qed.

(** What a message does to the timer and to the pending flag, before its
    function calls. *)
Lemma onmessage_pending (m : LiveServerMessage) (c : Component) :
  (onmessage m c).2 = App.isPendingFinalSpeechRef (app c) && turnComplete m
  ∧ (existsb may_complete (toolCall m) = false →
     App.isPendingFinalSpeechRef (app (onmessage m c).1)
     = App.isPendingFinalSpeechRef (app c) && negb (turnComplete m)).
Proof.
  unfold onmessage. cbn [fst snd app].
  set (c2 := match outputTranscription m with
             | Some fragment => onOutputTranscription fragment _
             | None => _
             end).
  assert (app c2 = app c) as Happ.
  { subst c2. by destruct (inputTranscription m), (outputTranscription m). }
  clearbody c2. destruct (turnComplete m); cbn [fst snd].
  - unfold onTurnComplete. cbn [fst snd app]. rewrite Happ, andb_true_r.
    split; [done|]. intros H. rewrite onToolCall_pending by done.
    cbn. by rewrite andb_false_r.
  - rewrite andb_false_r, andb_true_r. split; [done|].
    intros H. rewrite onToolCall_pending by done. by rewrite Happ.
Qed.

(** X21: over any sequence of server messages, function calls included and
    whether or not the component is rendered between them, the timer that
    finishes the session is armed at most once for the final speech pending
    at the start and once for each message that carries a technical_closure
    call or a record_answer call for the last question; when no message
    carries such a call it is armed exactly once, by the first completed
    turn, if the final speech was pending, and never otherwise, and that
    turn clears the pending flag. *)
Theorem finishing_timer_armed_once (rendered : nat → bool)
    (ms : list LiveServerMessage) (c : Component) :
  ((onMessages rendered ms c).2
   ≤ (if App.isPendingFinalSpeechRef (app c) then 1 else 0)
     + length (List.filter (λ m, existsb may_complete (toolCall m)) ms))%nat
  ∧ (Forall (λ m, existsb may_complete (toolCall m) = false) ms →
     (onMessages rendered ms c).2
     = (if App.isPendingFinalSpeechRef (app c) && existsb turnComplete ms
        then 1 else 0)%nat
     ∧ App.isPendingFinalSpeechRef (app (onMessages rendered ms c).1)
       = App.isPendingFinalSpeechRef (app c)
         && negb (existsb turnComplete ms)).
Proof.
  unfold onMessages. split.
  - assert (∀ ms i c n,
              ((onMessages_from rendered i ms (c, n)).2
               + (if App.isPendingFinalSpeechRef
                       (app (onMessages_from rendered i ms (c, n)).1)
                  then 1 else 0)
               ≤ n + (if App.isPendingFinalSpeechRef (app c) then 1 else 0)
                 + length (List.filter
                             (λ m, existsb may_complete (toolCall m)) ms))%nat)
      as Hgen.
    { clear ms c. induction ms as [|m ms IH]; intros i c n.
      - cbn. lia.
      - cbn [onMessages_from List.filter]. cbv zeta. cbn [fst snd].
        set (c0 := if rendered i then render c else c).
        assert (App.isPendingFinalSpeechRef (app c0)
                = App.isPendingFinalSpeechRef (app c)) as Hp0.
        { subst c0. by destruct (rendered i). }
        destruct (onmessage_pending m c0) as [Ha Hp]. rewrite Hp0 in Ha, Hp.
        specialize (IH (S i) (onmessage m c0).1
                      (if (onmessage m c0).2 then S n else n)).
        etransitivity; [exact IH|]. rewrite Ha.
        destruct (existsb may_complete (toolCall m)) eqn:Hmc.
        + cbn [length].
          destruct (App.isPendingFinalSpeechRef (app (onmessage m c0).1)),
                   (App.isPendingFinalSpeechRef (app c)), (turnComplete m);
            cbn; lia.
        + rewrite (Hp eq_refl).
          destruct (App.isPendingFinalSpeechRef (app c)), (turnComplete m);
            cbn; lia. }
    specialize (Hgen ms 0%nat c 0%nat). lia.
  - assert (∀ ms i c n,
              Forall (λ m, existsb may_complete (toolCall m) = false) ms →
              (onMessages_from rendered i ms (c, n)).2
              = (n + if App.isPendingFinalSpeechRef (app c)
                        && existsb turnComplete ms
                     then 1 else 0)%nat
              ∧ App.isPendingFinalSpeechRef
                  (app (onMessages_from rendered i ms (c, n)).1)
                = App.isPendingFinalSpeechRef (app c)
                  && negb (existsb turnComplete ms)) as Hgen.
    { clear ms c. induction ms as [|m ms IH]; intros i c n Hall.
      - cbn. rewrite andb_false_r, andb_true_r. split; [lia | done].
      - inversion_clear Hall as [|?? Hm Hms].
        cbn [onMessages_from existsb]. cbv zeta. cbn [fst snd].
        set (c0 := if rendered i then render c else c).
        assert (App.isPendingFinalSpeechRef (app c0)
                = App.isPendingFinalSpeechRef (app c)) as Hp0.
        { subst c0. by destruct (rendered i). }
        destruct (onmessage_pending m c0) as [Ha Hp]. rewrite Hp0 in Ha, Hp.
        destruct (IH (S i) (onmessage m c0).1
                    (if (onmessage m c0).2 then S n else n) Hms)
          as [IH1 IH2].
        rewrite IH1, IH2, (Hp Hm), Ha.
        destruct (App.isPendingFinalSpeechRef (app c)), (turnComplete m),
                 (existsb turnComplete ms); simpl; split; (lia || done). }
    intros Hall. apply (Hgen ms 0%nat c 0%nat Hall).
Qed.

End Turns.

(** ** The handlers behind the client *)

Section Handlers.
Context `{RT : JsRuntime}.

Lemma candidate_of_response (v : JsValue) (rest : list (jsstring * JsValue)) :
  Forall (λ f : jsstring * JsValue, f.1 ≠ js "candidate") rest →
  candidate_of (JObj ((js "candidate", v) :: rest))
  = match v with
    | JObj _ | JArr _ => Some (properties v)
    | _ => None
    end.
Proof.
  intros Hrest. unfold candidate_of.
  assert (properties (JObj ((js "candidate", v) :: rest)) !! js "candidate"
          = Some v) as ->; [|by destruct v].
  unfold properties. cbn [fold_left fst snd].
  assert (∀ m : gmap jsstring JsValue,
            m !! js "candidate" = Some v →
            fold_left (λ m (f : jsstring * JsValue), <[f.1 := f.2]> m) rest m
            !! js "candidate" = Some v) as Hgen.
  { induction Hrest as [|f rest Hf Hrest IH]; intros m Hm; [done|].
    cbn [fold_left]. apply IH. by rewrite lookup_insert_ne. }
  apply Hgen. by rewrite lookup_insert_eq.
Qed.

Lemma candidate_of_without (fields : list (jsstring * JsValue)) :
  Forall (λ f : jsstring * JsValue, f.1 ≠ js "candidate") fields →
  candidate_of (JObj fields) = None.
Proof.
  intros Hf. unfold candidate_of.
  assert (properties (JObj fields) !! js "candidate" = None) as ->; [|done].
  unfold properties.
  assert (∀ m : gmap jsstring JsValue,
            m !! js "candidate" = None →
            fold_left (λ m (f : jsstring * JsValue), <[f.1 := f.2]> m)
              fields m !! js "candidate" = None) as Hgen.
  { induction Hf as [|f rest Hf Hrest IH]; intros m Hm; [done|].
    cbn [fold_left]. apply IH. by rewrite lookup_insert_ne. }
  by apply Hgen.
Qed.

(** X22: whatever the request, the key and the model call, the normalize
    handler answers with a status below 500; and when every answer
    collected for a question can be rendered as text, the client behind it
    returns the guaranteed payload.  A candidate takes part only when the
    request was a valid POST, the server holds a key and the model's text
    parsed to an object or an array, and then unless it makes Stage B
    raise: in that case the payload is the one built without it. *)
Theorem client_payload_behind_normalize_handler (env : Ambient)
    (transcript : list TranscriptEntry) (rawData : gmap jsstring JsValue)
    (request : Api.Request) (apiKey : bool) (ai : Legacy.AiOutcome) :
  renders rawData = true →
  let response := Api.normalize request apiKey ai in
  let candidate :=
    if Api.is_POST request && apiKey && Api.valid_payload (Api.body request)
    then match ai with
         | Legacy.AiText (Some (JObj fields)) =>
           Some (properties (JObj fields))
         | Legacy.AiText (Some (JArr items)) => Some (properties (JArr items))
         | _ => None
         end
    else None in
  (Api.statusCode response < 500)%nat
  ∧ ∃ used,
      normalizeAuditData env transcript rawData (Api.as_fetch response)
      = Return (buildGuaranteedPayload env rawData transcript used)
      ∧ (used = candidate
         ∨ used = None
           ∧ ∃ e, Exn.buildGuaranteedPayload env rawData transcript candidate
                  = Throw e).
Proof.
  intros Hr. cbv zeta.
  pose proof (Exn_buildGuaranteedPayload_returns env rawData transcript None)
    as Hnone.
  rewrite renders_no_candidate in Hnone. specialize (Hnone Hr).
  assert (∀ candidate,
            try_catch
              (Exn.buildGuaranteedPayload env rawData transcript candidate)
              (λ _, Exn.buildGuaranteedPayload env rawData transcript None)
            = Return (buildGuaranteedPayload env rawData transcript candidate)
            ∨ try_catch
                (Exn.buildGuaranteedPayload env rawData transcript candidate)
                (λ _, Exn.buildGuaranteedPayload env rawData transcript None)
              = Return (buildGuaranteedPayload env rawData transcript None)
              ∧ ∃ e, Exn.buildGuaranteedPayload env rawData transcript
                       candidate = Throw e) as Htry.
  { intros candidate.
    destruct (Exn.buildGuaranteedPayload env rawData transcript candidate)
      as [p|e] eqn:Hp; cbn [try_catch].
    - left. by rewrite (Exn_buildGuaranteedPayload_sound _ _ _ _ _ Hp).
    - right. split; [done | by exists e]. }
  assert (∀ candidate payload,
            payload
            = try_catch
                (Exn.buildGuaranteedPayload env rawData transcript candidate)
                (λ _, Exn.buildGuaranteedPayload env rawData transcript None)
            → ∃ used,
                payload
                = Return (buildGuaranteedPayload env rawData transcript used)
                ∧ (used = candidate
                   ∨ used = None
                     ∧ ∃ e, Exn.buildGuaranteedPayload env rawData transcript
                              candidate = Throw e)) as Hused.
  { intros candidate payload ->.
    destruct (Htry candidate) as [-> | [-> He]].
    - exists candidate. split; [done | by left].
    - exists None. split; [done | by right]. }
  unfold Api.normalize.
  assert (js "error" ≠ js "candidate") as Hne by (vm_compute; discriminate).
  assert (try_catch
            (Exn.buildGuaranteedPayload env rawData transcript None)
            (λ _, Exn.buildGuaranteedPayload env rawData transcript None)
          = Exn.buildGuaranteedPayload env rawData transcript None) as Hsame
    by by rewrite Hnone.
  destruct (Api.is_POST request); cbn [negb andb].
  2:{ split; [cbn; lia|]. apply Hused. by rewrite Hsame. }
  destruct apiKey; cbn [negb andb].
  2:{ split; [cbn; lia|]. apply Hused.
      unfold normalizeAuditData, Api.as_fetch.
      cbn [Api.statusCode Api.json Nat.leb Nat.ltb andb fetch mbind
           completion_bind negb fst snd default id].
      by rewrite candidate_of_response
        by (apply Forall_cons_2; [done | apply Forall_nil_2]). }
  destruct (Api.valid_payload (Api.body request)); cbn [negb].
  2:{ split; [cbn; lia|]. apply Hused. by rewrite Hsame. }
  unfold normalizeAuditData, Api.as_fetch.
  destruct ai as [name | [parsed|]];
    cbn [Api.statusCode Api.json Nat.leb Nat.ltb andb fetch mbind
         completion_bind negb fst snd default id].
  - split; [lia|]. apply Hused.
    by rewrite candidate_of_response
      by (apply Forall_cons_2; [done | apply Forall_nil_2]).
  - split; [lia|]. apply Hused.
    rewrite candidate_of_response by apply Forall_nil_2.
    by destruct parsed; cbn [truthy Api.is_object andb];
      rewrite ?andb_false_r.
  - split; [lia|]. apply Hused.
    by rewrite candidate_of_response by apply Forall_nil_2.
Qed.

(** When the normalisation raises, nothing is posted. *)
Lemma submitToWebhook_without_payload (env : Ambient)
    (transcript : list TranscriptEntry) (rawData : gmap jsstring JsValue)
    (proxy delivery : FetchOutcome) (e : jsstring) :
  normalizeAuditData env transcript rawData proxy = Throw e →
  deliveries (submitToWebhook env transcript rawData proxy delivery) = []
  ∧ status (submitToWebhook env transcript rawData proxy delivery) = error.
Proof. intros H. unfold submitToWebhook. by rewrite H. Qed.

(** X23: behind the submit handler, the handler forwards the request body
    to the webhook once on a POST and never otherwise; when every answer
    collected for a question can be rendered as text, the client posts
    once, and ends in success exactly when the request was a POST and the
    webhook answered ok, and otherwise in error with the message of a
    failed transmission, whatever the normalisation proxy did. *)
Theorem production_submission (env : Ambient)
    (transcript : list TranscriptEntry) (rawData : gmap jsstring JsValue)
    (proxy webhook : FetchOutcome) (request : Api.Request) :
  renders rawData = true →
  let r := Api.submit request webhook in
  let trace :=
    submitToWebhook env transcript rawData proxy (Api.as_fetch r.1) in
  r.2 = (if Api.is_POST request then [Api.body request] else [])
  ∧ length (deliveries trace) = 1%nat
  ∧ (status trace = success
     ↔ Api.is_POST request = true ∧ ∃ b, webhook = Responded true b)
  ∧ (status trace ≠ success →
     status trace = error ∧ errorMsg trace = Some msg_failed).
Proof.
  intros Hr. cbv zeta. unfold submitToWebhook.
  destruct (normalizeAuditData_returns env transcript rawData proxy Hr)
    as [used ->].
  unfold Api.submit.
  destruct (Api.is_POST request); cbn [negb fst snd].
  - destruct webhook as [name | [|] b];
      cbn [fetch negb fst snd Api.as_fetch Api.statusCode Api.json Nat.leb
           Nat.ltb andb deliveries status errorMsg length].
    + repeat split; try done. intros (_ & b & [=]).
    + repeat split; try done. by exists b.
    + repeat split; try done. intros (_ & b' & [=]).
  - cbn [fetch negb fst snd Api.as_fetch Api.statusCode Api.json Nat.leb
         Nat.ltb andb deliveries status errorMsg length].
    repeat split; try done. by intros [[=] _].
Qed.

(** ** The earlier submission *)

Lemma legacy_attempt_posts_at_most_once (env : Ambient)
    (ai : Legacy.AiOutcome) (delivery : FetchOutcome) :
  (length (Legacy.attempt env ai delivery).1 ≤ 1)%nat.
Proof.
  unfold Legacy.attempt.
  destruct (Legacy.normalizeAuditData env ai); [|simpl; lia].
  destruct (fetch delivery) as [response|]; [|simpl; lia].
  destruct (negb response.1); simpl; lia.
Qed.

Lemma legacy_deliveries_bound (env : Ambient)
    (net : nat → Legacy.AiOutcome * FetchOutcome) (retryCount : nat) :
  (length (deliveries (Legacy.submitToWebhook env net retryCount))
   ≤ Nat.max 1 (2 - retryCount))%nat.
Proof.
  funelim (Legacy.submitToWebhook env net retryCount); cbn [deliveries];
    pose proof (legacy_attempt_posts_at_most_once env
                  (net retryCount).1 (net retryCount).2) as Hp;
    match goal with
    | Ha : Legacy.attempt _ _ _ = _ |- _ => rewrite Ha in Hp
    end; cbn [fst] in Hp; try lia.
  match goal with
  | Hr : Legacy.retries _ _ = true |- _ =>
    destruct (andb_prop _ _ Hr) as [Hlt _]
  end.
  apply Nat.ltb_lt in Hlt. assert (retryCount = 0%nat) as -> by lia.
  rewrite length_app.
  match goal with
  | IH : (length _ ≤ _)%nat |- _ => simpl in IH; simpl; lia
  end.
Qed.

(** X24: the earlier submitToWebhook posts at most twice; when its first
    attempt is aborted it does not try again and reports the timeout, and
    when its first attempt succeeds it stops there with success. *)
Theorem legacy_submission_bounded (env : Ambient)
    (net : nat → Legacy.AiOutcome * FetchOutcome) :
  let trace := Legacy.submitToWebhook env net 0 in
  (length (deliveries trace) ≤ 2)%nat
  ∧ ((Legacy.attempt env (net 0%nat).1 (net 0%nat).2).2 = Throw AbortError →
     trace = {| deliveries := (Legacy.attempt env (net 0%nat).1
                                 (net 0%nat).2).1;
                status := error;
                errorMsg := Some Legacy.msg_timeout_45 |})
  ∧ ((Legacy.attempt env (net 0%nat).1 (net 0%nat).2).2 = Return () →
     trace = {| deliveries := (Legacy.attempt env (net 0%nat).1
                                 (net 0%nat).2).1;
                status := success;
                errorMsg := None |}).
Proof.
  cbv zeta. split; [|split].
  - pose proof (legacy_deliveries_bound env net 0) as H. simpl in H. lia.
  - intros Habort. simp submitToWebhook.
    destruct (Legacy.attempt env (net 0%nat).1 (net 0%nat).2) as [posted r].
    cbn [snd fst] in *. subst r. simpl. reflexivity.
  - intros Hok. simp submitToWebhook.
    destruct (Legacy.attempt env (net 0%nat).1 (net 0%nat).2) as [posted r].
    cbn [snd fst] in *. subst r. simpl. reflexivity.
Qed.

End Handlers.

(** ** Resuming, and the escape text of a multi-select *)

Section Resume.
Context `{RT : JsRuntime}.

Import Lifecycle.


(** X26: ensureMultiSelect either leaves the answers as they are, or writes
    exactly one entry: the free text under the question's escape key, and
    this only when that key held nothing truthy and the result is the
    escape label alone. *)
Theorem ensureMultiSelect_state_effect (q : Question) (value : JsValue)
    (base : gmap jsstring JsValue) :
  (ensureMultiSelect q value base).2 = base
  ∨ ∃ k, Types.autreKey q = Some k
         ∧ truthy (getprop base k) = false
         ∧ (ensureMultiSelect q value base).1 = [autreLabel q]
         ∧ (ensureMultiSelect q value base).2
           = <[k := JStr (autre_fallback_text (autreText q value base)
                            value)]> base.
Proof.
  unfold ensureMultiSelect.
  destruct (Nat.ltb 0 (length (fold_left _ _ _))); [by left|].
  match goal with |- context [Nat.ltb 0 (length ?r)] => destruct (Nat.ltb 0 (length r)) end;
    [by left|].
  destruct (hasAutre q); [|by left].
  unfold store_autre_multi. cbn [fst snd].
  destruct (Types.autreKey q) as [k|]; [|by left].
  destruct (nonempty k); cbn [andb]; [|by left].
  destruct (truthy (getprop base k)) eqn:Ht; cbn [negb]; [by left|].
  right. by exists k.
Qed.

End Resume.


(** ** Closed instances *)

Lemma ensureSelect_exact_label_witness :
  @ensureSelect Latin1.runtime q06
    (JStr (js " Collaborateur / expert technique ")) ∅
  = (trim (js " Collaborateur / expert technique "), ∅).
Proof.
  apply (@ensureSelect_exact_label Latin1.runtime q06
           (JStr (js " Collaborateur / expert technique ")) ∅).
  - vm_compute. discriminate.
  - apply includes_elem. vm_compute. reflexivity.
Defined.

Lemma ensureSelect_index_shorthand_witness :
  @ensureSelect Latin1.runtime q06 (JStr (js "3")) ∅
  = (opt_at (getAllowed q06) (N.to_nat (parseInt (js "3")) - 1), ∅)
  ∧ opt_at (getAllowed q06) (N.to_nat (parseInt (js "3")) - 1)
    ∈ getAllowed q06.
Proof.
  apply (@ensureSelect_index_shorthand Latin1.runtime q06 (js "3") ∅).
  - vm_compute. discriminate.
  - apply (bool_decide_unpack _). vm_compute. reflexivity.
  - intros Hin. apply includes_elem in Hin. vm_compute in Hin. discriminate.
  - vm_compute. split; discriminate.
Defined.



Lemma client_payload_behind_normalize_handler_witness :
  let rawData : gmap jsstring (@JsValue Latin1.runtime) :=
    {[ Types.notionKey q06 := JStr (js "2") ]} in
  let request :=
    {| Api.method := Some (js "POST");
       Api.body :=
         JObj [(js "rawData", JObj [(js "a", JNull)]);
               (js "transcript", JArr []);
               (js "questionsContext", JArr []);
               (js "prompt", JStr (js "p"))] |} in
  let ai :=
    Legacy.AiText
      (Some (JObj [(Types.notionKey q06, JObj [(js "toString", JNull)])])) in
  let response := Api.normalize request true ai in
  (Api.statusCode response < 500)%nat
  ∧ ∃ used,
      normalizeAuditData env0 [] rawData (Api.as_fetch response)
      = Return (buildGuaranteedPayload env0 rawData [] used)
      ∧ (used
         = Some (properties
                   (JObj [(Types.notionKey q06,
                           JObj [(js "toString", JNull)])]))
         ∨ used = None
           ∧ ∃ e,
               Exn.buildGuaranteedPayload env0 rawData []
                 (Some (properties
                          (JObj [(Types.notionKey q06,
                                  JObj [(js "toString", JNull)])])))
               = Throw e).
Proof.
  intros rawData request ai response.
  apply (client_payload_behind_normalize_handler env0 [] rawData request
           true ai).
  vm_compute. reflexivity.
Defined.

Lemma production_submission_witness :
  let rawData : gmap jsstring (@JsValue Latin1.runtime) :=
    {[ Types.notionKey q06 := JStr (js "2") ]} in
  let request : @Api.Request Latin1.runtime :=
    {| Api.method := Some (js "POST"); Api.body := JObj [] |} in
  let r := Api.submit request (Responded true None) in
  let trace :=
    submitToWebhook env0 [] rawData (Rejected AbortError)
      (Api.as_fetch r.1) in
  r.2 = (if Api.is_POST request then [Api.body request] else [])
  ∧ length (deliveries trace) = 1%nat
  ∧ (status trace = success
     ↔ Api.is_POST request = true
       ∧ ∃ b, @Responded Latin1.runtime true None = Responded true b)
  ∧ (status trace ≠ success →
     status trace = error ∧ errorMsg trace = Some msg_failed).
Proof.
  intros rawData request.
  apply (production_submission env0 [] rawData (Rejected AbortError)
           (Responded true None) request).
  vm_compute. reflexivity.
Defined.
